(** * twincity-ui: event normalizer, walkability resolver, sync merge and
      robot tick, embedded from [lib/eventAdapter.ts], the sync page and
      [components/MapView.tsx].

    Numbers.  A JavaScript number that passed [Number.isFinite] is modelled as
    an exact rational ([Q]); rounding error of IEEE doubles is not modelled.
    Epoch milliseconds are integers after [Math.round] and are kept in [Z].
    Strings are byte strings; [trim] and [toLowerCase] act on ASCII. *)

From Stdlib Require Import QArith Qround Qminmax Qabs ZArith List String Ascii Bool.
From Stdlib Require Import Lia Lqa Permutation Sorted.
Import ListNotations.

Open Scope string_scope.
Open Scope Z_scope.
Open Scope Q_scope.

(* ================================================================== *)
(** * Part I. Definitions                                              *)
(* ================================================================== *)

Set Warnings "-register-all".

(** ** JavaScript values and the built-ins the sources call *)
Module Js.

(** A value as [unknown] input can hold it.  [JNonFinite] stands for the
    numbers [NaN], [Infinity] and [-Infinity], which every parser of the
    adapter rejects through [Number.isFinite]. *)
Inductive JsVal : Type :=
| JUndefined
| JNull
| JBool (b : bool)
| JNum (q : Q)
| JNonFinite
| JStr (s : string)
| JArr (items : list JsVal)
| JObj (fields : list (string * JsVal)).

(** [Math.max(min, Math.min(max, value))] *)
Definition clampRange (value min max : Q) : Q := Qmax min (Qmin max value).

Definition clamp01 (value : Q) : Q := Qmax 0 (Qmin 1 value).

(** [Math.round]: nearest integer, halves towards plus infinity. *)
Definition Math_round (q : Q) : Z := Qfloor (q + (1 # 2)).

Definition Qltb (a b : Q) : bool := negb (Qle_bool b a).
Definition Qgeb (a b : Q) : bool := Qle_bool b a.
Definition Qgtb (a b : Q) : bool := negb (Qle_bool a b).

(** *** Strings *)

Definition isWhite (c : ascii) : bool :=
  match nat_of_ascii c with
  | 9%nat | 10%nat | 11%nat | 12%nat | 13%nat | 32%nat => true
  | _ => false
  end.

Fixpoint trimStart (s : string) : string :=
  match s with
  | EmptyString => EmptyString
  | String c r => if isWhite c then trimStart r else s
  end.

Fixpoint trimEnd (s : string) : string :=
  match s with
  | EmptyString => EmptyString
  | String c r =>
      match trimEnd r with
      | EmptyString => if isWhite c then EmptyString else String c EmptyString
      | r' => String c r'
      end
  end.

(** [String.prototype.trim] *)
Definition trim (s : string) : string := trimEnd (trimStart s).

Definition lowerChar (c : ascii) : ascii :=
  let n := nat_of_ascii c in
  if andb (Nat.leb 65 n) (Nat.leb n 90) then ascii_of_nat (n + 32) else c.

(** [String.prototype.toLowerCase] *)
Fixpoint toLowerCase (s : string) : string :=
  match s with
  | EmptyString => EmptyString
  | String c r => String (lowerChar c) (toLowerCase r)
  end.

Fixpoint startsWith (p s : string) : bool :=
  match p, s with
  | EmptyString, _ => true
  | String a p', String b s' => if Ascii.eqb a b then startsWith p' s' else false
  | String _ _, EmptyString => false
  end.

(** [String.prototype.includes] *)
Fixpoint includes (s sub : string) : bool :=
  if startsWith sub s then true
  else match s with
       | EmptyString => false
       | String _ r => includes r sub
       end.

(** [Array.prototype.includes] on an array of string literals *)
Definition arrIncludes (l : list string) (s : string) : bool :=
  existsb (String.eqb s) l.

(** [path.split(".")] *)
Fixpoint splitDot (s : string) : list string :=
  match s with
  | EmptyString => [EmptyString]
  | String c r =>
      if Ascii.eqb c "."%char then EmptyString :: splitDot r
      else match splitDot r with
           | [] => [String c EmptyString]
           | h :: t => String c h :: t
           end
  end.

(** [s.replace(/[^0-9.]/g, "")] *)
Definition isDigitOrDot (c : ascii) : bool :=
  let n := nat_of_ascii c in
  orb (andb (Nat.leb 48 n) (Nat.leb n 57)) (Nat.eqb n 46).

Fixpoint keepDigitsAndDots (s : string) : string :=
  match s with
  | EmptyString => EmptyString
  | String c r =>
      if isDigitOrDot c then String c (keepDigitsAndDots r) else keepDigitsAndDots r
  end.

(** [String(n)] for an integer [n], in decimal. *)
Definition digitChar (d : Z) : ascii := ascii_of_nat (48 + Z.to_nat d).

Fixpoint digitsOf (fuel : nat) (n : Z) (acc : string) : string :=
  match fuel with
  | O => acc
  | S f =>
      let acc' := String (digitChar (n mod 10)) acc in
      if (n <? 10)%Z then acc' else digitsOf f (n / 10)%Z acc'
  end.

Definition stringOfZ (n : Z) : string :=
  if (n <? 0)%Z
  then String "-"%char (digitsOf (S (Z.to_nat (Z.log2 (- n)))) (- n) EmptyString)
  else digitsOf (S (Z.to_nat (Z.log2 n))) n EmptyString.

(** *** Objects *)

Fixpoint lookupField (fields : list (string * JsVal)) (k : string) : JsVal :=
  match fields with
  | [] => JUndefined
  | (k', v) :: rest => if String.eqb k' k then v else lookupField rest k
  end.

(** [cursor[chunk]].  None of the key paths the sources read names an array
    index or [length], so a property of an array is [undefined]. *)
Definition getProp (cursor : JsVal) (chunk : string) : JsVal :=
  match cursor with
  | JObj fields => lookupField fields chunk
  | _ => JUndefined
  end.

(** [cursor && typeof cursor === "object"] *)
Definition isObjectLike (v : JsVal) : bool :=
  match v with
  | JObj _ | JArr _ => true
  | _ => false
  end.

Definition asRecord (value : JsVal) : option JsVal :=
  if isObjectLike value then Some value else None.

Fixpoint readChunks (cursor : JsVal) (chunks : list string) : JsVal :=
  match chunks with
  | [] => cursor
  | chunk :: rest =>
      if isObjectLike cursor then readChunks (getProp cursor chunk) rest
      else JUndefined
  end.

Definition readPath (record : JsVal) (path : string) : JsVal :=
  readChunks record (splitDot path).

(** [value !== undefined && value !== null] *)
Definition isPresent (v : JsVal) : bool :=
  match v with
  | JUndefined | JNull => false
  | _ => true
  end.

Fixpoint pickValue (record : JsVal) (paths : list string) : JsVal :=
  match paths with
  | [] => JUndefined
  | path :: rest =>
      let value := readPath record path in
      if isPresent value then value else pickValue record rest
  end.

End Js.
Export Js.

(** ** Insertion-ordered [Map<string, V>] *)
Module JsMap.
Section WithValue.
Context {V : Type}.

Definition t := list (string * V).

Fixpoint get (m : t) (k : string) : option V :=
  match m with
  | [] => None
  | (k', v) :: rest => if String.eqb k' k then Some v else get rest k
  end.

(** [map.set(k, v)]: an existing key keeps its place, a new key goes last. *)
Fixpoint set (m : t) (k : string) (v : V) : t :=
  match m with
  | [] => [(k, v)]
  | (k', v') :: rest =>
      if String.eqb k' k then (k', v) :: rest else (k', v') :: set rest k v
  end.

(** [new Map(entries)] *)
Definition ofEntries (entries : list (string * V)) : t :=
  fold_left (fun m kv => set m (fst kv) (snd kv)) entries [].

Definition values (m : t) : list V := map snd m.
Definition keys (m : t) : list string := map fst m.
Definition has (m : t) (k : string) : bool :=
  match get m k with Some _ => true | None => false end.

End WithValue.
End JsMap.

(** ** Zone geometry (top of [eventAdapter.ts]) *)
Module Geo.

Definition Point : Type := (Q * Q)%type.

(** [Bounds].  [Math.min()] of no argument is [Infinity] and [Math.max()] is
    [-Infinity]: the bounds of an empty polygon contain no point, whatever the
    padding.  [EmptyBounds] stands for them. *)
Inductive Bounds : Type :=
| EmptyBounds
| Box (minX maxX minY maxY : Q).

Definition polygonBounds (points : list Point) : Bounds :=
  match points with
  | [] => EmptyBounds
  | (x, y) :: rest =>
      Box (fold_left Qmin (map fst rest) x) (fold_left Qmax (map fst rest) x)
          (fold_left Qmin (map snd rest) y) (fold_left Qmax (map snd rest) y)
  end.

Definition pointInBounds (x y : Q) (bounds : Bounds) (padding : Q) : bool :=
  match bounds with
  | EmptyBounds => false
  | Box minX maxX minY maxY =>
      Qgeb x (minX - padding) && Qle_bool x (maxX + padding) &&
      Qgeb y (minY - padding) && Qle_bool y (maxY + padding)
  end.

(** One zone of [zone_map_s001.json]; coordinates in map pixels.  A polygon
    entry is the array the file holds; [centroid] is [None] when the file has
    no array there, and one of its coordinates is [None] when [Number(...)] of
    it is not finite. *)
Record Zone : Type := {
  zone_id : string;
  polygon : list (list Q);
  holes : list (list (list Q));
  centroid : option (list (option Q))
}.

(** [zm.map] and [zm.zones].  The world fields are [None] when
    [Number(...)] of the entry is not finite. *)
Record ZoneMap : Type := {
  map_width : positive;
  map_height : positive;
  world_width_m : option Q;
  world_depth_m : option Q;
  world_offset_x_m : option Q;
  world_offset_z_m : option Q;
  zones : list Zone
}.

Record ZoneGeometry : Type := {
  zoneId : string;
  outer : list Point;
  outerBounds : Bounds;
  zholes : list (list Point);
  holeBounds : list Bounds;
  zcentroid : Point
}.

Definition HOLE_PADDING_NORM : Q := 0.024.
Definition ZONE_EDGE_PADDING_NORM : Q := 0.012.

Section WithMap.
Variable zm : ZoneMap.

Definition mapW : Q := inject_Z (Zpos (map_width zm)).
Definition mapH : Q := inject_Z (Zpos (map_height zm)).

Definition WORLD_WIDTH_M : Q :=
  match world_width_m zm with Some w => Qmax 0.001 w | None => 9 end.
Definition WORLD_DEPTH_M : Q :=
  match world_depth_m zm with Some d => Qmax 0.001 d | None => 4.8 end.
Definition WORLD_OFFSET_X_M : Q :=
  match world_offset_x_m zm with Some o => o | None => 0 end.
Definition WORLD_OFFSET_Z_M : Q :=
  match world_offset_z_m zm with Some o => o | None => 0 end.

(** [.filter(pair => Array.isArray(pair) && pair.length >= 2)
     .map(([xPx, yPx]) => [xPx / width, yPx / height])] *)
Definition normPolygon (raw : list (list Q)) : list Point :=
  flat_map (fun pair =>
    match pair with
    | xPx :: yPx :: _ => [(xPx / mapW, yPx / mapH)]
    | _ => []
    end) raw.

Definition hasCentroid (zone : Zone) : bool :=
  match centroid zone with
  | Some (_ :: _ :: _) => true
  | _ => false
  end.

Definition centroidCoord (c : option Q) (size : Q) : Q :=
  match c with
  | Some v => clampRange (v / size) 0 1
  | None => 0.5
  end.

Definition centroidEntry (zone : Zone) : string * Point :=
  match centroid zone with
  | Some (cx :: cy :: _) =>
      (zone_id zone, (centroidCoord cx mapW, centroidCoord cy mapH))
  | _ => (zone_id zone, (0.5, 0.5))
  end.

Definition ZONE_CENTROIDS : JsMap.t (V := Point) :=
  JsMap.ofEntries (map centroidEntry (filter hasCentroid (zones zm))).

Definition ZONE_IDS : list string := map zone_id (zones zm).
Definition GENERIC_ZONE_IDS : list string := ["store"; "site"; "shop"; "global"; "all"].

Definition buildZoneGeometry (zone : Zone) : ZoneGeometry :=
  let outer := normPolygon (polygon zone) in
  let holes := map normPolygon (holes zone) in
  {| zoneId := zone_id zone;
     outer := outer;
     outerBounds := polygonBounds outer;
     zholes := holes;
     holeBounds := map polygonBounds holes;
     zcentroid := match JsMap.get ZONE_CENTROIDS (zone_id zone) with
                  | Some c => c
                  | None => (0.5, 0.5)
                  end |}.

Definition ZONE_GEOMETRIES : list ZoneGeometry := map buildZoneGeometry (zones zm).

Definition ZONE_GEOMETRY_BY_ID : JsMap.t (V := ZoneGeometry) :=
  JsMap.ofEntries (map (fun zone => (zoneId zone, zone)) ZONE_GEOMETRIES).

Definition ALL_HOLES_NORM : list (list Point) := flat_map zholes ZONE_GEOMETRIES.
Definition ALL_HOLE_BOUNDS : list Bounds := flat_map holeBounds ZONE_GEOMETRIES.

End WithMap.
End Geo.
Export Geo.

(** ** What the adapter takes from its host: the static tables loaded at
    module initialisation, the functions of [lib/geo.ts] and
    [lib/homography.ts], and the JavaScript run time. *)
Module Host.

Definition Matrix : Type := list Q.

Record CameraFrame : Type := { frame_width : Q; frame_height : Q }.

Class Host : Type := {
  (** [zone_map_s001.json] *)
  zm : ZoneMap;
  (** [pointInPolygon(x, y, polygon)] of [lib/geo.ts] *)
  pointInPolygon : Q -> Q -> list Point -> bool;
  (** [mapNormToWorldNorm(x, y, WORLD_NORM_TRANSFORM)] of [lib/geo.ts] *)
  mapNormToWorldNorm : Q -> Q -> Point;
  (** [worldNormToMapNorm(x, y, WORLD_NORM_TRANSFORM)] of [lib/geo.ts] *)
  worldNormToMapNorm : Q -> Q -> Point;
  (** [CAMERA_HOMOGRAPHY] and [CAMERA_FRAME] once every calibration row is
      registered; keys are lower-cased camera ids *)
  CAMERA_HOMOGRAPHY : JsMap.t (V := Matrix);
  CAMERA_FRAME : JsMap.t (V := CameraFrame);
  (** [applyHomography(matrix, x, y)] of [lib/homography.ts] *)
  applyHomography : Matrix -> Q -> Q -> option Point;
  (** [Number(s)], [None] when the result is not finite *)
  Number_of_string : string -> option Q;
  (** [Date.parse(s)], [None] when the result is [NaN] *)
  Date_parse : string -> option Q;
  (** [Date.now()] during the call *)
  Date_now : Z;
  (** [a.localeCompare(b)] *)
  localeCompare : string -> string -> Z
}.

End Host.
Export Host.

(** ** [lib/eventAdapter.ts] *)
Module Adapter.

Inductive EventType : Type := T_crowd | T_fall | T_fight | T_loitering | T_unknown.
Inductive IncidentStatus : Type := I_new | I_ack | I_resolved.
Inductive EventSource : Type := S_demo | S_camera | S_api | S_unknown.

Record EventItem : Type := {
  e_id : string;
  e_store_id : string;
  e_detected_at : Z;
  e_ingested_at : Z;
  e_latency_ms : Z;
  e_type : EventType;
  e_severity : Z;
  e_confidence : Q;
  e_zone_id : string;
  e_camera_id : option string;
  e_track_id : option string;
  e_object_label : option string;
  e_raw_status : option string;
  e_source : EventSource;
  e_model_version : option string;
  e_incident_status : IncidentStatus;
  e_x : Q;
  e_y : Q;
  e_world_x_m : option Q;
  e_world_z_m : option Q;
  e_note : option string
}.

(** [maxEvents] is [None] when [Number(options.maxEvents)] is [NaN]. *)
Record NormalizeOptions : Type := {
  maxEvents : option Q;
  fallbackStoreId : option string;
  defaultSource : option EventSource
}.

Record NormalizedCoordinates : Type := {
  c_x : Q;
  c_y : Q;
  c_worldX : option Q;
  c_worldZ : option Q
}.

Record NormalizedBBox : Type := { x1 : Q; y1 : Q; x2 : Q; y2 : Q }.

Definition MIN_VALID_EPOCH_MS : Z := 946684800000.
Definition MAX_FUTURE_DRIFT_MS : Z := 1000 * 60 * 60 * 24 * 365.

Definition nonEmpty (s : string) : bool :=
  match s with EmptyString => false | _ => true end.

Definition parseId (value : JsVal) : option string :=
  match value with
  | JStr s => if nonEmpty (trim s) then Some (trim s) else None
  | JNum q => Some (stringOfZ (Math_round q))
  | _ => None
  end.

Definition parseText (value : JsVal) : option string :=
  match value with
  | JStr s => if nonEmpty (trim s) then Some (trim s) else None
  | _ => None
  end.

Section WithHost.
Context {H : Host}.

Definition parseNumber (value : JsVal) : option Q :=
  match value with
  | JNum q => Some q
  | JStr s => Number_of_string (trim s)
  | _ => None
  end.

Definition normalizeEpoch (epochMs : Q) : option Z :=
  let rounded := Math_round epochMs in
  if (rounded <? MIN_VALID_EPOCH_MS)%Z then None
  else if (rounded >? Date_now + MAX_FUTURE_DRIFT_MS)%Z then None
  else Some rounded.

(** The three-way test on a finite number, shared by the number and the
    numeric-string branch of [parseEpochMs]. *)
Definition epochOfNumber (value : Q) : option Z :=
  if Qgeb value (inject_Z 1000000000000) then normalizeEpoch value
  else if Qgeb value (inject_Z 1000000000) && Qle_bool value (inject_Z 100000000000)
       then normalizeEpoch (value * inject_Z 1000)
       else normalizeEpoch value.

Definition parseEpochMs (value : JsVal) : option Z :=
  match value with
  | JNum q => epochOfNumber q
  | JStr s =>
      let trimmed := trim s in
      if negb (nonEmpty trimmed) then None
      else match Number_of_string trimmed with
           | Some asNum => epochOfNumber asNum
           | None =>
               match Date_parse trimmed with
               | Some parsed => normalizeEpoch parsed
               | None => None
               end
           end
  | _ => None
  end.

Definition normalizeCameraKey (cameraId : string) : string :=
  toLowerCase (trim cameraId).

Definition toWorldFromNorm (x y : Q) : Q * Q :=
  let worldNorm := mapNormToWorldNorm x y in
  (WORLD_OFFSET_X_M zm + fst worldNorm * WORLD_WIDTH_M zm,
   WORLD_OFFSET_Z_M zm + snd worldNorm * WORLD_DEPTH_M zm).

Definition pointInZoneWalkable (x y : Q) (zone : ZoneGeometry) : bool :=
  if negb (pointInPolygon x y (outer zone)) then false
  else if Qgtb ZONE_EDGE_PADDING_NORM 0 &&
          negb (pointInBounds x y (outerBounds zone) (- ZONE_EDGE_PADDING_NORM))
  then false
  else if existsb (fun hole => pointInPolygon x y hole) (zholes zone) then false
  else negb (existsb (fun bounds => pointInBounds x y bounds HOLE_PADDING_NORM)
                     (holeBounds zone)).

End WithHost.

(** *** [spiralSnap] *)

(** The locals of one ring: [bestDist2] is [None] for
    [Number.POSITIVE_INFINITY]. *)
Record RingState : Type := {
  bestX : Q;
  bestY : Q;
  bestDist2 : option Q;
  found : bool
}.

Definition ringInit : RingState :=
  {| bestX := 0; bestY := 0; bestDist2 := None; found := false |}.

(** [dist2 < bestDist2] *)
Definition closer (dist2 : Q) (best : option Q) : bool :=
  match best with
  | None => true
  | Some b => Qltb dist2 b
  end.

(** [for (let i = lo; i <= hi; i++)] *)
Definition zrange (lo hi : Z) : list Z :=
  map (fun k => (lo + Z.of_nat k)%Z) (seq 0 (Z.to_nat (hi - lo + 1))).

Section SpiralSnap.
Variables (x0 y0 : Q) (isWalkable : Q -> Q -> bool) (step : Q).

(** The closure [test] of the source, on the ring's locals. *)
Definition test (st : RingState) (x y : Q) : RingState :=
  let cx := clampRange x 0 1 in
  let cy := clampRange y 0 1 in
  if negb (isWalkable cx cy) then st
  else
    let dx := cx - x0 in
    let dy := cy - y0 in
    let dist2 := dx * dx + dy * dy in
    if closer dist2 (bestDist2 st)
    then {| bestX := cx; bestY := cy; bestDist2 := Some dist2; found := true |}
    else st.

(** The body of the [for (ring ...)] loop up to the test of [found]. *)
Definition runRing (ring : Z) : RingState :=
  let ringStep := inject_Z ring * step in
  let st1 :=
    fold_left (fun st i =>
                 let x := x0 + inject_Z i * step in
                 test (test st x (y0 - ringStep)) x (y0 + ringStep))
              (zrange (- ring) ring) ringInit in
  fold_left (fun st j =>
               let y := y0 + inject_Z j * step in
               test (test st (x0 - ringStep) y) (x0 + ringStep) y)
            (zrange (- ring + 1) (ring - 1)) st1.

(** [for (let ring = ...; ring <= maxRings; ring++)], with [remaining] rings
    still to visit, [ring] included. *)
Fixpoint ringLoop (remaining : nat) (ring : Z) : option Point :=
  match remaining with
  | O => None
  | S n =>
      let st := runRing ring in
      if found st then Some (bestX st, bestY st) else ringLoop n (ring + 1)%Z
  end.

Definition spiralSnap (maxRings : Z) : option Point :=
  ringLoop (Z.to_nat maxRings) 1%Z.

(** The rings the loop enters, in order: the same loop, recording [ring]
    at each entry. *)
Fixpoint ringsVisited (remaining : nat) (ring : Z) : list Z :=
  match remaining with
  | O => []
  | S n => ring :: (if found (runRing ring) then [] else ringsVisited n (ring + 1)%Z)
  end.

End SpiralSnap.

(** The defaults of [spiralSnap]: [step = 0.003], [maxRings = 60]. *)
Definition SPIRAL_STEP : Q := 0.003.
Definition SPIRAL_MAX_RINGS : Z := 60.

Section WithHost2.
Context {H : Host}.

Definition coordsAt (x y : Q) : NormalizedCoordinates :=
  let world := toWorldFromNorm x y in
  {| c_x := x; c_y := y; c_worldX := Some (fst world); c_worldZ := Some (snd world) |}.

(** The predicate of the unknown-zone branch of [snapCoordinatesToFloor]. *)
Definition walkableAnywhere (x y : Q) : bool :=
  if existsb (fun hole => pointInPolygon x y hole) (ALL_HOLES_NORM zm) then false
  else negb (existsb (fun bounds => pointInBounds x y bounds HOLE_PADDING_NORM)
                     (ALL_HOLE_BOUNDS zm)).

Definition snapCoordinatesToFloor (coordinates : NormalizedCoordinates) (zoneId : string)
  : NormalizedCoordinates :=
  let x0 := clampRange (c_x coordinates) 0 1 in
  let y0 := clampRange (c_y coordinates) 0 1 in
  let kept := {| c_x := x0; c_y := y0;
                 c_worldX := c_worldX coordinates; c_worldZ := c_worldZ coordinates |} in
  match JsMap.get (ZONE_GEOMETRY_BY_ID zm) zoneId with
  | Some zone =>
      if pointInZoneWalkable x0 y0 zone then kept
      else if negb (pointInPolygon x0 y0 (outer zone))
      then coordsAt (fst (zcentroid zone)) (snd (zcentroid zone))
      else match spiralSnap x0 y0 (fun x y => pointInZoneWalkable x y zone)
                            SPIRAL_STEP SPIRAL_MAX_RINGS with
           | Some snapped => coordsAt (fst snapped) (snd snapped)
           | None => coordsAt (fst (zcentroid zone)) (snd (zcentroid zone))
           end
  | None =>
      if walkableAnywhere x0 y0 then kept
      else match spiralSnap x0 y0 walkableAnywhere SPIRAL_STEP SPIRAL_MAX_RINGS with
           | None => kept
           | Some snapped => coordsAt (fst snapped) (snd snapped)
           end
  end.

Definition eventTypeOfString (s : string) : option EventType :=
  if String.eqb s "crowd" then Some T_crowd
  else if String.eqb s "fall" then Some T_fall
  else if String.eqb s "fight" then Some T_fight
  else if String.eqb s "loitering" then Some T_loitering
  else if String.eqb s "unknown" then Some T_unknown
  else None.

Definition normalizeType (value : JsVal) : EventType :=
  match value with
  | JStr s =>
      let normalized := toLowerCase (trim s) in
      match eventTypeOfString normalized with
      | Some t => t
      | None =>
          if arrIncludes ["fall_down"; "slip"; "slipfall"; "trip"] normalized then T_fall
          else if arrIncludes ["violence"; "assault"; "aggressive"; "fight"] normalized then T_fight
          else if arrIncludes ["queue"; "congestion"; "crowding"; "crowd"] normalized then T_crowd
          else if arrIncludes ["loiter"; "idle"; "linger"; "loitering"] normalized then T_loitering
          else T_unknown
      end
  | _ => T_unknown
  end.

Definition severityOfType (type : EventType) : Z :=
  match type with
  | T_fall | T_fight => 3
  | T_crowd => 2
  | _ => 1
  end.

Definition normalizeSeverity (value : JsVal) (type : EventType) : Z :=
  match value with
  | JNum q =>
      if Qeq_bool q 1 then 1%Z
      else if Qeq_bool q 2 then 2%Z
      else if Qeq_bool q 3 then 3%Z
      else if Qgeb q 3 then 3%Z
      else if Qgeb q 2 then 2%Z
      else 1%Z
  | JStr s =>
      let normalized := toLowerCase (trim s) in
      if arrIncludes ["p1"; "l3"; "high"; "critical"; "severe"; "urgent"] normalized then 3%Z
      else if arrIncludes ["p2"; "l2"; "medium"; "med"; "moderate"] normalized then 2%Z
      else if arrIncludes ["p3"; "l1"; "low"; "minor"] normalized then 1%Z
      else match Number_of_string (keepDigitsAndDots normalized) with
           | Some asNum =>
               if Qgeb asNum 1 && Qle_bool asNum 3 then Math_round asNum
               else severityOfType type
           | None => severityOfType type
           end
  | _ => severityOfType type
  end.

Definition incidentStatusOfString (s : string) : option IncidentStatus :=
  if String.eqb s "new" then Some I_new
  else if String.eqb s "ack" then Some I_ack
  else if String.eqb s "resolved" then Some I_resolved
  else None.

Definition normalizeIncidentStatus (value : JsVal) : IncidentStatus :=
  match value with
  | JStr s =>
      let normalized := toLowerCase (trim s) in
      match incidentStatusOfString normalized with
      | Some st => st
      | None =>
          if arrIncludes ["open"; "opened"; "detected"; "created"; "new_alert"] normalized
          then I_new
          else if arrIncludes ["acknowledged"; "acknowledge"; "in_progress"; "processing";
                               "dispatched"] normalized
          then I_ack
          else if arrIncludes ["closed"; "done"; "resolved_done"; "complete"; "completed"]
                              normalized
          then I_resolved
          else I_new
      end
  | _ => I_new
  end.

Definition eventSourceOfString (s : string) : option EventSource :=
  if String.eqb s "demo" then Some S_demo
  else if String.eqb s "camera" then Some S_camera
  else if String.eqb s "api" then Some S_api
  else if String.eqb s "unknown" then Some S_unknown
  else None.

Definition normalizeSource (value : JsVal) (fallback : EventSource) : EventSource :=
  match value with
  | JStr s =>
      let normalized := toLowerCase (trim s) in
      match eventSourceOfString normalized with
      | Some src => src
      | None =>
          if includes normalized "camera" then S_camera
          else if includes normalized "demo" then S_demo
          else if nonEmpty normalized then S_api
          else fallback
      end
  | _ => fallback
  end.

Definition normalizeCoordinate (value : JsVal) : option Q :=
  match parseNumber value with
  | None => None
  | Some parsed =>
      if Qgeb parsed 0 && Qle_bool parsed 1 then Some parsed
      else if Qgeb parsed 0 && Qle_bool parsed 100 then Some (clampRange (parsed / 100) 0 1)
      else None
  end.

(** [value] is finite here: it is computed from [parseNumber] results. *)
Definition normalizeCoordinateWithFrame (value frameSize : Q) : option Q :=
  if Qgeb value 0 && Qle_bool value 1 then Some value
  else if Qgeb value 0 && Qle_bool value 100 then Some (clampRange (value / 100) 0 1)
  else if Qgtb frameSize 0 then Some (clampRange (value / frameSize) 0 1)
  else None.

Definition mkBBox (a b c d : Q) : NormalizedBBox :=
  {| x1 := Qmin a c; y1 := Qmin b d; x2 := Qmax a c; y2 := Qmax b d |}.

Definition parseBBoxRecord (record : JsVal) : option NormalizedBBox :=
  let px1 := parseNumber (pickValue record ["x1"; "left"; "xmin"; "x_min"]) in
  let py1 := parseNumber (pickValue record ["y1"; "top"; "ymin"; "y_min"]) in
  let px2 := parseNumber (pickValue record ["x2"; "right"; "xmax"; "x_max"]) in
  let py2 := parseNumber (pickValue record ["y2"; "bottom"; "ymax"; "y_max"]) in
  match px1, py1, px2, py2 with
  | Some a, Some b, Some c, Some d => Some (mkBBox a b c d)
  | _, _, _, _ =>
      let px := parseNumber (pickValue record ["x"; "left"]) in
      let py := parseNumber (pickValue record ["y"; "top"]) in
      let pw := parseNumber (pickValue record ["w"; "width"]) in
      let ph := parseNumber (pickValue record ["h"; "height"]) in
      match px, py, pw, ph with
      | Some x, Some y, Some w, Some h =>
          Some (mkBBox x y (x + Qmax 0 w) (y + Qmax 0 h))
      | _, _, _, _ => None
      end
  end.

Definition parseBBox (value : JsVal) : option NormalizedBBox :=
  match value with
  | JArr (v0 :: v1 :: v2 :: v3 :: _) =>
      match parseNumber v0, parseNumber v1, parseNumber v2, parseNumber v3 with
      | Some a, Some b, Some c, Some d => Some (mkBBox a b c d)
      | _, _, _, _ => None
      end
  | _ =>
      match asRecord value with
      | None => None
      | Some record => parseBBoxRecord record
      end
  end.

Definition positiveFrame (w h : option Q) : option (Q * Q) :=
  match w, h with
  | Some fw, Some fh => if Qgtb fw 0 && Qgtb fh 0 then Some (fw, fh) else None
  | _, _ => None
  end.

Definition mapBBoxWithCameraCalibration (cameraId : option string) (centerX centerY : Q)
    (frameWidthRaw frameHeightRaw : option Q) : option NormalizedCoordinates :=
  match cameraId with
  | None => None
  | Some cam =>
      match JsMap.get CAMERA_HOMOGRAPHY (normalizeCameraKey cam) with
      | None => None
      | Some matrix =>
          let cameraFrame := JsMap.get CAMERA_FRAME (normalizeCameraKey cam) in
          let inputFrame := positiveFrame frameWidthRaw frameHeightRaw in
          let isNormalizedInput :=
            Qgeb centerX 0 && Qle_bool centerX 1 && Qgeb centerY 0 && Qle_bool centerY 1 in
          let xy :=
            match cameraFrame with
            | Some cf =>
                if isNormalizedInput
                then (centerX * frame_width cf, centerY * frame_height cf)
                else match inputFrame with
                     | Some (fw, fh) =>
                         ((centerX / fw) * frame_width cf, (centerY / fh) * frame_height cf)
                     | None => (centerX, centerY)
                     end
            | None =>
                match inputFrame with
                | Some (fw, fh) =>
                    if isNormalizedInput then (centerX * fw, centerY * fh)
                    else (centerX, centerY)
                | None => (centerX, centerY)
                end
            end in
          match applyHomography matrix (fst xy) (snd xy) with
          | None => None
          | Some mapped =>
              Some {| c_x := clampRange (fst mapped) 0 1; c_y := clampRange (snd mapped) 0 1;
                      c_worldX := None; c_worldZ := None |}
          end
      end
  end.

Definition BBOX_PATHS : list string :=
  ["location.bbox"; "location.bounding_box"; "location.box"; "bbox"; "bounding_box"; "box";
   "position.bbox"; "detection.bbox"].
Definition FRAME_WIDTH_PATHS : list string :=
  ["frame.width"; "frameWidth"; "image.width"; "imageWidth"; "resolution.width";
   "data.frame.width"; "payload.frame.width"; "camera.frame_width"; "location.frame.width";
   "location.frame_width"; "meta.frame_width"; "meta.width"].
Definition FRAME_HEIGHT_PATHS : list string :=
  ["frame.height"; "frameHeight"; "image.height"; "imageHeight"; "resolution.height";
   "data.frame.height"; "payload.frame.height"; "camera.frame_height"; "location.frame.height";
   "location.frame_height"; "meta.frame_height"; "meta.height"].

Definition frameOrMap (raw : option Q) (mapSize : Q) : Q :=
  match raw with
  | Some v => if Qgtb v 0 then v else mapSize
  | None => mapSize
  end.

Definition extractBBoxCoordinates (record : JsVal) (cameraId : option string)
    (allowFrameNormalization : bool) : option NormalizedCoordinates :=
  match parseBBox (pickValue record BBOX_PATHS) with
  | None => None
  | Some bbox =>
      let frameWidthRaw := parseNumber (pickValue record FRAME_WIDTH_PATHS) in
      let frameHeightRaw := parseNumber (pickValue record FRAME_HEIGHT_PATHS) in
      let frameWidth := frameOrMap frameWidthRaw (mapW zm) in
      let frameHeight := frameOrMap frameHeightRaw (mapH zm) in
      let centerX := (x1 bbox + x2 bbox) / 2 in
      let centerY := y2 bbox in
      match mapBBoxWithCameraCalibration cameraId centerX centerY
                                         frameWidthRaw frameHeightRaw with
      | Some calibrated => Some calibrated
      | None =>
          if negb allowFrameNormalization then None
          else match normalizeCoordinateWithFrame centerX frameWidth,
                     normalizeCoordinateWithFrame centerY frameHeight with
               | Some x, Some y =>
                   Some {| c_x := x; c_y := y; c_worldX := None; c_worldZ := None |}
               | _, _ => None
               end
      end
  end.

Definition WORLD_X_PATHS : list string :=
  ["world.x"; "worldX"; "world_x"; "position.world.x"; "position_world.x";
   "location.world.x"; "location.world_x"; "location.x_m"; "x_m"].
Definition WORLD_Z_PATHS : list string :=
  ["world.z"; "worldZ"; "world_z"; "position.world.z"; "position_world.z";
   "location.world.z"; "location.world_z"; "location.z_m"; "z_m"].

Definition extractWorldCoordinates (record : JsVal) : option NormalizedCoordinates :=
  match parseNumber (pickValue record WORLD_X_PATHS),
        parseNumber (pickValue record WORLD_Z_PATHS) with
  | Some worldX, Some worldZ =>
      let looksNormalizedWorld :=
        Qgeb worldX 0 && Qle_bool worldX 1 && Qgeb worldZ 0 && Qle_bool worldZ 1 in
      if looksNormalizedWorld then
        let worldNormX := clampRange worldX 0 1 in
        let worldNormY := clampRange worldZ 0 1 in
        let mapped := worldNormToMapNorm worldNormX worldNormY in
        Some {| c_x := fst mapped; c_y := snd mapped;
                c_worldX := Some (WORLD_OFFSET_X_M zm + worldNormX * WORLD_WIDTH_M zm);
                c_worldZ := Some (WORLD_OFFSET_Z_M zm + worldNormY * WORLD_DEPTH_M zm) |}
      else
        let worldNormX := clampRange ((worldX - WORLD_OFFSET_X_M zm) / WORLD_WIDTH_M zm) 0 1 in
        let worldNormY := clampRange ((worldZ - WORLD_OFFSET_Z_M zm) / WORLD_DEPTH_M zm) 0 1 in
        let mapped := worldNormToMapNorm worldNormX worldNormY in
        Some {| c_x := fst mapped; c_y := snd mapped;
                c_worldX := Some worldX; c_worldZ := Some worldZ |}
  | _, _ => None
  end.

Definition normalizeConfidence (value : JsVal) (severity : Z) : Q :=
  match parseNumber value with
  | Some parsed =>
      if Qgtb parsed 1 && Qle_bool parsed 100 then clampRange (parsed / 100) 0 1
      else clampRange parsed 0 1
  | None =>
      if (severity =? 3)%Z then 0.92
      else if (severity =? 2)%Z then 0.84
      else 0.78
  end.

Definition resolveEventType (record : JsVal) : EventType :=
  match normalizeType (pickValue record
          ["type"; "event_type"; "eventType"; "category"; "event_name"; "label"]) with
  | T_unknown =>
      normalizeType (pickValue record ["status"; "state"; "event_status"; "eventState"])
  | primary => primary
  end.

(** [chunks.join(" | ")] *)
Fixpoint joinBar (chunks : list string) : string :=
  match chunks with
  | [] => EmptyString
  | [c] => c
  | c :: rest => String.append c (String.append " | " (joinBar rest))
  end.

Definition extractNote (record : JsVal) : option string :=
  let direct := parseText (pickValue record
        ["note"; "message"; "description"; "reason"; "summary"; "vlm_analysis.summary"]) in
  let cause := parseText (pickValue record ["vlm_analysis.cause"; "analysis.cause"]) in
  let action := parseText (pickValue record
        ["vlm_analysis.action"; "analysis.action"; "action"; "recommended_action"]) in
  let detailChunks :=
    List.app (match cause with Some c => [String.append "cause:" c] | None => [] end)
             (match action with Some a => [String.append "action:" a] | None => [] end) in
  match direct, detailChunks with
  | Some d, [] => Some d
  | Some d, _ => Some (joinBar (d :: detailChunks))
  | None, [] => None
  | None, _ => Some (joinBar detailChunks)
  end.

Definition X_PATHS : list string :=
  ["x"; "x_norm"; "xNorm"; "position.x"; "position.x_norm"; "position.xNorm"; "location.x";
   "location.x_norm"; "location.xNorm"; "coord.x"; "coordinates.x"; "point.x"; "geo.x"].
Definition Y_PATHS : list string :=
  ["y"; "y_norm"; "yNorm"; "position.y"; "position.y_norm"; "position.yNorm"; "location.y";
   "location.y_norm"; "location.yNorm"; "coord.y"; "coordinates.y"; "point.y"; "geo.y"].
Definition PAIR_PATHS : list string :=
  ["position"; "location"; "coord"; "coordinates"; "point"].
Definition ZONE_ID_PATHS : list string :=
  ["zone_id"; "zoneId"; "zone.id"; "zone.zone_id"; "location.zone_id"; "location.zoneId";
   "area_id"; "areaId"].

Definition plainCoords (x y : Q) : NormalizedCoordinates :=
  {| c_x := x; c_y := y; c_worldX := None; c_worldZ := None |}.

(** Steps 5 and 6 of the cascade: the two-element pair, then the centroid of
    the named zone. *)
Definition zoneCentroidCoordinates (record : JsVal) : option NormalizedCoordinates :=
  match parseId (pickValue record ZONE_ID_PATHS) with
  | Some zoneId =>
      match JsMap.get (ZONE_CENTROIDS zm) zoneId with
      | Some centroid => Some (plainCoords (fst centroid) (snd centroid))
      | None => None
      end
  | None => None
  end.

Definition pairCoordinates (record : JsVal) : option NormalizedCoordinates :=
  match pickValue record PAIR_PATHS with
  | JArr (p0 :: p1 :: _) =>
      match normalizeCoordinate p0, normalizeCoordinate p1 with
      | Some px, Some py => Some (plainCoords px py)
      | _, _ => None
      end
  | _ => None
  end.

Definition extractCoordinates (record : JsVal) (cameraId : option string)
  : option NormalizedCoordinates :=
  match normalizeCoordinate (pickValue record X_PATHS),
        normalizeCoordinate (pickValue record Y_PATHS) with
  | Some x, Some y => Some (plainCoords x y)
  | _, _ =>
      match extractWorldCoordinates record with
      | Some worldCoordinates => Some worldCoordinates
      | None =>
          match extractBBoxCoordinates record cameraId false with
          | Some calibratedBBox => Some calibratedBBox
          | None =>
              match extractBBoxCoordinates record cameraId true with
              | Some frameNormalizedBBox => Some frameNormalizedBBox
              | None =>
                  match pairCoordinates record with
                  | Some pairCandidate => Some pairCandidate
                  | None => zoneCentroidCoordinates record
                  end
              end
          end
      end
  end.

Definition dist2 (ax ay bx b_y : Q) : Q :=
  (ax - bx) * (ax - bx) + (ay - b_y) * (ay - b_y).

(** The [for ... of ZONE_CENTROIDS.entries()] loop of [resolveZoneId]. *)
Definition nearestZone (x y : Q) (start : string) : string :=
  fst (fold_left
         (fun (acc : string * option Q) (entry : string * Point) =>
            let distance := dist2 x y (fst (snd entry)) (snd (snd entry)) in
            if closer distance (snd acc) then (fst entry, Some distance) else acc)
         (ZONE_CENTROIDS zm) (start, None)).

Definition resolveZoneId (record : JsVal) (coordinates : NormalizedCoordinates) : string :=
  let explicitZoneId := parseId (pickValue record ZONE_ID_PATHS) in
  let byGeometry :=
    match find (fun zone => pointInPolygon (c_x coordinates) (c_y coordinates) (outer zone))
               (ZONE_GEOMETRIES zm) with
    | Some hitOuter => zoneId hitOuter
    | None =>
        nearestZone (c_x coordinates) (c_y coordinates)
          (match zones zm with
           | zone :: _ => zone_id zone
           | [] => "zone-s001-center"
           end)
    end in
  match explicitZoneId with
  | Some z =>
      if arrIncludes (ZONE_IDS zm) z then z
      else if negb (arrIncludes GENERIC_ZONE_IDS (toLowerCase z)) then z
      else byGeometry
  | None => byGeometry
  end.

Definition CAMERA_ID_PATHS : list string :=
  ["camera_id"; "cameraId"; "camera.id"; "device_id"; "deviceId"; "device.id"].
Definition TRACK_ID_PATHS : list string :=
  ["track_id"; "trackId"; "tracking_id"; "trackingId"; "object_id"; "objectId"].
Definition ID_PATHS : list string :=
  ["id"; "event_id"; "eventId"; "uuid"; "alarm_id"; "alarmId"; "alert_id"; "alertId"].
Definition DETECTED_AT_PATHS : list string :=
  ["detected_at"; "detectedAt"; "ts"; "timestamp"; "created_at"; "createdAt"; "time"].
Definition INGESTED_AT_PATHS : list string :=
  ["ingested_at"; "ingestedAt"; "received_at"; "receivedAt"; "updated_at"; "updatedAt"].

(** [explicitId ?? (trackId ? `${cameraId ?? "cam-unknown"}:track-${trackId}` : null)] *)
Definition resolveId (explicitId cameraId trackId : option string) : option string :=
  match explicitId with
  | Some i => Some i
  | None =>
      match trackId with
      | Some t =>
          Some (String.append (match cameraId with Some c => c | None => "cam-unknown" end)
                              (String.append ":track-" t))
      | None => None
      end
  end.

Definition stringOnly (v : JsVal) : option string :=
  match v with JStr s => Some s | _ => None end.

Definition orElse {A : Type} (a : option A) (b : A) : A :=
  match a with Some v => v | None => b end.

Definition adaptRawEvent (value : JsVal) (options : NormalizeOptions) : option EventItem :=
  match asRecord value with
  | None => None
  | Some record =>
      let cameraId := parseId (pickValue record CAMERA_ID_PATHS) in
      let trackId := parseId (pickValue record TRACK_ID_PATHS) in
      let explicitId := parseId (pickValue record ID_PATHS) in
      match resolveId explicitId cameraId trackId with
      | None => None
      | Some id =>
          match parseEpochMs (pickValue record DETECTED_AT_PATHS) with
          | None => None
          | Some detectedAt =>
              let ingestedAtRaw := parseEpochMs (pickValue record INGESTED_AT_PATHS) in
              let ingestedAt := orElse ingestedAtRaw detectedAt in
              let latencyRaw := parseNumber (pickValue record
                    ["latency_ms"; "latencyMs"; "latency"; "delay_ms"]) in
              let latencyMs :=
                match latencyRaw with
                | Some l => Z.max 0 (Math_round l)
                | None => Z.max 0 (ingestedAt - detectedAt)
                end in
              let statusRaw := pickValue record
                    ["status"; "state"; "event_status"; "result.status"; "payload.status"] in
              let objectLabelRaw := pickValue record
                    ["label"; "object.label"; "class"; "class_name"; "object.class";
                     "event_label"] in
              let type := resolveEventType record in
              let severity := normalizeSeverity (pickValue record
                    ["severity"; "priority"; "level"; "risk"; "risk_level"; "riskLevel";
                     "status"; "state"]) type in
              let confidence := normalizeConfidence (pickValue record
                    ["confidence"; "score"; "probability"; "confidence_score";
                     "confidenceScore"]) severity in
              match extractCoordinates record cameraId with
              | None => None
              | Some coordinates =>
                  let zoneId := resolveZoneId record coordinates in
                  let snapped := snapCoordinatesToFloor coordinates zoneId in
                  let storeIdRaw := parseId (pickValue record
                        ["store_id"; "storeId"; "store.id"; "site_id"; "siteId"; "shop_id";
                         "shopId"]) in
                  Some {|
                    e_id := id;
                    e_store_id := orElse storeIdRaw (orElse (fallbackStoreId options) "s001");
                    e_detected_at := detectedAt;
                    e_ingested_at := ingestedAt;
                    e_latency_ms := latencyMs;
                    e_type := type;
                    e_severity := severity;
                    e_confidence := confidence;
                    e_zone_id := zoneId;
                    e_camera_id := cameraId;
                    e_track_id := trackId;
                    e_object_label := stringOnly objectLabelRaw;
                    e_raw_status := stringOnly statusRaw;
                    e_source := normalizeSource (pickValue record
                        ["source"; "provider"; "channel"; "origin"; "ingest_source"])
                        (orElse (defaultSource options) S_unknown);
                    e_model_version := parseId (pickValue record
                        ["model_version"; "modelVersion"; "model.version"]);
                    e_incident_status := normalizeIncidentStatus (pickValue record
                        ["incident_status"; "incidentStatus"; "status"; "state"; "resolution";
                         "result.status"]);
                    e_x := c_x snapped;
                    e_y := c_y snapped;
                    e_world_x_m := c_worldX snapped;
                    e_world_z_m := c_worldZ snapped;
                    e_note := extractNote record
                  |}
              end
          end
      end
  end.

(** *** [normalizeEventFeed] *)

(** [Math.max(1, Math.min(1000, Number(options.maxEvents) || 1))] *)
Definition safeMaxEvents (options : NormalizeOptions) : Q :=
  let n := match maxEvents options with
           | Some v => if Qeq_bool v 0 then 1 else v
           | None => 1
           end in
  Qmax 1 (Qmin 1000 n).

(** The [for (const event of normalized)] loop body on [dedupedById]. *)
Definition dedupeStep (dedupedById : JsMap.t (V := EventItem)) (event : EventItem)
  : JsMap.t (V := EventItem) :=
  match JsMap.get dedupedById (e_id event) with
  | None => JsMap.set dedupedById (e_id event) event
  | Some existing =>
      if (e_detected_at event >? e_detected_at existing)%Z
      then JsMap.set dedupedById (e_id event) event
      else if (e_detected_at event =? e_detected_at existing)%Z &&
              (e_ingested_at event >? e_ingested_at existing)%Z
      then JsMap.set dedupedById (e_id event) event
      else dedupedById
  end.

(** The comparator handed to [sort], here and in the sync page. *)
Definition compareEvents (a b : EventItem) : Z :=
  if negb (e_detected_at b =? e_detected_at a)%Z
  then (e_detected_at b - e_detected_at a)%Z
  else if negb (e_ingested_at b =? e_ingested_at a)%Z
  then (e_ingested_at b - e_ingested_at a)%Z
  else localeCompare (e_id a) (e_id b).

(** [Array.prototype.sort(compare)], which is stable: insertion from the
    right, an element going before the first one it does not come after. *)
Fixpoint sortInsert {A : Type} (compare : A -> A -> Z) (a : A) (l : list A) : list A :=
  match l with
  | [] => [a]
  | b :: rest =>
      if (compare a b <=? 0)%Z then a :: b :: rest
      else b :: sortInsert compare a rest
  end.

Definition jsSort {A : Type} (compare : A -> A -> Z) (l : list A) : list A :=
  fold_right (sortInsert compare) [] l.

(** [array.slice(0, n)] for [n >= 0]; a fractional [n] is truncated. *)
Definition sliceTo {A : Type} (n : Q) (l : list A) : list A :=
  firstn (Z.to_nat (Qfloor n)) l.

Fixpoint filterMap {A B : Type} (f : A -> option B) (l : list A) : list B :=
  match l with
  | [] => []
  | a :: rest =>
      match f a with
      | Some b => b :: filterMap f rest
      | None => filterMap f rest
      end
  end.

Definition normalizeEventFeed (raw : JsVal) (options : NormalizeOptions) : list EventItem :=
  match raw with
  | JArr items =>
      let normalized := filterMap (fun item => adaptRawEvent item options) items in
      let dedupedById := fold_left dedupeStep normalized [] in
      sliceTo (safeMaxEvents options) (jsSort compareEvents (JsMap.values dedupedById))
  | _ => []
  end.

End WithHost2.
(** *** An event as the value that [adaptRawEvent] returns *)

Definition eventTypeName (t : EventType) : string :=
  match t with
  | T_crowd => "crowd" | T_fall => "fall" | T_fight => "fight"
  | T_loitering => "loitering" | T_unknown => "unknown"
  end.

Definition incidentStatusName (st : IncidentStatus) : string :=
  match st with I_new => "new" | I_ack => "ack" | I_resolved => "resolved" end.

Definition eventSourceName (src : EventSource) : string :=
  match src with
  | S_demo => "demo" | S_camera => "camera" | S_api => "api" | S_unknown => "unknown"
  end.

(** [value ?? undefined] for an optional string or number. *)
Definition optStr (o : option string) : JsVal :=
  match o with Some s => JStr s | None => JUndefined end.
Definition optNum (o : option Q) : JsVal :=
  match o with Some q => JNum q | None => JUndefined end.

(** The object literal at the end of [adaptRawEvent], key by key. *)
Definition eventObject (vId vStore vDetected vIngested vLatency vType vSeverity vConfidence
    vZone vCamera vTrack vLabel vRawStatus vSource vModel vIncident vX vY vWorldX vWorldZ
    vNote : JsVal) : JsVal :=
  JObj [("id", vId); ("store_id", vStore); ("detected_at", vDetected);
        ("ingested_at", vIngested); ("latency_ms", vLatency); ("type", vType);
        ("severity", vSeverity); ("confidence", vConfidence); ("zone_id", vZone);
        ("camera_id", vCamera); ("track_id", vTrack); ("object_label", vLabel);
        ("raw_status", vRawStatus); ("source", vSource); ("model_version", vModel);
        ("incident_status", vIncident); ("x", vX); ("y", vY); ("world_x_m", vWorldX);
        ("world_z_m", vWorldZ); ("note", vNote)].

(** The event as a JavaScript value, as it is when an [EventItem] is handed
    back to [adaptRawEvent]. *)
Definition toJs (e : EventItem) : JsVal :=
  eventObject (JStr (e_id e)) (JStr (e_store_id e))
    (JNum (inject_Z (e_detected_at e))) (JNum (inject_Z (e_ingested_at e)))
    (JNum (inject_Z (e_latency_ms e))) (JStr (eventTypeName (e_type e)))
    (JNum (inject_Z (e_severity e))) (JNum (e_confidence e)) (JStr (e_zone_id e))
    (optStr (e_camera_id e)) (optStr (e_track_id e)) (optStr (e_object_label e))
    (optStr (e_raw_status e)) (JStr (eventSourceName (e_source e)))
    (optStr (e_model_version e)) (JStr (incidentStatusName (e_incident_status e)))
    (JNum (e_x e)) (JNum (e_y e)) (optNum (e_world_x_m e)) (optNum (e_world_z_m e))
    (optStr (e_note e)).

End Adapter.
Export Adapter.

(** ** The sync page: merging normalized events into the canonical set *)
Module Sync.

Definition MAX_EVENTS : Q := 600.

Inductive IncomingSyncMode : Type := merge | replace.

Record IncomingSyncBatch : Type := {
  mode : IncomingSyncMode;
  upsert : list EventItem;
  removeIds : list string
}.

(** [{ ...prev, ...event }].  Every event of the page is the object literal
    that [adaptRawEvent] returns (or a spread of it), which lists all its keys,
    the optional ones too when their value is [undefined]: each key of [event]
    overrides the one of [prev]. *)
Definition spreadEvent (prev event : EventItem) : EventItem :=
  {| e_id := e_id event;
     e_store_id := e_store_id event;
     e_detected_at := e_detected_at event;
     e_ingested_at := e_ingested_at event;
     e_latency_ms := e_latency_ms event;
     e_type := e_type event;
     e_severity := e_severity event;
     e_confidence := e_confidence event;
     e_zone_id := e_zone_id event;
     e_camera_id := e_camera_id event;
     e_track_id := e_track_id event;
     e_object_label := e_object_label event;
     e_raw_status := e_raw_status event;
     e_source := e_source event;
     e_model_version := e_model_version event;
     e_incident_status := e_incident_status event;
     e_x := e_x event;
     e_y := e_y event;
     e_world_x_m := e_world_x_m event;
     e_world_z_m := e_world_z_m event;
     e_note := e_note event |}.

(** The [for (const event of incoming)] loop body of [mergeEvents]. *)
Definition mergeStep (m : JsMap.t (V := EventItem)) (event : EventItem)
  : JsMap.t (V := EventItem) :=
  JsMap.set m (e_id event)
    (match JsMap.get m (e_id event) with
     | Some prev => spreadEvent prev event
     | None => event
     end).

(** The map of [mergeEvents] when its loop ends. *)
Definition mergedMap (existing incoming : list EventItem) : JsMap.t (V := EventItem) :=
  fold_left mergeStep incoming (JsMap.ofEntries (map (fun event => (e_id event, event)) existing)).

Section WithHost.
Context {H : Host}.

Definition mergeEvents (existing incoming : list EventItem) : list EventItem :=
  sliceTo MAX_EVENTS (jsSort compareEvents (JsMap.values (mergedMap existing incoming))).

Definition applyIncomingSyncBatch (existing : list EventItem) (incoming : IncomingSyncBatch)
  : list EventItem :=
  let next :=
    match mode incoming with
    | replace => upsert incoming
    | merge => mergeEvents existing (upsert incoming)
    end in
  let next :=
    match removeIds incoming with
    | [] => next
    | _ => filter (fun event => negb (arrIncludes (removeIds incoming) (e_id event))) next
    end in
  sliceTo MAX_EVENTS (jsSort compareEvents next).

End WithHost.
End Sync.

(** ** [components/MapView.tsx]: point projection and the robot tick *)
Module MapView.

Definition ROBOT_STUCK_TICKS : Z := 18.
Definition EVENT_REACTION_DISTANCE_NORM : Q := 0.22.
Definition RESPONSE_SPEED_MIN : Q := 0.03.
Definition ROBOT_CLEARANCE : Q := 0.007.
Definition ROBOT_HOLE_PADDING_NORM : Q := 0.014.
Definition MARKER_HOLE_PADDING_NORM : Q := 0.03.
Definition ROBOT_ZONE_EDGE_PADDING_NORM : Q := 0.004.
Definition MARKER_ZONE_EDGE_PADDING_NORM : Q := 0.016.
Definition ZONE_SAMPLE_STEPS : Z := 24.
Definition STEER_ANGLES_RAD : list Q :=
  [0; 0.32; -0.32; 0.64; -0.64; 0.96; -0.96; 1.26; -1.26].
Definition CLEARANCE_PROBES : list (Q * Q) :=
  [(0, 0);
   (ROBOT_CLEARANCE, 0);
   (- ROBOT_CLEARANCE, 0);
   (0, ROBOT_CLEARANCE);
   (0, - ROBOT_CLEARANCE);
   (ROBOT_CLEARANCE * 0.72, ROBOT_CLEARANCE * 0.72);
   (ROBOT_CLEARANCE * 0.72, - ROBOT_CLEARANCE * 0.72);
   (- ROBOT_CLEARANCE * 0.72, ROBOT_CLEARANCE * 0.72);
   (- ROBOT_CLEARANCE * 0.72, - ROBOT_CLEARANCE * 0.72)].

Inductive RobotMode : Type := patrol | responding.

Record RobotState : Type := {
  r_id : string;
  r_label : string;
  r_zoneId : string;
  r_x : Q;
  r_y : Q;
  r_targetX : Q;
  r_targetY : Q;
  r_headingRad : Q;
  r_speed : Q;
  r_baseSpeed : Q;
  r_mode : RobotMode;
  r_assignedEventId : option string;
  r_stuckTicks : Z
}.

Record ZoneSurface : Type := {
  s_id : string;
  s_polygon : list Point;
  s_holes : list (list Point);
  s_centroid : Point;
  s_bounds : Bounds;
  s_holeBounds : list Bounds
}.

(** An element of [reactiveEvents]: [Pick<EventItem, "id" | "zone_id" |
    "severity" | "x" | "y">]. *)
Record ReactiveEvent : Type := {
  v_id : string;
  v_zone_id : string;
  v_severity : Z;
  v_x : Q;
  v_y : Q
}.

(** What the component takes from outside: [lib/geo.ts], [Math], and the
    memoised zone tables. *)
Class View : Type := {
  (** [pointInPolygon] of [lib/geo.ts] *)
  inPolygon : Q -> Q -> list Point -> bool;
  (** [isLive(detected_at, liveWindowMsRef.current)] of [lib/geo.ts] *)
  isLive : Z -> bool;
  Math_cos : Q -> Q;
  Math_sin : Q -> Q;
  Math_atan2 : Q -> Q -> Q;
  Math_hypot : Q -> Q -> Q;
  (** the memo [zones] and [zm.zones] *)
  surfaces : list ZoneSurface;
  zm_zones : list Zone
}.

(** The random draws of one robot in one tick, one per call site:
    [pickOne(zm.zones)], [Math.random()] and [samplePointInZoneNorm(zone, zm)]. *)
Record Draws : Type := {
  d_pickCurrent : Zone;
  d_pickNext : Zone;
  d_randomZone : Q;
  d_randomDetour : Q;
  d_samplePatrol : Zone -> Point;
  d_sampleNext : Zone -> Point;
  d_sampleFallback : Zone -> Point;
  d_sampleRescue : Zone -> Point
}.

Section WithView.
Context {V : View}.

Definition zoneById : JsMap.t (V := ZoneSurface) :=
  JsMap.ofEntries (map (fun zone => (s_id zone, zone)) surfaces).
Definition holePolygons : list (list Point) := flat_map s_holes surfaces.
Definition allHoleBounds : list Bounds := flat_map s_holeBounds surfaces.

Definition pointInHoleOrBufferedBounds (x y : Q) (holes : list (list Point))
    (holeBounds : list Bounds) (holePadding : Q) : bool :=
  if existsb (fun hole => inPolygon x y hole) holes then true
  else existsb (fun bounds => pointInBounds x y bounds holePadding) holeBounds.

(** The locals [bestX], [bestY], [bestDist2] of [projectPointToWalkable];
    [None] is [Number.POSITIVE_INFINITY]. *)
Definition Best : Type := (Q * Q * option Q)%type.

(** The closure [tryCandidate]. *)
Definition tryCandidate (x y : Q) (zone : ZoneSurface) (holePadding zoneEdgePadding : Q)
    (best : Best) (candidate : Point) : Best :=
  let nx := clamp01 (fst candidate) in
  let ny := clamp01 (snd candidate) in
  if negb (inPolygon nx ny (s_polygon zone)) then best
  else if pointInHoleOrBufferedBounds nx ny (s_holes zone) (s_holeBounds zone) holePadding
  then best
  else if Qgtb zoneEdgePadding 0 &&
          negb (pointInBounds nx ny (s_bounds zone) (- zoneEdgePadding))
  then best
  else
    let dx := nx - x in
    let dy := ny - y in
    let d2 := dx * dx + dy * dy in
    if closer d2 (snd best) then (nx, ny, Some d2) else best.

(** [for (let i = 0; i < ZONE_SAMPLE_STEPS; i++)] *)
Definition sampleIndices : list Z := zrange 0 (ZONE_SAMPLE_STEPS - 1).

(** The grid of the two nested loops, rows ([yi]) outermost.  The bounds of
    an empty polygon are infinite and every sample is [NaN], which no
    polygon contains: no sample is listed. *)
Definition gridSamples (bounds : Bounds) : list Point :=
  match bounds with
  | EmptyBounds => []
  | Box minX maxX minY maxY =>
      flat_map (fun yi =>
        let py := minY + ((inject_Z yi + 0.5) / inject_Z ZONE_SAMPLE_STEPS) * (maxY - minY) in
        map (fun xi =>
               let px := minX + ((inject_Z xi + 0.5) / inject_Z ZONE_SAMPLE_STEPS)
                                * (maxX - minX) in
               (px, py))
            sampleIndices)
        sampleIndices
  end.

(** The search of one call: the centroid, then the grid. *)
Definition searchBest (x y : Q) (zone : ZoneSurface) (holePadding zoneEdgePadding : Q) : Best :=
  fold_left (tryCandidate x y zone holePadding zoneEdgePadding)
            (s_centroid zone :: gridSamples (s_bounds zone))
            (fst (s_centroid zone), snd (s_centroid zone), None).

(** The test before the search: the clamped point is kept when it is already
    walkable. *)
Definition alreadyWalkable (x y : Q) (zone : ZoneSurface) (holePadding zoneEdgePadding : Q)
  : bool :=
  let inZone := inPolygon x y (s_polygon zone) in
  let blocked := pointInHoleOrBufferedBounds x y (s_holes zone) (s_holeBounds zone) holePadding in
  let hasEdgeMargin :=
    Qle_bool zoneEdgePadding 0 || pointInBounds x y (s_bounds zone) (- zoneEdgePadding) in
  inZone && negb blocked && hasEdgeMargin.

(** [projectPointToWalkable], which calls itself once more at most, with
    [zoneEdgePadding = 0]; [retries] bounds the nesting of calls. *)
Fixpoint projectLoop (retries : nat) (x0 y0 : Q) (zone : ZoneSurface)
    (holePadding zoneEdgePadding : Q) : Point :=
  let x := clamp01 x0 in
  let y := clamp01 y0 in
  if alreadyWalkable x y zone holePadding zoneEdgePadding then (x, y)
  else
    let best := searchBest x y zone holePadding zoneEdgePadding in
    match snd best, retries with
    | None, S n =>
        if Qgtb zoneEdgePadding 0 then projectLoop n x y zone holePadding 0
        else (fst (fst best), snd (fst best))
    | _, _ => (fst (fst best), snd (fst best))
    end.

Definition projectPointToWalkable : Q -> Q -> ZoneSurface -> Q -> Q -> Point :=
  projectLoop 1.

Definition projectToWalkableTarget (x y : Q) (zoneId : string) : Point :=
  match JsMap.get zoneById zoneId with
  | None => (clamp01 x, clamp01 y)
  | Some zone =>
      projectPointToWalkable x y zone ROBOT_HOLE_PADDING_NORM ROBOT_ZONE_EDGE_PADDING_NORM
  end.

Definition findClosestReactiveEvent (robot : RobotState) (events : list ReactiveEvent)
  : option ReactiveEvent :=
  fst (fold_left
         (fun (acc : option ReactiveEvent * option Q) event =>
            let dx := v_x event - r_x robot in
            let dy := v_y event - r_y robot in
            let distance := Math_hypot dx dy in
            if Qgtb distance EVENT_REACTION_DISTANCE_NORM then acc
            else
              let score := distance - inject_Z (v_severity event) * 0.03 in
              if closer score (snd acc) then (Some event, Some score) else acc)
         events (None, None)).

Definition isBlockedPoint (x y : Q) (holes : list (list Point)) (holeBounds : list Bounds)
  : bool :=
  if Qltb x ROBOT_CLEARANCE || Qgtb x (1 - ROBOT_CLEARANCE) ||
     Qltb y ROBOT_CLEARANCE || Qgtb y (1 - ROBOT_CLEARANCE)
  then true
  else existsb (fun probe =>
                  let px := clamp01 (x + fst probe) in
                  let py := clamp01 (y + snd probe) in
                  if existsb (fun hole => inPolygon px py hole) holes then true
                  else existsb (fun bounds => pointInBounds px py bounds ROBOT_HOLE_PADDING_NORM)
                               holeBounds)
               CLEARANCE_PROBES.

(** [{ x, y, heading }] of the first steering angle that is not blocked. *)
Definition resolveSteerStep (robot : RobotState) (step : Q) (holes : list (list Point))
    (holeBounds : list Bounds) : option (Q * Q * Q) :=
  let baseHeading := Math_atan2 (r_targetY robot - r_y robot) (r_targetX robot - r_x robot) in
  find (fun c => negb (isBlockedPoint (fst (fst c)) (snd (fst c)) holes holeBounds))
       (map (fun offset =>
               let heading := baseHeading + offset in
               (r_x robot + Math_cos heading * step, r_y robot + Math_sin heading * step, heading))
            STEER_ANGLES_RAD).

Definition reactiveEventsOf (events : list EventItem) : list ReactiveEvent :=
  map (fun event =>
         let projected := projectToWalkableTarget (e_x event) (e_y event) (e_zone_id event) in
         {| v_id := e_id event; v_zone_id := e_zone_id event; v_severity := e_severity event;
            v_x := fst projected; v_y := snd projected |})
      (filter (fun event => (e_severity event >=? 2)%Z && isLive (e_detected_at event)) events).

Definition findZone (zoneId : string) : option Zone :=
  find (fun zone => String.eqb (zone_id zone) zoneId) zm_zones.

(** [{ ...robot, <fields> }]: [id], [label] and [baseSpeed] are never
    overridden by the tick. *)
Definition withRobot (robot : RobotState) (zoneId : string) (x y targetX targetY : Q)
    (headingRad speed : Q) (mode : RobotMode) (assignedEventId : option string)
    (stuckTicks : Z) : RobotState :=
  {| r_id := r_id robot; r_label := r_label robot; r_zoneId := zoneId;
     r_x := x; r_y := y; r_targetX := targetX; r_targetY := targetY;
     r_headingRad := headingRad; r_speed := speed; r_baseSpeed := r_baseSpeed robot;
     r_mode := mode; r_assignedEventId := assignedEventId; r_stuckTicks := stuckTicks |}.

Definition STEP_MS : Q := 80.

(** The first part of the callback of [prev.map]: [nextRobot] once the
    response event is decided. *)
Definition assignRobot (reactiveEvents : list ReactiveEvent) (d : Draws) (robot : RobotState)
  : RobotState :=
  let currentZone := orElse (findZone (r_zoneId robot)) (d_pickCurrent d) in
  let trackedEvent :=
    match r_assignedEventId robot with
    | Some assigned =>
        if nonEmpty assigned
        then find (fun event => String.eqb (v_id event) assigned) reactiveEvents
        else None
    | None => None
    end in
  let nearestEvent := findClosestReactiveEvent robot reactiveEvents in
  let responseEvent :=
    match trackedEvent with Some event => Some event | None => nearestEvent end in
  match responseEvent with
  | Some event =>
      let projectedTarget := projectToWalkableTarget (v_x event) (v_y event) (v_zone_id event) in
      withRobot robot (v_zone_id event) (r_x robot) (r_y robot)
                (fst projectedTarget) (snd projectedTarget) (r_headingRad robot)
                (Qmax (r_baseSpeed robot * 1.16) RESPONSE_SPEED_MIN)
                responding (Some (v_id event)) (r_stuckTicks robot)
  | None =>
      match r_mode robot with
      | responding =>
          let patrolZone := orElse (findZone (r_zoneId robot)) currentZone in
          let patrolRaw := d_samplePatrol d patrolZone in
          let patrolTarget :=
            projectToWalkableTarget (fst patrolRaw) (snd patrolRaw) (zone_id patrolZone) in
          withRobot robot (r_zoneId robot) (r_x robot) (r_y robot)
                    (fst patrolTarget) (snd patrolTarget) (r_headingRad robot)
                    (r_baseSpeed robot) patrol None 0
      | patrol => robot
      end
  end.

(** The callback of [prev.map] in the interval handler: one robot, one tick. *)
Definition tickRobot (reactiveEvents : list ReactiveEvent) (holes : list (list Point))
    (expandedHoleBounds : list Bounds) (d : Draws) (robot : RobotState) : RobotState :=
  let currentZone := orElse (findZone (r_zoneId robot)) (d_pickCurrent d) in
  let nextRobot := assignRobot reactiveEvents d robot in
  let dx := r_targetX nextRobot - r_x nextRobot in
  let dy := r_targetY nextRobot - r_y nextRobot in
  let distance := Math_hypot dx dy in
  let step := r_speed nextRobot * (STEP_MS / 1000) in
  if Qle_bool distance (Qmax step 0.003) then
    match r_mode nextRobot with
    | responding =>
        let patrolZone := orElse (findZone (r_zoneId nextRobot)) currentZone in
        let patrolRaw := d_sampleNext d patrolZone in
        let patrolTarget :=
          projectToWalkableTarget (fst patrolRaw) (snd patrolRaw) (zone_id patrolZone) in
        withRobot nextRobot (zone_id patrolZone) (r_targetX nextRobot) (r_targetY nextRobot)
                  (fst patrolTarget) (snd patrolTarget)
                  (Math_atan2 (snd patrolTarget - r_targetY nextRobot)
                              (fst patrolTarget - r_targetX nextRobot))
                  (r_baseSpeed nextRobot) patrol None 0
    | patrol =>
        let nextZone := if Qltb (d_randomZone d) 0.3 then d_pickNext d else currentZone in
        let nextTargetRaw := d_sampleNext d nextZone in
        let nextTarget :=
          projectToWalkableTarget (fst nextTargetRaw) (snd nextTargetRaw) (zone_id nextZone) in
        withRobot nextRobot (zone_id nextZone) (r_x nextRobot) (r_y nextRobot)
                  (fst nextTarget) (snd nextTarget)
                  (Math_atan2 (snd nextTarget - r_y nextRobot) (fst nextTarget - r_x nextRobot))
                  (r_speed nextRobot) (r_mode nextRobot) (r_assignedEventId nextRobot) 0
    end
  else
    match resolveSteerStep nextRobot step holes expandedHoleBounds with
    | None =>
        let detourHeading :=
          r_headingRad nextRobot + (if Qltb (d_randomDetour d) 0.5 then 0.92 else - 0.92) in
        let detourTargetX := clamp01 (r_x nextRobot + Math_cos detourHeading * 0.08) in
        let detourTargetY := clamp01 (r_y nextRobot + Math_sin detourHeading * 0.08) in
        let projectedDetour :=
          projectToWalkableTarget detourTargetX detourTargetY (r_zoneId nextRobot) in
        if negb (isBlockedPoint (fst projectedDetour) (snd projectedDetour)
                                holes expandedHoleBounds)
        then withRobot nextRobot (r_zoneId nextRobot) (r_x nextRobot) (r_y nextRobot)
                       (fst projectedDetour) (snd projectedDetour) detourHeading
                       (r_speed nextRobot) (r_mode nextRobot) (r_assignedEventId nextRobot)
                       (r_stuckTicks nextRobot + 1)
        else
          let fallbackZone := orElse (findZone (r_zoneId nextRobot)) currentZone in
          let fallbackRaw := d_sampleFallback d fallbackZone in
          let fallbackPoint :=
            projectToWalkableTarget (fst fallbackRaw) (snd fallbackRaw) (zone_id fallbackZone) in
          withRobot nextRobot (r_zoneId nextRobot) (fst fallbackPoint) (snd fallbackPoint)
                    (fst fallbackPoint) (snd fallbackPoint) detourHeading
                    (r_baseSpeed nextRobot) patrol None 0
    | Some steered =>
        let sx := fst (fst steered) in
        let sy := snd (fst steered) in
        let movedDistance := Math_hypot (sx - r_x robot) (sy - r_y robot) in
        let stuckTicks :=
          if Qltb movedDistance 0.0006 then (r_stuckTicks robot + 1)%Z else 0%Z in
        if (stuckTicks >=? ROBOT_STUCK_TICKS)%Z then
          let rescueZone := orElse (findZone (r_zoneId nextRobot)) currentZone in
          let rescueRaw := d_sampleRescue d rescueZone in
          let rescue :=
            projectToWalkableTarget (fst rescueRaw) (snd rescueRaw) (zone_id rescueZone) in
          withRobot nextRobot (r_zoneId nextRobot) (r_x nextRobot) (r_y nextRobot)
                    (fst rescue) (snd rescue) (r_headingRad nextRobot)
                    (r_speed nextRobot) patrol None 0
        else
          withRobot nextRobot (r_zoneId nextRobot) sx sy
                    (r_targetX nextRobot) (r_targetY nextRobot) (snd steered)
                    (r_speed nextRobot) (r_mode nextRobot) (r_assignedEventId nextRobot)
                    stuckTicks
    end.

(** One run of the interval handler on the event snapshot [events]; robot
    [k] uses the draws [draws k]. *)
Definition tick (events : list EventItem) (draws : nat -> Draws) (robots : list RobotState)
  : list RobotState :=
  let reactiveEvents := reactiveEventsOf events in
  map (fun kr => tickRobot reactiveEvents holePolygons allHoleBounds (draws (fst kr)) (snd kr))
      (combine (seq 0 (List.length robots)) robots).

(** [n] consecutive ticks of one robot on a fixed snapshot. *)
Fixpoint runRobot (n : nat) (reactiveEvents : list ReactiveEvent) (draws : nat -> Draws)
    (robot : RobotState) : RobotState :=
  match n with
  | O => robot
  | S k =>
      tickRobot reactiveEvents holePolygons allHoleBounds (draws k)
                (runRobot k reactiveEvents draws robot)
  end.

End WithView.
End MapView.

(** ** Concrete hosts, used to run the definitions on sample inputs *)
Module Demo.

(** Modelled from the spec: [pointInPolygon] of [lib/geo.ts] is not among the
    sources; the spec names it only as a point-in-polygon query.  This is the
    even-odd ray-casting test over the edges [(poly[i], poly[j])], [j] the
    vertex before [i]. *)
Definition crosses (x y : Q) (pi pj : Point) : bool :=
  let '(xi, yi) := pi in
  let '(xj, yj) := pj in
  negb (Bool.eqb (Qgtb yi y) (Qgtb yj y)) &&
  Qltb x ((xj - xi) * (y - yi) / (yj - yi) + xi).

Fixpoint rayLoop (x y : Q) (prev : Point) (rest : list Point) (inside : bool) : bool :=
  match rest with
  | [] => inside
  | p :: r => rayLoop x y p r (xorb inside (crosses x y p prev))
  end.

Definition rayCast (x y : Q) (poly : list Point) : bool :=
  match poly with
  | [] => false
  | _ => rayLoop x y (last poly (0, 0)) poly false
  end.

(** A fragment of [Number(s)]: an optional sign, decimal digits, an optional
    fraction; the empty string is [0]. *)
Definition digitValue (c : ascii) : option Z :=
  let n := nat_of_ascii c in
  if andb (Nat.leb 48 n) (Nat.leb n 57) then Some (Z.of_nat (n - 48)) else None.

Fixpoint parseDigits (s : string) (acc : Z) : option (Z * string) :=
  match s with
  | EmptyString => Some (acc, EmptyString)
  | String c r =>
      match digitValue c with
      | Some d => parseDigits r (acc * 10 + d)%Z
      | None => if Ascii.eqb c "."%char then Some (acc, r) else None
      end
  end.

Fixpoint parseFraction (s : string) (num den : Z) : option Q :=
  match s with
  | EmptyString => Some (inject_Z num / inject_Z den)
  | String c r =>
      match digitValue c with
      | Some d => parseFraction r (num * 10 + d)%Z (den * 10)%Z
      | None => None
      end
  end.

Definition parseUnsigned (s : string) : option Q :=
  match parseDigits s 0 with
  | Some (whole, frac) =>
      match parseFraction frac 0 1 with
      | Some f => Some (inject_Z whole + f)
      | None => None
      end
  | None => None
  end.

Definition parseDecimal (s : string) : option Q :=
  match s with
  | String "-"%char r => option_map Qopp (parseUnsigned r)
  | _ => parseUnsigned s
  end.

(** Code-unit order, as [localeCompare] orders ASCII identifiers of one case. *)
Definition compareStrings (a b : string) : Z :=
  match String.compare a b with
  | Lt => (-1)%Z
  | Eq => 0%Z
  | Gt => 1%Z
  end.

(** A square floor of 1000 x 1000 pixels and 10 m x 10 m, with one zone, a
    square island in its middle, and the zone's centroid on the island. *)
Definition zoneA : Zone :=
  {| zone_id := "zone-a";
     polygon := [[100; 100]; [900; 100]; [900; 900]; [100; 900]];
     holes := [[[400; 400]; [600; 400]; [600; 600]; [400; 600]]];
     centroid := Some [Some 500; Some 500] |}.

Definition zoneMap : ZoneMap :=
  {| map_width := 1000; map_height := 1000;
     world_width_m := Some 10; world_depth_m := Some 10;
     world_offset_x_m := Some 0; world_offset_z_m := Some 0;
     zones := [zoneA] |}.

(** Map and world have the same aspect ratio here, so the transform of
    [createMapWorldNormTransform], which the spec describes as a letterbox
    fit, is the identity.  No camera is calibrated; no date string is parsed;
    the clock reads 2024-01-01T00:00:00Z. *)
Definition host : Host :=
  {| zm := zoneMap;
     pointInPolygon := rayCast;
     mapNormToWorldNorm := fun x y => (x, y);
     worldNormToMapNorm := fun x y => (x, y);
     CAMERA_HOMOGRAPHY := [];
     CAMERA_FRAME := [];
     applyHomography := fun _ _ _ => None;
     Number_of_string := parseDecimal;
     Date_parse := fun _ => None;
     Date_now := 1704067200000;
     localeCompare := compareStrings |}.

Definition options : NormalizeOptions :=
  {| maxEvents := Some 600; fallbackStoreId := Some "s001"; defaultSource := Some S_api |}.

Definition num (z : Z) : JsVal := JNum (inject_Z z).

(** [{ id: "e1", ts: 1700000000000, x: 0.2, y: 0.2, status: "open" }] *)
Definition recordOpen : JsVal :=
  JObj [("id", JStr "e1"); ("ts", num 1700000000000); ("x", JNum 0.2); ("y", JNum 0.2);
        ("status", JStr "open")].

(** [{ id: "e1", detected_at: 0, ts: 1700000000000, x: 0.2, y: 0.2 }]: the
    first timestamp field is present and unset, a later one is valid. *)
Definition recordUnsetDetectedAt : JsVal :=
  JObj [("id", JStr "e1"); ("detected_at", num 0); ("ts", num 1700000000000);
        ("x", JNum 0.2); ("y", JNum 0.2)].

(** [{ id: "e2", ts: 1700000000000, x: 0.5, y: 0.41 }]: a point on the
    island of zone-a. *)
Definition recordOnIsland : JsVal :=
  JObj [("id", JStr "e2"); ("ts", num 1700000000000); ("x", JNum 0.5); ("y", JNum 0.41)].

(** [{ id: "b1", ts: 1700000000000, bbox: [10, 20, 30, 80],
       frame: { width: 500, height: 500 } }] *)
Definition recordPixelBox : JsVal :=
  JObj [("id", JStr "b1"); ("ts", num 1700000000000);
        ("bbox", JArr [num 10; num 20; num 30; num 80]);
        ("frame", JObj [("width", num 500); ("height", num 500)])].

(** [{ id: "b2", ts: 1700000000000, bbox: [0.4, 0.2, 0.6, 0.5],
       frame: { width: 500, height: 500 } }] *)
Definition recordUnitBox : JsVal :=
  JObj [("id", JStr "b2"); ("ts", num 1700000000000);
        ("bbox", JArr [JNum 0.4; JNum 0.2; JNum 0.6; JNum 0.5]);
        ("frame", JObj [("width", num 500); ("height", num 500)])].

(** [[{ id: "e1", ts: 1700000000000, severity: 1, x: 0.2, y: 0.2 },
      { id: "e1", ts: 1700000005000, severity: 3, x: 0.2, y: 0.2 },
      { id: "e0", ts: 1700000005000, x: 0.3, y: 0.3 },
      { id: "bad" }]]: two records of one id, a tie on the timestamps, and
    a record that does not normalize. *)
Definition feed : JsVal :=
  JArr [JObj [("id", JStr "e1"); ("ts", num 1700000000000); ("severity", num 1);
              ("x", JNum 0.2); ("y", JNum 0.2)];
        JObj [("id", JStr "e1"); ("ts", num 1700000005000); ("severity", num 3);
              ("x", JNum 0.2); ("y", JNum 0.2)];
        JObj [("id", JStr "e0"); ("ts", num 1700000005000); ("x", JNum 0.3); ("y", JNum 0.3)];
        JObj [("id", JStr "bad")]].

Definition feedItems : list JsVal :=
  match feed with JArr items => items | _ => [] end.

(** The canonical set holds the newer record of [e1]; the older one arrives
    in a later batch. *)
Definition existingSet : list EventItem :=
  normalizeEventFeed (H := host)
    (JArr [JObj [("id", JStr "e1"); ("ts", num 1700000005000); ("severity", num 3);
                 ("x", JNum 0.2); ("y", JNum 0.2)]]) options.

Definition laterBatch : Sync.IncomingSyncBatch :=
  {| Sync.mode := Sync.merge;
     Sync.upsert :=
       normalizeEventFeed (H := host)
         (JArr [JObj [("id", JStr "e1"); ("ts", num 1700000000000); ("severity", num 1);
                      ("x", JNum 0.2); ("y", JNum 0.2)]]) options;
     Sync.removeIds := [] |}.

(** A floor for the map view: one hall, the unit square less a margin, with a
    small island in its middle.  The functions of [Math] are coarse
    stand-ins that stay within the bounds the statements assume of them. *)
Definition island : list Point :=
  [(0.495, 0.495); (0.505, 0.495); (0.505, 0.505); (0.495, 0.505)].

Definition hall : MapView.ZoneSurface :=
  {| MapView.s_id := "hall";
     MapView.s_polygon := [(0.05, 0.05); (0.95, 0.05); (0.95, 0.95); (0.05, 0.95)];
     MapView.s_holes := [island];
     MapView.s_centroid := (0.3, 0.3);
     MapView.s_bounds := Box 0.05 0.95 0.05 0.95;
     MapView.s_holeBounds := [Box 0.495 0.505 0.495 0.505] |}.


Definition view : MapView.View :=
  {| MapView.inPolygon := rayCast;
     MapView.isLive := fun _ => true;
     MapView.Math_cos := fun _ => 1;
     MapView.Math_sin := fun _ => 0;
     MapView.Math_atan2 := fun _ _ => 0;
     MapView.Math_hypot := fun dx dy => Qabs dx + Qabs dy;
     MapView.surfaces := [hall];
     MapView.zm_zones :=
       [{| zone_id := "hall"; polygon := []; holes := []; centroid := None |}] |}.

(** A zone whose only hole covers it: no point of it is walkable, with or
    without edge padding. *)
Definition coveredZone : MapView.ZoneSurface :=
  {| MapView.s_id := "covered";
     MapView.s_polygon := [(0.2, 0.2); (0.8, 0.2); (0.8, 0.8); (0.2, 0.8)];
     MapView.s_holes := [[(0.2, 0.2); (0.8, 0.2); (0.8, 0.8); (0.2, 0.8)]];
     MapView.s_centroid := (0.5, 0.5);
     MapView.s_bounds := Box 0.2 0.8 0.2 0.8;
     MapView.s_holeBounds := [Box 0.2 0.8 0.2 0.8] |}.

Definition islandBox : Bounds := Box 0.495 0.505 0.495 0.505.

(** The live event [e9] of severity 3 at [(0.9, 0.5)], filed under the zone
    id "dock", which the map does not have (the adapter keeps such an id). *)
Definition alarm : MapView.ReactiveEvent :=
  {| MapView.v_id := "e9"; MapView.v_zone_id := "dock"; MapView.v_severity := 3;
     MapView.v_x := 0.9; MapView.v_y := 0.5 |}.

(** A robot responding to [e9] whose stuck counter has reached the
    threshold of 18. *)
Definition stuckRobot : MapView.RobotState :=
  {| MapView.r_id := "robot-1"; MapView.r_label := "R1"; MapView.r_zoneId := "dock";
     MapView.r_x := 0.479; MapView.r_y := 0.5;
     MapView.r_targetX := 0.9; MapView.r_targetY := 0.5;
     MapView.r_headingRad := 0; MapView.r_speed := 0.0348; MapView.r_baseSpeed := 0.03;
     MapView.r_mode := MapView.responding; MapView.r_assignedEventId := Some "e9";
     MapView.r_stuckTicks := 18 |}.

Definition someDraws : MapView.Draws :=
  {| MapView.d_pickCurrent := {| zone_id := "hall"; polygon := []; holes := []; centroid := None |};
     MapView.d_pickNext := {| zone_id := "hall"; polygon := []; holes := []; centroid := None |};
     MapView.d_randomZone := 0.5;
     MapView.d_randomDetour := 0.25;
     MapView.d_samplePatrol := fun _ => (0.2, 0.2);
     MapView.d_sampleNext := fun _ => (0.2, 0.2);
     MapView.d_sampleFallback := fun _ => (0.2, 0.2);
     MapView.d_sampleRescue := fun _ => (0.2, 0.2) |}.

(** [{ id: "w1", ts: 1700000000000, world: { x: 2, z: 2 }, label: "person" }]:
    a record placed by world metres. *)
Definition recordWorld : JsVal :=
  JObj [("id", JStr "w1"); ("ts", num 1700000000000);
        ("world", JObj [("x", num 2); ("z", num 2)]); ("label", JStr "person")].

(** [{ id: "o1", ts: 1700000000000, zone_id: "zone-a", x: 0.01, y: 0.01 }]: a
    point outside the zone it names. *)
Definition recordOutside : JsVal :=
  JObj [("id", JStr "o1"); ("ts", num 1700000000000); ("zone_id", JStr "zone-a");
        ("x", JNum 0.01); ("y", JNum 0.01)].

(** The sample floor again, with blanks around the id of its zone. *)
Definition paddedZoneMap : ZoneMap :=
  {| map_width := 1000; map_height := 1000;
     world_width_m := Some 10; world_depth_m := Some 10;
     world_offset_x_m := Some 0; world_offset_z_m := Some 0;
     zones := [{| zone_id := " zone-a ";
                  polygon := polygon zoneA; holes := holes zoneA;
                  centroid := centroid zoneA |}] |}.

Definition paddedHost : Host :=
  {| zm := paddedZoneMap;
     pointInPolygon := rayCast;
     mapNormToWorldNorm := fun x y => (x, y);
     worldNormToMapNorm := fun x y => (x, y);
     CAMERA_HOMOGRAPHY := [];
     CAMERA_FRAME := [];
     applyHomography := fun _ _ _ => None;
     Number_of_string := parseDecimal;
     Date_parse := fun _ => None;
     Date_now := 1704067200000;
     localeCompare := compareStrings |}.

End Demo.

(** ** The sync page: reading an incoming payload *)
Module SyncInput.
Import Sync.

(** What the page takes from the JavaScript run time besides the host of the
    adapter. *)
Class Runtime : Type := {
  (** [JSON.parse(text)], [None] when it throws *)
  JSON_parse : string -> option JsVal;
  (** [String(value)] for a finite number *)
  String_of_number : Q -> string
}.

Inductive RecordOperation : Type := op_upsert | op_remove.

(** [Array.from(new Set(ids))]: a set keeps the first occurrence of each id,
    in insertion order. *)
Definition addId (seen : list string) (id : string) : list string :=
  if arrIncludes seen id then seen else List.app seen [id].

Definition dedupeIds (ids : list string) : list string := fold_left addId ids [].

(** [if (id) ids.push(id)]: the ids pushed for a parsed id, which is falsy
    when it is [null] or the empty string. *)
Definition pushId (id : option string) : list string :=
  match id with
  | Some s => if nonEmpty s then [s] else []
  | None => []
  end.

Definition parseSyncModeValue (value : JsVal) : option IncomingSyncMode :=
  match value with
  | JBool b => Some (if b then replace else merge)
  | JStr s =>
      let text := toLowerCase (trim s) in
      if negb (nonEmpty text) then None
      else if includes text "replace" || includes text "snapshot" || includes text "full"
      then Some replace
      else if includes text "merge" || includes text "upsert" || includes text "delta"
      then Some merge
      else None
  | _ => None
  end.

Definition SYNC_MODE_PATHS : list string :=
  ["sync_mode"; "syncMode"; "sync.mode"; "sync.strategy"; "payload.sync_mode";
   "payload.sync.mode"; "meta.sync_mode"; "meta.sync.mode"; "payload.mode"; "mode";
   "snapshot"; "full_sync"; "fullSync"].

Definition parseSyncMode (record : JsVal) : option IncomingSyncMode :=
  parseSyncModeValue (pickValue record SYNC_MODE_PATHS).

Definition OPERATION_PATHS : list string :=
  ["op"; "operation"; "event_op"; "event_operation"; "sync.op"; "sync.operation"].

Definition parseRecordOperation (record : JsVal) : option RecordOperation :=
  match pickValue record OPERATION_PATHS with
  | JStr opRaw =>
      let op := toLowerCase (trim opRaw) in
      if arrIncludes ["delete"; "deleted"; "remove"; "removed"; "clear"; "cleared"] op
      then Some op_remove
      else if arrIncludes ["upsert"; "create"; "created"; "insert"; "update"; "updated";
                           "patch"; "add"] op
      then Some op_upsert
      else None
  | _ => None
  end.

(** [parseRecordOperation(record) === "remove"] *)
Definition isRemove (record : JsVal) : bool :=
  match parseRecordOperation record with
  | Some op_remove => true
  | _ => false
  end.

Definition EVENT_ID_PATHS : list string :=
  ["id"; "event_id"; "eventId"; "uuid"; "alarm_id"; "alarmId"; "alert_id"; "alertId";
   "payload.id"; "payload.event_id"; "payload.eventId"].

Definition REMOVE_ID_PATHS : list string :=
  ["deleted_ids"; "removed_ids"; "delete_ids"; "remove_ids"; "payload.deleted_ids";
   "payload.removed_ids"; "payload.delete_ids"; "payload.remove_ids"; "sync.deleted_ids";
   "sync.removed_ids"; "payload.sync.deleted_ids"; "payload.sync.removed_ids"].

Definition REMOVED_PATHS : list string :=
  ["deleted"; "removed"; "payload.deleted"; "payload.removed"; "sync.deleted";
   "sync.removed"; "payload.sync.deleted"; "payload.sync.removed"].

Definition ARRAY_PATHS : list string :=
  ["events"; "data"; "records"; "results"; "items"; "alerts"; "payload.events";
   "payload.records"; "payload.items"; "payload.alerts"; "message.events"; "message.items";
   "sync.events"; "payload.sync.events"].

Definition SINGLE_PATHS : list string :=
  ["event"; "alert"; "payload.event"; "payload.alert"; "payload.data"; "message.event"].

(** The options of the two calls into the adapter. *)
Definition FEED_OPTIONS : NormalizeOptions :=
  {| maxEvents := Some MAX_EVENTS; fallbackStoreId := Some "s001";
     defaultSource := Some S_api |}.

Definition ADAPT_OPTIONS : NormalizeOptions :=
  {| maxEvents := None; fallbackStoreId := Some "s001"; defaultSource := Some S_api |}.

(** [mode === "replace"] *)
Definition isReplace (m : IncomingSyncMode) : bool :=
  match m with
  | replace => true
  | merge => false
  end.

Definition emptySyncBatch (m : IncomingSyncMode) : IncomingSyncBatch :=
  {| mode := m; upsert := []; removeIds := [] |}.

Definition MANUAL_TAG_PREFIX : string := "manual-tag".

Section WithRuntime.
Context {H : Host} {R : Runtime}.

Definition parseMaybeJson (payload : JsVal) : JsVal :=
  match payload with
  | JStr s =>
      let trimmed := trim s in
      if negb (nonEmpty trimmed) then JNull
      else match JSON_parse trimmed with
           | Some parsed => parsed
           | None => payload
           end
  | _ => payload
  end.

Definition toIdString (value : JsVal) : option string :=
  match value with
  | JStr s =>
      let trimmed := trim s in
      if nonEmpty trimmed then Some trimmed else None
  | JNum q => Some (String_of_number q)
  | _ => None
  end.

Definition parseEventIdFromRecord (record : JsVal) : option string :=
  toIdString (pickValue record EVENT_ID_PATHS).

(** The ids one element of the array adds.  [typeof item === "number"] holds
    of [NaN] and the infinities too. *)
Definition idsOfItem (item : JsVal) : list string :=
  match item with
  | JStr _ | JNum _ | JNonFinite => pushId (toIdString item)
  | _ =>
      match asRecord item with
      | None => []
      | Some record => pushId (parseEventIdFromRecord record)
      end
  end.

Definition parseIdList (value : JsVal) : list string :=
  match value with
  | JArr items => flat_map idsOfItem items
  | _ => []
  end.

Definition collectRemoveIds (record : JsVal) : list string :=
  let ids := flat_map (fun path => parseIdList (pickValue record [path])) REMOVE_ID_PATHS in
  let ids :=
    List.app ids (flat_map (fun path => parseIdList (pickValue record [path])) REMOVED_PATHS) in
  let ids :=
    if isRemove record then List.app ids (pushId (parseEventIdFromRecord record)) else ids in
  dedupeIds ids.

(** The body of [for (const row of rows)] on the two arrays
    [(upsertCandidates, removeIds)]. *)
Definition sortRow (acc : list JsVal * list string) (row : JsVal)
  : list JsVal * list string :=
  match asRecord row with
  | Some record =>
      if isRemove record
      then (fst acc, List.app (snd acc) (pushId (parseEventIdFromRecord record)))
      else (List.app (fst acc) [row], snd acc)
  | None => (List.app (fst acc) [row], snd acc)
  end.

(** [{ upsert, removeIds }] as a pair. *)
Definition normalizeRecordsForSync (rows : list JsVal) : list EventItem * list string :=
  let sorted := fold_left sortRow rows ([], []) in
  let upsert :=
    match fst sorted with
    | [] => []
    | upsertCandidates => normalizeEventFeed (JArr upsertCandidates) FEED_OPTIONS
    end in
  (upsert, dedupeIds (snd sorted)).

Definition normalizeIncomingPayload (payload : JsVal) : IncomingSyncBatch :=
  let parsed := parseMaybeJson payload in
  match parsed with
  | JStr _ => emptySyncBatch merge
  | JNull | JUndefined => emptySyncBatch merge
  | JArr items =>
      let rows := normalizeRecordsForSync items in
      {| mode := merge; upsert := fst rows; removeIds := snd rows |}
  | _ =>
      match asRecord parsed with
      | None => emptySyncBatch merge
      | Some row =>
          let m := orElse (parseSyncMode row) merge in
          let rootRemoveIds := collectRemoveIds row in
          match pickValue row ARRAY_PATHS with
          | JArr arrayCandidate =>
              let rows := normalizeRecordsForSync arrayCandidate in
              {| mode := m; upsert := fst rows;
                 removeIds := dedupeIds (List.app rootRemoveIds (snd rows)) |}
          | _ =>
              let picked := pickValue row SINGLE_PATHS in
              let singleCandidate := if isPresent picked then picked else row in
              let removes :=
                match asRecord singleCandidate with
                | Some singleRecord => isRemove singleRecord
                | None => false
                end in
              if removes then
                {| mode := m; upsert := [];
                   removeIds :=
                     dedupeIds (List.app rootRemoveIds
                                         (pushId (parseEventIdFromRecord singleCandidate))) |}
              else
                {| mode := m;
                   upsert := match adaptRawEvent singleCandidate ADAPT_OPTIONS with
                             | Some single => [single]
                             | None => []
                             end;
                   removeIds := rootRemoveIds |}
          end
      end
  end.

(** The state change of [applySync]: the next value of [events]. *)
Definition applySync (payload : JsVal) (events : list EventItem) : list EventItem :=
  let incoming := normalizeIncomingPayload payload in
  let hasMutation :=
    isReplace (mode incoming) || Nat.ltb 0 (List.length (upsert incoming)) ||
    Nat.ltb 0 (List.length (removeIds incoming)) in
  if hasMutation then applyIncomingSyncBatch events incoming else events.

(** The state change of [onClearManualTags]. *)
Definition clearManualTags (events : list EventItem) : list EventItem :=
  filter (fun event => negb (startsWith MANUAL_TAG_PREFIX (e_id event))) events.

(** The handlers that set [events]: [applySync], the last step of
    [onAddManualTag] with the tag it built, and [onClearManualTags]. *)
Inductive PageStep (events : list EventItem) : list EventItem -> Prop :=
| step_sync (payload : JsVal) : PageStep events (applySync payload events)
| step_tag (manualEvent : EventItem) : PageStep events (mergeEvents events [manualEvent])
| step_clear : PageStep events (clearManualTags events).

(** The values [events] can take, from the initial [useState([])]. *)
Inductive Reachable : list EventItem -> Prop :=
| reach_init : Reachable []
| reach_step (events next : list EventItem) :
    Reachable events -> PageStep events next -> Reachable next.

End WithRuntime.
End SyncInput.

(** ** [components/MapView.tsx]: the note of the selected event *)
Module Situation.

(** [note.split("|")] *)
Fixpoint splitBar (s : string) : list string :=
  match s with
  | EmptyString => [EmptyString]
  | String c r =>
      if Ascii.eqb c "|"%char then EmptyString :: splitBar r
      else match splitBar r with
           | [] => [String c EmptyString]
           | h :: t => String c h :: t
           end
  end.

(** [token.slice(n)] *)
Fixpoint sliceFrom (n : nat) (s : string) : string :=
  match n, s with
  | O, _ => s
  | S k, String _ r => sliceFrom k r
  | S _, EmptyString => EmptyString
  end.

Record SituationNote : Type := {
  summary : option string;
  cause : option string;
  action : option string
}.

(** [token.toLowerCase().startsWith("cause:")] and its like for "action:" *)
Definition isCauseToken (token : string) : bool := startsWith "cause:" (toLowerCase token).
Definition isActionToken (token : string) : bool := startsWith "action:" (toLowerCase token).

Definition parseSituationNote (note : option string) : SituationNote :=
  match note with
  | None => {| summary := None; cause := None; action := None |}
  | Some text =>
      if negb (nonEmpty text) then {| summary := None; cause := None; action := None |}
      else
        let tokens := filter nonEmpty (map trim (splitBar text)) in
        {| summary :=
             find (fun token => negb (isCauseToken token) && negb (isActionToken token)) tokens;
           cause := option_map (fun token => trim (sliceFrom 6 token)) (find isCauseToken tokens);
           action :=
             option_map (fun token => trim (sliceFrom 7 token)) (find isActionToken tokens) |}
  end.

End Situation.

(** ** [components/MapWorld3D.tsx]: the floor points of markers and robots *)
Module World3D.

Definition ROBOT_HOLE_PADDING_NORM : Q := 0.014.
Definition MARKER_HOLE_PADDING_NORM : Q := 0.03.
Definition ROBOT_ZONE_EDGE_PADDING_NORM : Q := 0.004.
Definition MARKER_ZONE_EDGE_PADDING_NORM : Q := 0.016.
Definition ZONE_SAMPLE_STEPS : Z := 24.

(** [ZonePlacement]; [p_bounds] stands for its fields [minX], [maxX], [minY]
    and [maxY], the spread of [polygonBounds(polygon)]. *)
Record ZonePlacement : Type := {
  p_id : string;
  p_polygon : list Point;
  p_holes : list (list Point);
  p_holeBounds : list Bounds;
  p_centroid : Point;
  p_bounds : Bounds
}.

Section WithPlacements.
Context {H : Host}.

(** [ZONE_PLACEMENTS], which [lib/geo.ts] builds from the zone map. *)
Variable ZONE_PLACEMENTS : list ZonePlacement.

Definition ZONE_PLACEMENT_BY_ID : JsMap.t (V := ZonePlacement) :=
  JsMap.ofEntries (map (fun zone => (p_id zone, zone)) ZONE_PLACEMENTS).

Definition inHole (x y : Q) (zone : ZonePlacement) (holePadding : Q) : bool :=
  if existsb (fun hole => pointInPolygon x y hole) (p_holes zone) then true
  else existsb (fun bounds => pointInBounds x y bounds holePadding) (p_holeBounds zone).

Definition inWalkableZone (x y : Q) (zone : ZonePlacement) (holePadding zoneEdgePadding : Q)
  : bool :=
  if negb (pointInPolygon x y (p_polygon zone)) then false
  else if Qgtb zoneEdgePadding 0 &&
          negb (pointInBounds x y (p_bounds zone) (- zoneEdgePadding))
  then false
  else negb (inHole x y zone holePadding).

(** The locals [bestX], [bestY], [bestScore]; [None] is
    [Number.POSITIVE_INFINITY]. *)
Definition Pick : Type := (Q * Q * option Q)%type.

(** The closure [tryPick]. *)
Definition tryPick (x y : Q) (zone : ZonePlacement) (holePadding zoneEdgePadding : Q)
    (best : Pick) (p : Point) : Pick :=
  if negb (inWalkableZone (fst p) (snd p) zone holePadding zoneEdgePadding) then best
  else
    let dx := fst p - x in
    let dy := snd p - y in
    let score := dx * dx + dy * dy in
    if closer score (snd best) then (fst p, snd p, Some score) else best.

Definition sampleIndices : list Z := zrange 0 (ZONE_SAMPLE_STEPS - 1).

(** The grid of the two nested loops, rows ([yi]) outermost.  The bounds of
    an empty polygon are infinite and so is every sample, which no polygon
    contains: no sample is listed. *)
Definition gridPoints (bounds : Bounds) : list Point :=
  match bounds with
  | EmptyBounds => []
  | Box minX maxX minY maxY =>
      flat_map (fun yi =>
        let ny := minY + ((inject_Z yi + 0.5) / inject_Z ZONE_SAMPLE_STEPS)
                         * Qmax 0 (maxY - minY) in
        map (fun xi =>
               let nx := minX + ((inject_Z xi + 0.5) / inject_Z ZONE_SAMPLE_STEPS)
                                * Qmax 0 (maxX - minX) in
               (nx, ny))
            sampleIndices)
        sampleIndices
  end.

(** [projectIntoWalkableZone], which calls itself once more at most, with
    [zoneEdgePadding = 0]; [retries] bounds the nesting of calls. *)
Fixpoint projectInto (retries : nat) (x y : Q) (zone : ZonePlacement)
    (holePadding zoneEdgePadding : Q) : Point :=
  if inWalkableZone x y zone holePadding zoneEdgePadding then (x, y)
  else
    let best :=
      fold_left (tryPick x y zone holePadding zoneEdgePadding)
                (p_centroid zone :: gridPoints (p_bounds zone))
                (fst (p_centroid zone), snd (p_centroid zone), None) in
    match snd best, retries with
    | None, S n =>
        if Qgtb zoneEdgePadding 0 then projectInto n x y zone holePadding 0
        else (clamp01 (fst (fst best)), clamp01 (snd (fst best)))
    | _, _ => (clamp01 (fst (fst best)), clamp01 (snd (fst best)))
    end.

Definition projectIntoWalkableZone : Q -> Q -> ZonePlacement -> Q -> Q -> Point :=
  projectInto 1.

Definition resolveMarkerFloorPoint (event : EventItem) : Point :=
  let x := clamp01 (e_x event) in
  let y := clamp01 (e_y event) in
  match JsMap.get ZONE_PLACEMENT_BY_ID (e_zone_id event) with
  | Some eventZone =>
      projectIntoWalkableZone x y eventZone
        MARKER_HOLE_PADDING_NORM MARKER_ZONE_EDGE_PADDING_NORM
  | None =>
      fst (fold_left
             (fun (acc : Point * option Q) zone =>
                let candidate :=
                  projectIntoWalkableZone x y zone
                    MARKER_HOLE_PADDING_NORM MARKER_ZONE_EDGE_PADDING_NORM in
                let dx := fst candidate - x in
                let dy := snd candidate - y in
                let score := dx * dx + dy * dy in
                if closer score (snd acc) then (candidate, Some score) else acc)
             ZONE_PLACEMENTS ((x, y), None))
  end.

Definition resolveFloorPoint (x0 y0 : Q) : Point :=
  let x := clamp01 x0 in
  let y := clamp01 y0 in
  match find (fun zone => pointInPolygon x y (p_polygon zone)) ZONE_PLACEMENTS with
  | Some zone =>
      projectIntoWalkableZone x y zone ROBOT_HOLE_PADDING_NORM ROBOT_ZONE_EDGE_PADDING_NORM
  | None => (x, y)
  end.

End WithPlacements.
End World3D.

(** ** More sample inputs *)
Module DemoPage.
Import Sync SyncInput.

(** No text is parsed in the samples, which are values already; the ids
    they hold as numbers are whole. *)
Definition runtime : Runtime :=
  {| JSON_parse := fun _ => None;
     String_of_number := fun q => stringOfZ (Qfloor q) |}.

(** [[{ id: "e1", ts: 1700000005000, x: 0.2, y: 0.2 },
      { op: "delete", id: " e1 " },
      { id: "e0", ts: 1700000005000, x: 0.3, y: 0.3 }]] *)
Definition deleteRow : JsVal := JObj [("op", JStr "delete"); ("id", JStr " e1 ")].

Definition rowsWithDelete : list JsVal :=
  [JObj [("id", JStr "e1"); ("ts", Demo.num 1700000005000); ("x", JNum 0.2); ("y", JNum 0.2)];
   deleteRow;
   JObj [("id", JStr "e0"); ("ts", Demo.num 1700000005000); ("x", JNum 0.3); ("y", JNum 0.3)]].

(** [{ sync_mode: "snapshot", events: [ ...the rows above... ],
       deleted_ids: ["e7", 12, "e7"] }] *)
Definition snapshotPayload : JsVal :=
  JObj [("sync_mode", JStr "snapshot"); ("events", JArr rowsWithDelete);
        ("deleted_ids", JArr [JStr "e7"; Demo.num 12; JStr "e7"])].

(** A robot on patrol in the hall of the sample floor, heading east. *)
Definition patrolRobot : MapView.RobotState :=
  {| MapView.r_id := "robot-2"; MapView.r_label := "R2"; MapView.r_zoneId := "hall";
     MapView.r_x := 0.2; MapView.r_y := 0.2;
     MapView.r_targetX := 0.6; MapView.r_targetY := 0.2;
     MapView.r_headingRad := 0; MapView.r_speed := 0.03; MapView.r_baseSpeed := 0.03;
     MapView.r_mode := MapView.patrol; MapView.r_assignedEventId := None;
     MapView.r_stuckTicks := 0 |}.

End DemoPage.

(** ** Vocabulary of the statements *)
Module Spec.

Definition inUnit (q : Q) : Prop := 0 <= q <= 1.

Definition clampPoint (p : Point) : Point :=
  (clampRange (fst p) 0 1, clampRange (snd p) 0 1).

(** The points one ring of [spiralSnap] hands to [test], in order. *)
Definition ringSamples (x0 y0 step : Q) (ring : Z) : list Point :=
  let ringStep := inject_Z ring * step in
  List.app
    (flat_map (fun i => let x := x0 + inject_Z i * step in
                        [(x, y0 - ringStep); (x, y0 + ringStep)])
              (zrange (- ring) ring))
    (flat_map (fun j => let y := y0 + inject_Z j * step in
                        [(x0 - ringStep, y); (x0 + ringStep, y)])
              (zrange (- ring + 1) (ring - 1))).

(** The samples of a ring as they are tested: clamped to the unit square. *)
Definition ringCandidates (x0 y0 step : Q) (ring : Z) : list Point :=
  map clampPoint (ringSamples x0 y0 step ring).

Definition sqDist (x0 y0 : Q) (p : Point) : Q :=
  (fst p - x0) * (fst p - x0) + (snd p - y0) * (snd p - y0).

Definition noneWalkable (isWalkable : Q -> Q -> bool) (l : list Point) : Prop :=
  forall q, In q l -> isWalkable (fst q) (snd q) = false.

(** [p] is a walkable point of [l] at least as close to [(x0, y0)] as every
    other walkable point of [l]. *)
Definition closestWalkable (x0 y0 : Q) (isWalkable : Q -> Q -> bool) (l : list Point)
    (p : Point) : Prop :=
  In p l /\ isWalkable (fst p) (snd p) = true /\
  forall q, In q l -> isWalkable (fst q) (snd q) = true -> sqDist x0 y0 p <= sqDist x0 y0 q.

(** The walkability of the spec, spelled out: inside the outer polygon,
    outside every hole polygon, outside every padded hole bounding box, and
    inside the edge-padded outer bounds. *)
Definition walkableInZone {H : Host} (x y : Q) (zone : ZoneGeometry) : Prop :=
  pointInPolygon x y (outer zone) = true /\
  (forall hole, In hole (zholes zone) -> pointInPolygon x y hole = false) /\
  (forall bounds, In bounds (holeBounds zone) ->
     pointInBounds x y bounds HOLE_PADDING_NORM = false) /\
  pointInBounds x y (outerBounds zone) (- ZONE_EDGE_PADDING_NORM) = true.

(** The candidate field the parsers see: the first key path, in priority
    order, whose value is neither [undefined] nor [null]. *)
Definition firstPresent (record : JsVal) (paths : list string) : option string :=
  find (fun path => isPresent (readPath record path)) paths.

Definition candidate (record : JsVal) (paths : list string) : JsVal :=
  match firstPresent record paths with
  | Some path => readPath record path
  | None => JUndefined
  end.

(** C3 as the claim words it: identity, timestamp and coordinates are looked
    for in every candidate field. *)
Definition noIdentityAnywhere (record : JsVal) : Prop :=
  (forall path, In path ID_PATHS -> parseId (readPath record path) = None) /\
  (forall path, In path TRACK_ID_PATHS -> parseId (readPath record path) = None).

Definition noTimestampAnywhere {H : Host} (record : JsVal) : Prop :=
  forall path, In path DETECTED_AT_PATHS -> parseEpochMs (readPath record path) = None.

Definition noCoordinates {H : Host} (record : JsVal) : Prop :=
  extractCoordinates record (parseId (pickValue record CAMERA_ID_PATHS)) = None.

(** [a] is at least as new as [b] by [(detected_at, ingested_at)]. *)
Definition notOlder (a b : EventItem) : Prop :=
  (e_detected_at a > e_detected_at b)%Z \/
  (e_detected_at a = e_detected_at b /\ e_ingested_at a >= e_ingested_at b)%Z.

(** [a] is strictly newer than [b] by [(detected_at, ingested_at)]. *)
Definition strictlyNewer (a b : EventItem) : Prop :=
  (e_detected_at a > e_detected_at b)%Z \/
  (e_detected_at a = e_detected_at b /\ e_ingested_at a > e_ingested_at b)%Z.

(** [a] may stand before [b] in a feed: descending [detected_at], then
    descending [ingested_at], then ascending id in the host's string order. *)
Definition feedOrder {H : Host} (a b : EventItem) : Prop :=
  (e_detected_at a > e_detected_at b)%Z \/
  (e_detected_at a = e_detected_at b /\
   ((e_ingested_at a > e_ingested_at b)%Z \/
    (e_ingested_at a = e_ingested_at b /\ (localeCompare (e_id a) (e_id b) <= 0)%Z))).

(** [localeCompare] orders strings: it is total and transitive. *)
Definition lawfulCompare (H : Host) : Prop :=
  (forall a b : string, (0 < localeCompare a b)%Z -> (localeCompare b a <= 0)%Z) /\
  (forall a b c : string,
     (localeCompare a b <= 0)%Z -> (localeCompare b c <= 0)%Z -> (localeCompare a c <= 0)%Z).

(** Walkability as [projectPointToWalkable] tests it, with hole padding
    [holePadding] and edge padding [zoneEdgePadding] (none when it is not
    positive). *)
Definition walkableAt {V : MapView.View} (zone : MapView.ZoneSurface)
    (holePadding zoneEdgePadding : Q) (x y : Q) : bool :=
  MapView.inPolygon x y (MapView.s_polygon zone) &&
  negb (MapView.pointInHoleOrBufferedBounds x y (MapView.s_holes zone)
          (MapView.s_holeBounds zone) holePadding) &&
  (negb (Qgtb zoneEdgePadding 0) ||
   pointInBounds x y (MapView.s_bounds zone) (- zoneEdgePadding)).

Definition clamp01Point (p : Point) : Point := (clamp01 (fst p), clamp01 (snd p)).

(** The candidates of one search, in order: the centroid, then the grid. *)
Definition gridCandidates {V : MapView.View} (zone : MapView.ZoneSurface) : list Point :=
  map clamp01Point (MapView.s_centroid zone :: MapView.gridSamples (MapView.s_bounds zone)).

Definition centroidOf (zone : MapView.ZoneSurface) : Point :=
  (fst (MapView.s_centroid zone), snd (MapView.s_centroid zone)).

(** What the statements on the robot tick assume of a view: the floor is
    the sample hall; cosine and sine stay within [-1, 1] and one of them is
    at least 0.7 in absolute value (as on the unit circle, where it is at
    least 0.7071); [Math.hypot] is at least the absolute value of its first
    argument; and a point inside the island polygon is inside its bounding
    box. *)
Definition plausibleView (V : MapView.View) : Prop :=
  MapView.surfaces = [Demo.hall] /\
  (forall a, -1 <= MapView.Math_cos a <= 1) /\
  (forall a, -1 <= MapView.Math_sin a <= 1) /\
  (forall a, 0.7 <= Qabs (MapView.Math_cos a) \/ 0.7 <= Qabs (MapView.Math_sin a)) /\
  (forall dx dy, Qabs dx <= MapView.Math_hypot dx dy) /\
  (forall x y, MapView.inPolygon x y Demo.island = true ->
               pointInBounds x y Demo.islandBox 0 = true).

(** A robot standing at [(0.479, 0.5)], two thousandths outside the padded
    box of the island, with base speed 0.03 and the event [e9] assigned. *)
Definition pinned (robot : MapView.RobotState) : Prop :=
  MapView.r_x robot = 0.479 /\ MapView.r_y robot = 0.5 /\
  MapView.r_baseSpeed robot = 0.03 /\ MapView.r_assignedEventId robot = Some "e9".

(** Re-normalizing the output of [normalizeEventFeed]: the fields that are
    read back from the returned object as they were, and the two that come
    back [undefined]. *)
Definition sameFields (a b : EventItem) : Prop :=
  e_id b = e_id a /\ e_store_id b = e_store_id a /\
  e_detected_at b = e_detected_at a /\ e_ingested_at b = e_ingested_at a /\
  e_latency_ms b = e_latency_ms a /\ e_type b = e_type a /\
  e_severity b = e_severity a /\ e_confidence b = e_confidence a /\
  e_camera_id b = e_camera_id a /\ e_track_id b = e_track_id a /\
  e_source b = e_source a /\ e_model_version b = e_model_version a /\
  e_incident_status b = e_incident_status a /\ e_note b = e_note a /\
  e_raw_status b = None /\ e_object_label b = None.

(** The point of [b] is the point of [a]. *)
Definition samePoint (a b : EventItem) : Prop := e_x b = e_x a /\ e_y b = e_y a.

(** What the second run returns ([b]) for an event of the first ([a]): the
    fields of [sameFields], the same zone id, and
    - with a zone id that names a zone of the map: the same point, without
      world metres, when the point is walkable in the zone; the same point
      with the same world metres when it is not walkable and lies outside
      the outer polygon, or the spiral search from it finds nothing (what is
      left is an event on a centroid inside the polygon from which the
      search finds a walkable point: that event moves);
    - with any other zone id: the same point, without world metres. *)
Definition sameCore {H : Host} (a b : EventItem) : Prop :=
  sameFields a b /\
  e_zone_id b = e_zone_id a /\
  match JsMap.get (ZONE_GEOMETRY_BY_ID zm) (e_zone_id a) with
  | Some zone =>
      (walkableInZone (e_x a) (e_y a) zone ->
       samePoint a b /\ e_world_x_m b = None /\ e_world_z_m b = None) /\
      (~ walkableInZone (e_x a) (e_y a) zone ->
       pointInPolygon (e_x a) (e_y a) (outer zone) = false \/
       spiralSnap (e_x a) (e_y a) (fun x y => pointInZoneWalkable x y zone)
                  SPIRAL_STEP SPIRAL_MAX_RINGS = None ->
       samePoint a b /\ e_world_x_m b = e_world_x_m a /\ e_world_z_m b = e_world_z_m a)
  | None => samePoint a b /\ e_world_x_m b = None /\ e_world_z_m b = None
  end.

(** The store id a caller passes as fallback has no blank at either end. *)
Definition trimmedFallback (options : NormalizeOptions) : Prop :=
  forall f, fallbackStoreId options = Some f -> trim f = f.

(** Feeding a feed back: the array of the events of [out]. *)
Definition feedBack (out : list EventItem) : JsVal := JArr (map toJs out).

(** *** Strings that [trim] leaves alone, and events that read back *)

Definition startsClean (s : string) : Prop :=
  match s with
  | String c _ => isWhite c = false
  | EmptyString => False
  end.

Definition endsClean (s : string) : Prop := s <> EmptyString /\ trimEnd s = s.

(** A string with no blank at either end, and not empty: what [parseId] and
    [parseText] return. *)
Definition neat (s : string) : Prop := startsClean s /\ endsClean s.

(** No character of the string is a blank. *)
Fixpoint noBlank (s : string) : Prop :=
  match s with
  | EmptyString => True
  | String c r => isWhite c = false /\ noBlank r
  end.

Definition optNeat (o : option string) : Prop := forall s, o = Some s -> neat s.

(** Every zone id of the loaded map has no blank at either end and is not
    empty. *)
Definition neatZoneIds (H : Host) : Prop := forall z, In z (ZONE_IDS zm) -> neat z.

(** An epoch that [normalizeEpoch] accepts. *)
Definition validEpoch {H : Host} (d : Z) : Prop :=
  (MIN_VALID_EPOCH_MS <= d <= Date_now + MAX_FUTURE_DRIFT_MS)%Z.

(** What every event returned by [adaptRawEvent] satisfies, and what makes
    its fields read back as they are. *)
Definition wellFormed {H : Host} (options : NormalizeOptions) (e : EventItem) : Prop :=
  neat (e_id e) /\
  orElse (parseId (JStr (e_store_id e))) (orElse (fallbackStoreId options) "s001") = e_store_id e /\
  validEpoch (e_detected_at e) /\ validEpoch (e_ingested_at e) /\
  (0 <= e_latency_ms e)%Z /\
  (e_severity e = 1 \/ e_severity e = 2 \/ e_severity e = 3)%Z /\
  (forall severity, normalizeConfidence (JNum (e_confidence e)) severity = e_confidence e) /\
  optNeat (e_camera_id e) /\ optNeat (e_track_id e) /\ optNeat (e_model_version e) /\
  optNeat (e_note e) /\
  inUnit (e_x e) /\ inUnit (e_y e).

End Spec.
Import Spec.

(** ** More vocabulary of the statements *)
Module Terms.

(** A list of events as the page keeps it: in feed order, one event per id,
    at most 600 events. *)
Definition canonical {H : Host} (events : list EventItem) : Prop :=
  StronglySorted feedOrder events /\ NoDup (map e_id events) /\
  (List.length events <= 600)%nat.

(** A row that [normalizeRecordsForSync] and [normalizeIncomingPayload] read
    as a removal: an object whose operation is one of the removal words. *)
Definition removesRow (row : JsVal) : bool :=
  match asRecord row with
  | Some record => SyncInput.isRemove record
  | None => false
  end.

(** A payload with nothing to read: [null], [undefined], a boolean, a
    number, blank text, or text that [JSON.parse] rejects. *)
Definition unreadable {R : SyncInput.Runtime} (payload : JsVal) : Prop :=
  match payload with
  | JNull | JUndefined | JBool _ | JNum _ | JNonFinite => True
  | JStr s => trim s = EmptyString \/ SyncInput.JSON_parse (trim s) = None
  | JArr _ | JObj _ => False
  end.

(** The score by which [findClosestReactiveEvent] ranks an event for a
    robot: the distance, less 0.03 per level of severity. *)
Definition reactionDistance {V : MapView.View} (robot : MapView.RobotState)
    (event : MapView.ReactiveEvent) : Q :=
  MapView.Math_hypot (MapView.v_x event - MapView.r_x robot)
                     (MapView.v_y event - MapView.r_y robot).

Definition reactionScore {V : MapView.View} (robot : MapView.RobotState)
    (event : MapView.ReactiveEvent) : Q :=
  reactionDistance robot event - inject_Z (MapView.v_severity event) * 0.03.

(** A robot is responding exactly when it holds the id of an event. *)
Definition assignmentConsistent (robot : MapView.RobotState) : Prop :=
  MapView.r_mode robot = MapView.responding <-> MapView.r_assignedEventId robot <> None.

(** A text without a bar: [!text.includes("|")]. *)
Definition noBar (s : string) : Prop := includes s "|" = false.

End Terms.
Import Terms.

(* ================================================================== *)
(** * Part II. Theorems                                                *)
(* ================================================================== *)

(** ** Numbers and clamping *)

Lemma clampRange_unit (v : Q) : inUnit (clampRange v 0 1).
Proof.
  unfold inUnit, clampRange. split.
  - apply Q.le_max_l.
  - apply Q.max_lub; [lra | apply Q.le_min_l].
Qed.

Lemma clamp01_unit (v : Q) : inUnit (clamp01 v).
Proof. exact (clampRange_unit v). Qed.

Lemma Qltb_lt (a b : Q) : Qltb a b = true <-> a < b.
Proof.
  unfold Qltb. rewrite negb_true_iff. split; intro Hab.
  - apply Qnot_le_lt. intro Hle. apply Qle_bool_iff in Hle. congruence.
  - destruct (Qle_bool b a) eqn:E; [|reflexivity].
    apply Qle_bool_iff in E. lra.
Qed.

Lemma Qltb_ge (a b : Q) : Qltb a b = false <-> b <= a.
Proof.
  unfold Qltb. rewrite negb_false_iff. apply Qle_bool_iff.
Qed.

Lemma Qgtb_gt (a b : Q) : Qgtb a b = true <-> b < a.
Proof. exact (Qltb_lt b a). Qed.

Lemma Qgtb_le (a b : Q) : Qgtb a b = false <-> a <= b.
Proof. exact (Qltb_ge b a). Qed.

Lemma Qgeb_ge (a b : Q) : Qgeb a b = true <-> b <= a.
Proof. apply Qle_bool_iff. Qed.

(** ** Insertion-ordered maps *)
Section JsMapFacts.
Context {V : Type}.
Implicit Types (m : JsMap.t (V := V)) (k : string) (v : V).

Lemma get_In m k v : JsMap.get m k = Some v -> In (k, v) m.
Proof.
  induction m as [|[k' v'] rest IH]; simpl; [discriminate|].
  destruct (String.eqb k' k) eqn:E.
  - apply String.eqb_eq in E. intros [= ->]. left. now subst.
  - intro Hget. right. now apply IH.
Qed.

Lemma get_set_same m k v : JsMap.get (JsMap.set m k v) k = Some v.
Proof.
  induction m as [|[k' v'] rest IH]; simpl.
  - now rewrite String.eqb_refl.
  - destruct (String.eqb k' k) eqn:E; simpl; rewrite E; [reflexivity | exact IH].
Qed.

Lemma get_set_other m k k' v : k <> k' -> JsMap.get (JsMap.set m k v) k' = JsMap.get m k'.
Proof.
  intro Hne. induction m as [|[k0 v0] rest IH]; simpl.
  - destruct (String.eqb k k') eqn:E; [apply String.eqb_eq in E; contradiction | reflexivity].
  - destruct (String.eqb k0 k) eqn:E; simpl.
    + apply String.eqb_eq in E. subst k0.
      destruct (String.eqb k k') eqn:E'; [apply String.eqb_eq in E'; contradiction | reflexivity].
    + now rewrite IH.
Qed.

Lemma In_set m k v k' v' :
  In (k', v') (JsMap.set m k v) -> (k', v') = (k, v) \/ In (k', v') m.
Proof.
  induction m as [|[k0 v0] rest IH]; simpl.
  - intros [Heq | []]. left. now symmetry.
  - destruct (String.eqb k0 k) eqn:E; simpl.
    + apply String.eqb_eq in E. subst k0. intros [Heq | Hin]; [left; now symmetry | right; now right].
    + intros [Heq | Hin]; [right; now left|].
      destruct (IH Hin) as [Hl | Hr]; [now left | right; now right].
Qed.

Lemma In_ofEntries_from (entries : list (string * V)) m k v :
  In (k, v) (fold_left (fun m kv => JsMap.set m (fst kv) (snd kv)) entries m) ->
  In (k, v) m \/ In (k, v) entries.
Proof.
  revert m. induction entries as [|[k0 v0] rest IH]; simpl; intros m Hin; [now left|].
  destruct (IH _ Hin) as [Hm | Hr]; [|right; now right].
  destruct (In_set _ _ _ _ _ Hm) as [Heq | Hm']; [right; left; now symmetry | now left].
Qed.

Lemma In_ofEntries (entries : list (string * V)) k v :
  In (k, v) (JsMap.ofEntries entries) -> In (k, v) entries.
Proof.
  intro Hin. destruct (In_ofEntries_from entries [] k v Hin) as [[] | Hr]. exact Hr.
Qed.

Lemma get_ofEntries (entries : list (string * V)) k v :
  JsMap.get (JsMap.ofEntries entries) k = Some v -> In (k, v) entries.
Proof. intro Hget. apply In_ofEntries. now apply get_In. Qed.

End JsMapFacts.

(** ** [spiralSnap] *)
Section SpiralSnapFacts.
Variables (x0 y0 : Q) (isWalkable : Q -> Q -> bool) (step : Q).

Local Definition testPoint (st : RingState) (p : Point) : RingState :=
  test x0 y0 isWalkable st (fst p) (snd p).

Lemma fold_left_flat_map {A B C : Type} (f : A -> C -> A) (g : B -> list C) (l : list B) (a : A) :
  fold_left f (flat_map g l) a = fold_left (fun acc b => fold_left f (g b) acc) l a.
Proof.
  revert a. induction l as [|b l IH]; intro a; simpl; [reflexivity|].
  now rewrite fold_left_app, IH.
Qed.

Lemma runRing_samples (ring : Z) :
  runRing x0 y0 isWalkable step ring = fold_left testPoint (ringSamples x0 y0 step ring) ringInit.
Proof.
  unfold runRing, ringSamples.
  rewrite fold_left_app, !fold_left_flat_map. reflexivity.
Qed.

(** What the locals of a ring say once the samples [seen] are tested. *)
Definition ringInv (seen : list Point) (st : RingState) : Prop :=
  if found st
  then bestDist2 st = Some (sqDist x0 y0 (bestX st, bestY st)) /\
       closestWalkable x0 y0 isWalkable (map clampPoint seen) (bestX st, bestY st)
  else bestDist2 st = None /\ noneWalkable isWalkable (map clampPoint seen).

Lemma ringInv_init : ringInv [] ringInit.
Proof. split; [reflexivity | intros q []]. Qed.

Lemma ringInv_test (seen : list Point) (st : RingState) (p : Point) :
  ringInv seen st -> ringInv (seen ++ [p]) (testPoint st p).
Proof.
  unfold ringInv, testPoint, test. intro Hinv.
  rewrite map_app. cbn [map].
  change (clampRange (fst p) 0 1) with (fst (clampPoint p)).
  change (clampRange (snd p) 0 1) with (snd (clampPoint p)).
  set (c := clampPoint p) in *.
  assert (Hc : (fst c, snd c) = c) by now destruct c.
  destruct (isWalkable (fst c) (snd c)) eqn:Hw; cbn [negb].
  - destruct (found st) eqn:Hf.
    + destruct Hinv as [Hd (Hin & Hbw & Hmin)]. rewrite Hd. cbn [closer].
      destruct (Qltb _ _) eqn:Hlt; cbn [found bestX bestY bestDist2].
      * apply Qltb_lt in Hlt. split; [reflexivity|]. split; [|split].
        -- apply in_or_app. right. left. now symmetry.
        -- exact Hw.
        -- intros q Hq Hqw. apply in_app_or in Hq. destruct Hq as [Hq | [<- | []]].
           ++ specialize (Hmin q Hq Hqw). unfold sqDist in *. cbn [fst snd] in *. lra.
           ++ rewrite Hc. apply Qle_refl.
      * apply Qltb_ge in Hlt. rewrite Hf. split; [exact Hd|]. split; [|split].
        -- apply in_or_app. now left.
        -- exact Hbw.
        -- intros q Hq Hqw. apply in_app_or in Hq. destruct Hq as [Hq | [<- | []]].
           ++ now apply Hmin.
           ++ unfold sqDist in *. cbn [fst snd] in *. lra.
    + destruct Hinv as [Hd Hnone]. rewrite Hd. cbn [closer found bestX bestY bestDist2].
      split; [reflexivity|]. split; [|split].
      * apply in_or_app. right. left. now symmetry.
      * exact Hw.
      * intros q Hq Hqw. apply in_app_or in Hq. destruct Hq as [Hq | [<- | []]].
        -- rewrite (Hnone q Hq) in Hqw. discriminate.
        -- rewrite Hc. apply Qle_refl.
  - destruct (found st) eqn:Hf.
    + destruct Hinv as [Hd (Hin & Hbw & Hmin)]. split; [exact Hd|]. split; [|split].
      * apply in_or_app. now left.
      * exact Hbw.
      * intros q Hq Hqw. apply in_app_or in Hq. destruct Hq as [Hq | [<- | []]].
        -- now apply Hmin.
        -- rewrite Hw in Hqw. discriminate.
    + destruct Hinv as [Hd Hnone]. split; [exact Hd|].
      intros q Hq. apply in_app_or in Hq. destruct Hq as [Hq | [<- | []]].
      * now apply Hnone.
      * exact Hw.
Qed.

Lemma ringInv_fold (l seen : list Point) (st : RingState) :
  ringInv seen st -> ringInv (seen ++ l) (fold_left testPoint l st).
Proof.
  revert seen st. induction l as [|p l IH]; intros seen st Hinv; simpl.
  - now rewrite app_nil_r.
  - change (seen ++ p :: l)%list with (seen ++ [p] ++ l)%list. rewrite app_assoc.
    apply IH. now apply ringInv_test.
Qed.

Lemma ringInv_runRing (ring : Z) :
  ringInv (ringSamples x0 y0 step ring) (runRing x0 y0 isWalkable step ring).
Proof.
  rewrite runRing_samples.
  exact (ringInv_fold (ringSamples x0 y0 step ring) [] ringInit ringInv_init).
Qed.

Lemma runRing_found (ring : Z) :
  found (runRing x0 y0 isWalkable step ring) = true ->
  closestWalkable x0 y0 isWalkable (ringCandidates x0 y0 step ring)
    (bestX (runRing x0 y0 isWalkable step ring), bestY (runRing x0 y0 isWalkable step ring)).
Proof.
  intro Hf. pose proof (ringInv_runRing ring) as Hinv. unfold ringInv in Hinv.
  rewrite Hf in Hinv. exact (proj2 Hinv).
Qed.

Lemma runRing_not_found (ring : Z) :
  found (runRing x0 y0 isWalkable step ring) = false ->
  noneWalkable isWalkable (ringCandidates x0 y0 step ring).
Proof.
  intro Hf. pose proof (ringInv_runRing ring) as Hinv. unfold ringInv in Hinv.
  rewrite Hf in Hinv. exact (proj2 Hinv).
Qed.

(** The result of the loop started at ring [r0] with [n] rings to visit. *)
Lemma ringLoop_spec (n : nat) (r0 : Z) :
  match ringLoop x0 y0 isWalkable step n r0 with
  | Some p =>
      exists ring, (r0 <= ring < r0 + Z.of_nat n)%Z /\
        closestWalkable x0 y0 isWalkable (ringCandidates x0 y0 step ring) p /\
        forall r, (r0 <= r < ring)%Z -> noneWalkable isWalkable (ringCandidates x0 y0 step r)
  | None =>
      forall r, (r0 <= r < r0 + Z.of_nat n)%Z ->
        noneWalkable isWalkable (ringCandidates x0 y0 step r)
  end.
Proof.
  revert r0. induction n as [|n IH]; intro r0; simpl ringLoop.
  - intros r Hr. lia.
  - destruct (found (runRing x0 y0 isWalkable step r0)) eqn:Hf.
    + exists r0. split; [lia|]. split; [now apply runRing_found|]. intros r Hr. lia.
    + specialize (IH (r0 + 1)%Z).
      destruct (ringLoop x0 y0 isWalkable step n (r0 + 1)) as [p|].
      * destruct IH as (ring & Hring & Hbest & Hbefore).
        exists ring. split; [lia|]. split; [exact Hbest|].
        intros r Hr. destruct (Z.eq_dec r r0) as [-> | Hne].
        -- now apply runRing_not_found.
        -- apply Hbefore. lia.
      * intros r Hr. destruct (Z.eq_dec r r0) as [-> | Hne].
        -- now apply runRing_not_found.
        -- apply IH. lia.
Qed.

Lemma ringsVisited_length (n : nat) (r0 : Z) :
  (List.length (ringsVisited x0 y0 isWalkable step n r0) <= n)%nat.
Proof.
  revert r0. induction n as [|n IH]; intro r0; simpl; [lia|].
  destruct (found _); simpl; [lia|]. specialize (IH (r0 + 1)%Z). lia.
Qed.

End SpiralSnapFacts.

(** C6.  Called with its defaults ([step = 0.003], [maxRings = 60]),
    [spiralSnap] enters at most 60 rings, for every start [(x0, y0)] and every
    predicate.  When it returns a point, that point is a clamped sample of
    some ring [1 <= ring <= 60], it satisfies the predicate, no sample of an
    earlier ring does, and no walkable sample of that ring is closer to the
    start in squared distance.  When it returns [null], no clamped sample of
    any of the 60 rings satisfies the predicate; so it returns a walkable
    point whenever some ring holds one. *)
Theorem spiralSnap_bounded_first_ring (x0 y0 : Q) (isWalkable : Q -> Q -> bool) :
  (List.length (ringsVisited x0 y0 isWalkable SPIRAL_STEP (Z.to_nat SPIRAL_MAX_RINGS) 1) <= 60)%nat /\
  match spiralSnap x0 y0 isWalkable SPIRAL_STEP SPIRAL_MAX_RINGS with
  | Some p =>
      exists ring, (1 <= ring <= 60)%Z /\
        closestWalkable x0 y0 isWalkable (ringCandidates x0 y0 SPIRAL_STEP ring) p /\
        forall r, (1 <= r < ring)%Z ->
          noneWalkable isWalkable (ringCandidates x0 y0 SPIRAL_STEP r)
  | None =>
      forall r, (1 <= r <= 60)%Z -> noneWalkable isWalkable (ringCandidates x0 y0 SPIRAL_STEP r)
  end /\
  ((exists r q, (1 <= r <= 60)%Z /\ In q (ringCandidates x0 y0 SPIRAL_STEP r) /\
                isWalkable (fst q) (snd q) = true) ->
   exists p, spiralSnap x0 y0 isWalkable SPIRAL_STEP SPIRAL_MAX_RINGS = Some p /\
             isWalkable (fst p) (snd p) = true).
Proof.
  pose proof (ringLoop_spec x0 y0 isWalkable SPIRAL_STEP (Z.to_nat SPIRAL_MAX_RINGS) 1) as Hspec.
  unfold spiralSnap. split; [|split].
  - exact (ringsVisited_length x0 y0 isWalkable SPIRAL_STEP (Z.to_nat SPIRAL_MAX_RINGS) 1).
  - destruct (ringLoop x0 y0 isWalkable SPIRAL_STEP (Z.to_nat SPIRAL_MAX_RINGS) 1) as [p|].
    + destruct Hspec as (ring & Hring & Hbest & Hbefore).
      exists ring. split; [|split]; [|exact Hbest|exact Hbefore].
      change (Z.of_nat (Z.to_nat SPIRAL_MAX_RINGS)) with 60%Z in Hring. lia.
    + intros r Hr. apply Hspec.
      change (Z.of_nat (Z.to_nat SPIRAL_MAX_RINGS)) with 60%Z. lia.
  - intros (r & q & Hr & Hq & Hw).
    destruct (ringLoop x0 y0 isWalkable SPIRAL_STEP (Z.to_nat SPIRAL_MAX_RINGS) 1) as [p|].
    + destruct Hspec as (ring & _ & (_ & Hpw & _) & _). now exists p.
    + exfalso. assert (Hnone : isWalkable (fst q) (snd q) = false).
      { apply (Hspec r); [|exact Hq].
        change (Z.of_nat (Z.to_nat SPIRAL_MAX_RINGS)) with 60%Z. lia. }
      congruence.
Qed.

(** ** The walkability snap *)
Section SnapFacts.
Context {H : Host}.

Lemma spiralSnap_Some (x0 y0 : Q) (isWalkable : Q -> Q -> bool) (step : Q) (maxRings : Z)
    (p : Point) :
  spiralSnap x0 y0 isWalkable step maxRings = Some p ->
  inUnit (fst p) /\ inUnit (snd p) /\ isWalkable (fst p) (snd p) = true.
Proof.
  unfold spiralSnap. intro Hsnap.
  pose proof (ringLoop_spec x0 y0 isWalkable step (Z.to_nat maxRings) 1) as Hspec.
  rewrite Hsnap in Hspec. destruct Hspec as (ring & _ & (Hin & Hw & _) & _).
  unfold ringCandidates in Hin. apply in_map_iff in Hin. destruct Hin as (q & <- & _).
  repeat split; try exact Hw; apply clampRange_unit.
Qed.

Lemma centroidCoord_unit (c : option Q) (size : Q) : inUnit (centroidCoord c size).
Proof.
  destruct c as [v|]; simpl; [apply clampRange_unit | unfold inUnit; lra].
Qed.

Lemma ZONE_CENTROIDS_unit (k : string) (c : Point) :
  JsMap.get (ZONE_CENTROIDS zm) k = Some c -> inUnit (fst c) /\ inUnit (snd c).
Proof.
  intro Hget. apply get_ofEntries in Hget. apply in_map_iff in Hget.
  destruct Hget as (zone & Hentry & _). unfold centroidEntry in Hentry.
  destruct (centroid zone) as [[|cx [|cy rest]]|]; inversion Hentry; subst; simpl;
    try (unfold inUnit; split; lra).
  split; apply centroidCoord_unit.
Qed.

Lemma zone_lookup (zid : string) (zone : ZoneGeometry) :
  JsMap.get (ZONE_GEOMETRY_BY_ID zm) zid = Some zone ->
  zoneId zone = zid /\ exists raw, In raw (zones zm) /\ zone = buildZoneGeometry zm raw.
Proof.
  intro Hget. apply get_ofEntries in Hget. apply in_map_iff in Hget.
  destruct Hget as (z & Hz & Hin). inversion Hz; subst. split; [reflexivity|].
  unfold ZONE_GEOMETRIES in Hin. apply in_map_iff in Hin. destruct Hin as (raw & <- & Hraw).
  now exists raw.
Qed.

Lemma zone_centroid_unit (zid : string) (zone : ZoneGeometry) :
  JsMap.get (ZONE_GEOMETRY_BY_ID zm) zid = Some zone ->
  inUnit (fst (zcentroid zone)) /\ inUnit (snd (zcentroid zone)).
Proof.
  intro Hget. destruct (zone_lookup _ _ Hget) as (_ & raw & _ & ->). simpl.
  destruct (JsMap.get (ZONE_CENTROIDS zm) (zone_id raw)) as [c|] eqn:Hc.
  - now apply ZONE_CENTROIDS_unit in Hc.
  - simpl. unfold inUnit. split; lra.
Qed.

Lemma pointInZoneWalkable_spec (x y : Q) (zone : ZoneGeometry) :
  pointInZoneWalkable x y zone = true <-> walkableInZone x y zone.
Proof.
  unfold pointInZoneWalkable, walkableInZone.
  assert (Hpad : Qgtb ZONE_EDGE_PADDING_NORM 0 = true) by reflexivity. rewrite Hpad.
  destruct (pointInPolygon x y (outer zone)); simpl; [|split; [discriminate | intros [? _]; discriminate]].
  destruct (pointInBounds x y (outerBounds zone) (- ZONE_EDGE_PADDING_NORM)); simpl;
    [|split; [discriminate | intros (_ & _ & _ & ?); discriminate]].
  destruct (existsb (fun hole => pointInPolygon x y hole) (zholes zone)) eqn:Hholes.
  - split; [discriminate|]. intros (_ & Hno & _). apply existsb_exists in Hholes.
    destruct Hholes as (hole & Hin & Hhit). rewrite (Hno hole Hin) in Hhit. discriminate.
  - rewrite negb_true_iff. split.
    + intro Hb. repeat split; try reflexivity.
      * intros hole Hin. destruct (pointInPolygon x y hole) eqn:E; [|reflexivity].
        assert (Hex : existsb (fun hole => pointInPolygon x y hole) (zholes zone) = true)
          by (apply existsb_exists; now exists hole).
        congruence.
      * intros b Hin. destruct (pointInBounds x y b HOLE_PADDING_NORM) eqn:E; [|reflexivity].
        assert (Hex : existsb (fun b => pointInBounds x y b HOLE_PADDING_NORM) (holeBounds zone) = true)
          by (apply existsb_exists; now exists b).
        congruence.
    + intros (_ & _ & Hnb & _).
      destruct (existsb _ (holeBounds zone)) eqn:E; [|reflexivity].
      apply existsb_exists in E. destruct E as (b & Hin & Hhit).
      rewrite (Hnb b Hin) in Hhit. discriminate.
Qed.

Lemma snap_unit (coordinates : NormalizedCoordinates) (zid : string) :
  inUnit (c_x (snapCoordinatesToFloor coordinates zid)) /\
  inUnit (c_y (snapCoordinatesToFloor coordinates zid)).
Proof.
  unfold snapCoordinatesToFloor.
  destruct (JsMap.get (ZONE_GEOMETRY_BY_ID zm) zid) as [zone|] eqn:Hzone.
  - pose proof (zone_centroid_unit _ _ Hzone) as Hc.
    destruct (pointInZoneWalkable _ _ zone); [simpl; split; apply clampRange_unit|].
    destruct (negb _); [exact Hc|].
    destruct (spiralSnap _ _ _ _ _) as [snapped|] eqn:Hsnap; [|exact Hc].
    apply spiralSnap_Some in Hsnap. simpl. tauto.
  - destruct (walkableAnywhere _ _); [simpl; split; apply clampRange_unit|].
    destruct (spiralSnap _ _ _ _ _) as [snapped|] eqn:Hsnap;
      [|simpl; split; apply clampRange_unit].
    apply spiralSnap_Some in Hsnap. simpl. tauto.
Qed.

(** With a zone of the map, the snap ends on a walkable point of the zone or
    on the zone's centroid. *)
Lemma snap_walkable_or_centroid (coordinates : NormalizedCoordinates) (zid : string)
    (zone : ZoneGeometry) :
  JsMap.get (ZONE_GEOMETRY_BY_ID zm) zid = Some zone ->
  let snapped := snapCoordinatesToFloor coordinates zid in
  walkableInZone (c_x snapped) (c_y snapped) zone \/
  (c_x snapped = fst (zcentroid zone) /\ c_y snapped = snd (zcentroid zone)).
Proof.
  intro Hzone. unfold snapCoordinatesToFloor. rewrite Hzone.
  destruct (pointInZoneWalkable _ _ zone) eqn:Hw.
  - left. now apply pointInZoneWalkable_spec.
  - destruct (negb _); [right; split; reflexivity|].
    destruct (spiralSnap _ _ _ _ _) as [snapped|] eqn:Hsnap; [|right; split; reflexivity].
    apply spiralSnap_Some in Hsnap. left. apply pointInZoneWalkable_spec. simpl. tauto.
Qed.

(** What an accepted record went through: the four gates of
    [adaptRawEvent], and where the position and zone of the event come from. *)
Lemma adaptRawEvent_Some (value : JsVal) (options : NormalizeOptions) (ev : EventItem) :
  adaptRawEvent value options = Some ev ->
  exists coordinates,
    extractCoordinates value (parseId (pickValue value CAMERA_ID_PATHS)) = Some coordinates /\
    asRecord value = Some value /\
    resolveId (parseId (pickValue value ID_PATHS)) (parseId (pickValue value CAMERA_ID_PATHS))
              (parseId (pickValue value TRACK_ID_PATHS)) = Some (e_id ev) /\
    parseEpochMs (pickValue value DETECTED_AT_PATHS) = Some (e_detected_at ev) /\
    e_zone_id ev = resolveZoneId value coordinates /\
    e_x ev = c_x (snapCoordinatesToFloor coordinates (e_zone_id ev)) /\
    e_y ev = c_y (snapCoordinatesToFloor coordinates (e_zone_id ev)).
Proof.
  unfold adaptRawEvent, asRecord.
  destruct (isObjectLike value); [|discriminate].
  destruct (resolveId _ _ _) as [id|]; [|discriminate].
  destruct (parseEpochMs (pickValue value DETECTED_AT_PATHS)) as [detectedAt|]; [|discriminate].
  destruct (extractCoordinates _ _) as [coordinates|]; [|discriminate].
  intros [= <-]. exists coordinates. cbn [e_id e_detected_at e_zone_id e_x e_y].
  repeat split; reflexivity.
Qed.

(** C1.  Every event that [adaptRawEvent] returns has both coordinates in
    the closed interval [0, 1], whatever branch of the cascade and of the
    snap produced them. *)
Theorem adaptRawEvent_xy_in_unit_square (value : JsVal) (options : NormalizeOptions)
    (ev : EventItem) :
  adaptRawEvent value options = Some ev ->
  0 <= e_x ev <= 1 /\ 0 <= e_y ev <= 1.
Proof.
  intro Hev. destruct (adaptRawEvent_Some _ _ _ Hev) as (c & _ & _ & _ & _ & _ & -> & ->).
  apply snap_unit.
Qed.

(** C2.  When the zone id of an accepted event names a zone of the loaded
    map, the event's point is walkable in that zone (inside the outer
    polygon, outside every hole polygon and every padded hole box, inside the
    edge-padded outer bounds) or is exactly the zone's centroid. *)
Theorem adaptRawEvent_walkable_or_centroid (value : JsVal) (options : NormalizeOptions)
    (ev : EventItem) (zone : ZoneGeometry) :
  adaptRawEvent value options = Some ev ->
  JsMap.get (ZONE_GEOMETRY_BY_ID zm) (e_zone_id ev) = Some zone ->
  walkableInZone (e_x ev) (e_y ev) zone \/
  (e_x ev = fst (zcentroid zone) /\ e_y ev = snd (zcentroid zone)).
Proof.
  intros Hev Hzone. destruct (adaptRawEvent_Some _ _ _ Hev) as (c & _ & _ & _ & _ & _ & -> & ->).
  now apply snap_walkable_or_centroid.
Qed.

End SnapFacts.

(** Witness of C1: the record [{ id: "e1", ts: ..., x: 0.2, y: 0.2,
    status: "open" }] on the sample floor. *)
Lemma adaptRawEvent_xy_in_unit_square_witness :
  exists ev, adaptRawEvent (H := Demo.host) Demo.recordOpen Demo.options = Some ev /\
             (0 <= e_x ev <= 1 /\ 0 <= e_y ev <= 1).
Proof.
  eexists. split; [vm_compute; reflexivity|].
  apply (adaptRawEvent_xy_in_unit_square (H := Demo.host) Demo.recordOpen Demo.options).
  vm_compute. reflexivity.
Defined.

(** Witness of C2: a record placed on the island of zone-a is moved by the
    spiral search to a walkable point of the zone. *)
Lemma adaptRawEvent_walkable_or_centroid_witness :
  exists ev zone,
    adaptRawEvent (H := Demo.host) Demo.recordOnIsland Demo.options = Some ev /\
    JsMap.get (ZONE_GEOMETRY_BY_ID Demo.zoneMap) (e_zone_id ev) = Some zone /\
    (walkableInZone (H := Demo.host) (e_x ev) (e_y ev) zone \/
     (e_x ev = fst (zcentroid zone) /\ e_y ev = snd (zcentroid zone))).
Proof.
  eexists. eexists. split; [vm_compute; reflexivity|]. split; [vm_compute; reflexivity|].
  apply (adaptRawEvent_walkable_or_centroid (H := Demo.host) Demo.recordOnIsland Demo.options).
  - vm_compute. reflexivity.
  - vm_compute. reflexivity.
Defined.

(** ** Frame-relative normalization of a bounding box (step 4) *)

Lemma clampRange_inside (v : Q) : 0 <= v <= 1 -> clampRange v 0 1 == v.
Proof.
  intros [H0 H1]. unfold clampRange.
  rewrite Q.min_r by exact H1. now rewrite Q.max_r.
Qed.

Lemma clampRange_above (v : Q) : 1 <= v -> clampRange v 0 1 == 1.
Proof.
  intro H1. unfold clampRange. rewrite Q.min_l by exact H1. rewrite Q.max_r; lra.
Qed.

Lemma clampRange_below (v : Q) : v <= 0 -> clampRange v 0 1 == 0.
Proof.
  intro H0. unfold clampRange. rewrite Q.min_r by lra. rewrite Q.max_l; lra.
Qed.

(** C10, amended.  A bottom-centre coordinate in [0, 1] is returned as it
    is; one in (1, 100] is divided by 100, whatever the frame size; the frame
    size divides only a coordinate outside [0, 100]: above 100 (result capped
    at 1) or below 0 (result 0); with no positive frame size such a
    coordinate is rejected. *)
Theorem normalizeCoordinateWithFrame_cases (value frameSize : Q) :
  (0 <= value <= 1 -> normalizeCoordinateWithFrame value frameSize = Some value) /\
  (1 < value <= 100 ->
     exists r, normalizeCoordinateWithFrame value frameSize = Some r /\ r == value / 100) /\
  (100 < value -> 0 < frameSize ->
     exists r, normalizeCoordinateWithFrame value frameSize = Some r /\
               r == Qmin 1 (value / frameSize)) /\
  (value < 0 -> 0 < frameSize ->
     exists r, normalizeCoordinateWithFrame value frameSize = Some r /\ r == 0) /\
  ((value < 0 \/ 100 < value) -> frameSize <= 0 ->
     normalizeCoordinateWithFrame value frameSize = None).
Proof.
  unfold normalizeCoordinateWithFrame.
  repeat split.
  - intros [H0 H1].
    apply Qgeb_ge in H0. apply Qle_bool_iff in H1. now rewrite H0, H1.
  - intros [H1 H100].
    assert (E0 : Qgeb value 0 = true) by (apply Qgeb_ge; lra).
    assert (E1 : Qle_bool value 1 = false).
    { destruct (Qle_bool value 1) eqn:E; [apply Qle_bool_iff in E; lra | reflexivity]. }
    assert (E100 : Qle_bool value 100 = true) by (apply Qle_bool_iff; lra).
    rewrite E0, E1, E100. simpl. eexists. split; [reflexivity|].
    apply clampRange_inside. split.
    + apply Qle_shift_div_l; lra.
    + apply Qle_shift_div_r; lra.
  - intros H100 Hf.
    assert (E0 : Qgeb value 0 = true) by (apply Qgeb_ge; lra).
    assert (E1 : Qle_bool value 1 = false).
    { destruct (Qle_bool value 1) eqn:E; [apply Qle_bool_iff in E; lra | reflexivity]. }
    assert (E100 : Qle_bool value 100 = false).
    { destruct (Qle_bool value 100) eqn:E; [apply Qle_bool_iff in E; lra | reflexivity]. }
    assert (Ef : Qgtb frameSize 0 = true) by (now apply Qgtb_gt).
    rewrite E0, E1, E100, Ef. simpl. eexists. split; [reflexivity|].
    unfold clampRange. apply Q.max_r.
    apply Q.min_glb; [lra|]. apply Qle_shift_div_l; lra.
  - intros Hneg Hf.
    assert (E0 : Qgeb value 0 = false).
    { unfold Qgeb. destruct (Qle_bool 0 value) eqn:E; [apply Qle_bool_iff in E; lra | reflexivity]. }
    assert (Ef : Qgtb frameSize 0 = true) by (now apply Qgtb_gt).
    rewrite E0, Ef. simpl. eexists. split; [reflexivity|].
    apply clampRange_below. apply Qle_shift_div_r; lra.
  - intros Hout Hf.
    assert (Ef : Qgtb frameSize 0 = false) by (now apply Qgtb_le).
    rewrite Ef. destruct Hout as [Hneg | H100].
    + assert (E0 : Qgeb value 0 = false).
      { unfold Qgeb. destruct (Qle_bool 0 value) eqn:E; [apply Qle_bool_iff in E; lra | reflexivity]. }
      now rewrite E0.
    + assert (E1 : Qle_bool value 1 = false).
      { destruct (Qle_bool value 1) eqn:E; [apply Qle_bool_iff in E; lra | reflexivity]. }
      assert (E100 : Qle_bool value 100 = false).
      { destruct (Qle_bool value 100) eqn:E; [apply Qle_bool_iff in E; lra | reflexivity]. }
      rewrite E1, E100. now rewrite !andb_false_r.
Qed.

(** Witness of C10: pixel 20 on a frame 500 wide is 0.2, and 0.5 stays 0.5. *)
Lemma normalizeCoordinateWithFrame_cases_witness :
  normalizeCoordinateWithFrame 0.5 500 = Some 0.5 /\
  (exists r, normalizeCoordinateWithFrame 20 500 = Some r /\ r == 20 / 100).
Proof.
  destruct (normalizeCoordinateWithFrame_cases 0.5 500) as (Hunit & _).
  destruct (normalizeCoordinateWithFrame_cases 20 500) as (_ & Hpercent & _).
  split.
  - apply Hunit. split; [discriminate | discriminate].
  - apply Hpercent. split; [reflexivity | discriminate].
Defined.

(** Counterexample to C10 as stated: the bottom centre of the box
    [0.4, 0.2, 0.6, 0.5] on a declared 500 x 500 frame, with no camera
    calibrated, is [(0.5, 0.5)]; both values lie in [0, 100] and neither is
    divided by 100. *)
Lemma frame_box_in_unit_range_not_divided :
  exists c, extractBBoxCoordinates (H := Demo.host) Demo.recordUnitBox None true = Some c /\
            c_x c == 0.5 /\ c_y c == 0.5 /\
            ~ c_x c == ((0.4 + 0.6) / 2) / 100 /\ ~ c_y c == 0.5 / 100.
Proof.
  eexists. split; [vm_compute; reflexivity|].
  repeat split; try reflexivity; intro Habs; discriminate Habs.
Qed.

(** The example of the claim: the box [10, 20, 30, 80] on a declared
    500 x 500 frame gives [(0.2, 0.8)]. *)
Example frame_box_pixels_divided_by_100 :
  exists c, extractBBoxCoordinates (H := Demo.host) Demo.recordPixelBox None true = Some c /\
            c_x c == 0.2 /\ c_y c == 0.8.
Proof.
  eexists. split; [vm_compute; reflexivity|]. split; reflexivity.
Qed.

(** ** The gates of [adaptRawEvent] *)
Section GateFacts.
Context {H : Host}.

Lemma pickValue_candidate (record : JsVal) (paths : list string) :
  pickValue record paths = candidate record paths.
Proof.
  unfold candidate, firstPresent.
  induction paths as [|path rest IH]; simpl; [reflexivity|].
  destruct (isPresent (readPath record path)); [reflexivity | exact IH].
Qed.

Lemma resolveId_None (explicitId cameraId trackId : option string) :
  resolveId explicitId cameraId trackId = None <-> explicitId = None /\ trackId = None.
Proof.
  unfold resolveId. destruct explicitId, trackId; split;
    try discriminate; try tauto; intros [? ?]; discriminate.
Qed.

(** C3, amended.  [adaptRawEvent] returns [null] exactly when the input is
    not an object, or neither the first present id field nor the first
    present track-id field parses to an id, or the first present timestamp
    field does not parse to a valid timestamp (a later candidate field is not
    consulted), or the coordinate cascade resolves nothing.  In every other
    case it returns an event. *)
Theorem adaptRawEvent_null_iff (value : JsVal) (options : NormalizeOptions) :
  adaptRawEvent value options = None <->
  asRecord value = None \/
  (parseId (candidate value ID_PATHS) = None /\
   parseId (candidate value TRACK_ID_PATHS) = None) \/
  parseEpochMs (candidate value DETECTED_AT_PATHS) = None \/
  extractCoordinates value (parseId (candidate value CAMERA_ID_PATHS)) = None.
Proof.
  rewrite <- !pickValue_candidate.
  unfold adaptRawEvent, asRecord.
  destruct (isObjectLike value); [|split; [now left | reflexivity]].
  destruct (resolveId _ _ _) as [id|] eqn:Hid.
  - assert (Hno : ~ (parseId (pickValue value ID_PATHS) = None /\
                     parseId (pickValue value TRACK_ID_PATHS) = None)).
    { intro Habs. apply (resolveId_None _ (parseId (pickValue value CAMERA_ID_PATHS))) in Habs.
      congruence. }
    destruct (parseEpochMs (pickValue value DETECTED_AT_PATHS)) as [detectedAt|].
    + destruct (extractCoordinates _ _) as [coordinates|].
      * split; [discriminate|]. intros [Ha | [Hb | [Hc | Hd]]];
          [discriminate | contradiction | discriminate | discriminate].
      * split; [now right; right; right | reflexivity].
    + split; [now right; right; left | reflexivity].
  - apply resolveId_None in Hid. split; [right; left; exact Hid | reflexivity].
Qed.

End GateFacts.

(** Counterexample to C3 as stated: [{ id: "e1", detected_at: 0,
    ts: 1700000000000, x: 0.2, y: 0.2 }] is an object with an explicit id, a
    valid timestamp in the candidate field [ts] and explicit coordinates, and
    [adaptRawEvent] returns [null] for it: [detected_at] is read first and
    rejected, [ts] is never read. *)
Lemma adaptRawEvent_null_despite_valid_timestamp :
  adaptRawEvent (H := Demo.host) Demo.recordUnsetDetectedAt Demo.options = None /\
  asRecord Demo.recordUnsetDetectedAt <> None /\
  ~ noIdentityAnywhere Demo.recordUnsetDetectedAt /\
  ~ noTimestampAnywhere (H := Demo.host) Demo.recordUnsetDetectedAt /\
  ~ noCoordinates (H := Demo.host) Demo.recordUnsetDetectedAt.
Proof.
  split; [vm_compute; reflexivity|]. split; [discriminate|]. split; [|split].
  - intros [Hid _]. specialize (Hid "id" (or_introl eq_refl)). discriminate Hid.
  - intro Hts. specialize (Hts "ts" (or_intror (or_intror (or_introl eq_refl)))).
    vm_compute in Hts. discriminate Hts.
  - unfold noCoordinates. vm_compute. discriminate.
Qed.

(** ** More on insertion-ordered maps *)
Section JsMapKeys.
Context {V : Type}.
Implicit Types (m : JsMap.t (V := V)) (k : string) (v : V).

Lemma get_None_keys m k : JsMap.get m k = None <-> ~ In k (JsMap.keys m).
Proof.
  induction m as [|[k' v'] rest IH]; simpl; [tauto|].
  destruct (String.eqb k' k) eqn:E.
  - apply String.eqb_eq in E. subst. split; [discriminate | intro Hn; exfalso; apply Hn; now left].
  - apply String.eqb_neq in E. rewrite IH. tauto.
Qed.

Lemma keys_set_present m k v v0 :
  JsMap.get m k = Some v0 -> JsMap.keys (JsMap.set m k v) = JsMap.keys m.
Proof.
  induction m as [|[k' v'] rest IH]; simpl; [discriminate|].
  destruct (String.eqb k' k) eqn:E; simpl; [reflexivity|].
  intro Hget. now rewrite IH.
Qed.

Lemma keys_set_absent m k v :
  JsMap.get m k = None -> JsMap.keys (JsMap.set m k v) = (JsMap.keys m ++ [k])%list.
Proof.
  induction m as [|[k' v'] rest IH]; simpl; [reflexivity|].
  destruct (String.eqb k' k) eqn:E; simpl; [discriminate|].
  intro Hget. now rewrite IH.
Qed.

Lemma NoDup_keys_set m k v : NoDup (JsMap.keys m) -> NoDup (JsMap.keys (JsMap.set m k v)).
Proof.
  intro Hnd. destruct (JsMap.get m k) as [v0|] eqn:Hget.
  - now rewrite (keys_set_present _ _ _ _ Hget).
  - rewrite (keys_set_absent _ _ _ Hget).
    apply NoDup_app; [exact Hnd | constructor; [intros [] | constructor] |].
    intros x Hx [<- | []]. now apply get_None_keys in Hget.
Qed.

Lemma NoDup_keys_get m k v : NoDup (JsMap.keys m) -> In (k, v) m -> JsMap.get m k = Some v.
Proof.
  induction m as [|[k' v'] rest IH]; simpl; [intros _ []|].
  intros Hnd [Heq | Hin].
  - inversion Heq; subst. now rewrite String.eqb_refl.
  - inversion Hnd as [|? ? Hnotin Hnd']; subst.
    destruct (String.eqb k' k) eqn:E; [|now apply IH].
    apply String.eqb_eq in E. subst k'. exfalso. apply Hnotin.
    change k with (fst (k, v)). now apply in_map.
Qed.

Lemma NoDup_keys_ofEntries_from (entries : list (string * V)) m :
  NoDup (JsMap.keys m) ->
  NoDup (JsMap.keys (fold_left (fun m kv => JsMap.set m (fst kv) (snd kv)) entries m)).
Proof.
  revert m. induction entries as [|kv rest IH]; intros m Hnd; simpl; [exact Hnd|].
  apply IH. now apply NoDup_keys_set.
Qed.

Lemma NoDup_keys_ofEntries (entries : list (string * V)) :
  NoDup (JsMap.keys (JsMap.ofEntries entries)).
Proof. apply NoDup_keys_ofEntries_from. constructor. Qed.

End JsMapKeys.

(** ** Sorting and slicing *)
Section SortFacts.
Context {A : Type} (compare : A -> A -> Z).

Lemma sortInsert_perm (a : A) (l : list A) : Permutation (sortInsert compare a l) (a :: l).
Proof.
  induction l as [|b rest IH]; simpl; [reflexivity|].
  destruct (compare a b <=? 0)%Z; [reflexivity|].
  rewrite IH. apply perm_swap.
Qed.

Lemma jsSort_perm (l : list A) : Permutation (jsSort compare l) l.
Proof.
  induction l as [|a rest IH]; simpl; [reflexivity|].
  unfold jsSort in *. simpl. rewrite sortInsert_perm. now constructor.
Qed.

Variable R : A -> A -> Prop.
Hypothesis R_compare : forall a b, (compare a b <= 0)%Z <-> R a b.
Hypothesis R_total : forall a b, ~ R a b -> R b a.
Hypothesis R_trans : forall a b c, R a b -> R b c -> R a c.

Lemma sortInsert_sorted (a : A) (l : list A) :
  StronglySorted R l -> StronglySorted R (sortInsert compare a l).
Proof.
  induction l as [|b rest IH]; intro Hs; simpl.
  - constructor; constructor.
  - inversion Hs as [|? ? Hrest Hall]; subst.
    destruct (compare a b <=? 0)%Z eqn:E.
    + apply Z.leb_le, R_compare in E. constructor; [exact Hs|].
      constructor; [exact E|].
      apply Forall_forall. intros x Hx. rewrite Forall_forall in Hall.
      apply (R_trans a b x E). now apply Hall.
    + apply Z.leb_gt in E.
      assert (Hba : R b a) by (apply R_total; rewrite <- R_compare; lia).
      constructor; [now apply IH|].
      apply Forall_forall. intros x Hx.
      apply (Permutation_in _ (sortInsert_perm a rest)) in Hx. destruct Hx as [<- | Hx].
      * exact Hba.
      * rewrite Forall_forall in Hall. now apply Hall.
Qed.

Lemma jsSort_sorted (l : list A) : StronglySorted R (jsSort compare l).
Proof.
  induction l as [|a rest IH]; [constructor|].
  unfold jsSort in *. simpl. now apply sortInsert_sorted.
Qed.

End SortFacts.

Lemma In_firstn {A : Type} (n : nat) (l : list A) (x : A) : In x (firstn n l) -> In x l.
Proof.
  revert n. induction l as [|a rest IH]; intros n; destruct n; simpl; try tauto.
  intros [<- | Hin]; [now left | right; now apply (IH n)].
Qed.

Lemma StronglySorted_firstn {A : Type} (R : A -> A -> Prop) (n : nat) (l : list A) :
  StronglySorted R l -> StronglySorted R (firstn n l).
Proof.
  revert n. induction l as [|a rest IH]; intros n Hs; destruct n; simpl; try constructor.
  - inversion Hs; subst. now apply IH.
  - inversion Hs as [|? ? _ Hall]; subst. rewrite Forall_forall in *.
    intros x Hx. apply Hall. eapply In_firstn. exact Hx.
Qed.

Lemma NoDup_firstn {A : Type} (n : nat) (l : list A) : NoDup l -> NoDup (firstn n l).
Proof.
  revert n. induction l as [|a rest IH]; intros n Hnd; destruct n; simpl; try constructor.
  - inversion Hnd as [|? ? Hnotin _]; subst. intro Hin. apply Hnotin.
    eapply In_firstn. exact Hin.
  - inversion Hnd; subst. now apply IH.
Qed.

Lemma filterMap_In {A B : Type} (f : A -> option B) (l : list A) (b : B) :
  In b (filterMap f l) <-> exists a, In a l /\ f a = Some b.
Proof.
  induction l as [|a rest IH]; simpl.
  - split; [intros [] | intros (a & [] & _)].
  - destruct (f a) as [b'|] eqn:E; simpl; rewrite IH; split.
    + intros [<- | (a' & Hin & Hf)]; [exists a; tauto | exists a'; tauto].
    + intros (a' & [<- | Hin] & Hf); [left; congruence | right; now exists a'].
    + intros (a' & Hin & Hf). exists a'. tauto.
    + intros (a' & [<- | Hin] & Hf); [congruence | now exists a'].
Qed.

(** ** [normalizeEventFeed] *)
Section FeedFacts.
Context {H : Host}.

Lemma compareEvents_feedOrder (a b : EventItem) :
  (compareEvents a b <= 0)%Z <-> feedOrder a b.
Proof.
  unfold compareEvents, feedOrder.
  destruct (e_detected_at b =? e_detected_at a)%Z eqn:Ed; simpl.
  - apply Z.eqb_eq in Ed.
    destruct (e_ingested_at b =? e_ingested_at a)%Z eqn:Ei; simpl.
    + apply Z.eqb_eq in Ei. split; [intro Hc; right; split; [lia | right; split; [lia | exact Hc]]|].
      intros [Hgt | (_ & [Hgt | (_ & Hc)])]; [lia | lia | exact Hc].
    + apply Z.eqb_neq in Ei. split; [intro Hc; right; split; [lia | left; lia]|].
      intros [Hgt | (_ & [Hgt | (Heq & _)])]; lia.
  - apply Z.eqb_neq in Ed. split; [intro Hc; left; lia|].
    intros [Hgt | (Heq & _)]; lia.
Qed.

Lemma feedOrder_total : lawfulCompare H -> forall a b, ~ feedOrder a b -> feedOrder b a.
Proof.
  intros [Htot _] a b Hn. unfold feedOrder in *.
  destruct (Z.lt_total (e_detected_at a) (e_detected_at b)) as [Hlt | [Heq | Hgt]];
    [left; lia | | exfalso; apply Hn; left; lia].
  right. split; [lia|].
  destruct (Z.lt_total (e_ingested_at a) (e_ingested_at b)) as [Hlt | [Heq' | Hgt]];
    [left; lia | | exfalso; apply Hn; right; split; [exact Heq | left; lia]].
  right. split; [lia|]. apply Htot.
  destruct (Z_lt_le_dec 0 (localeCompare (e_id a) (e_id b))) as [Hpos | Hle]; [exact Hpos|].
  exfalso. apply Hn. right. split; [exact Heq|]. right. split; [exact Heq' | exact Hle].
Qed.

Lemma feedOrder_trans : lawfulCompare H -> forall a b c,
  feedOrder a b -> feedOrder b c -> feedOrder a c.
Proof.
  intros [_ Htr] a b c Hab Hbc. unfold feedOrder in *.
  destruct Hab as [Hab | (Hab & [Hab' | (Hab' & Hab'')])];
  destruct Hbc as [Hbc | (Hbc & [Hbc' | (Hbc' & Hbc'')])];
    try (left; lia); try (right; split; [lia|]; left; lia).
  right. split; [lia|]. right. split; [lia|]. exact (Htr _ _ _ Hab'' Hbc'').
Qed.

(** What [dedupedById] holds once the events [seen] went through the loop. *)
Definition dedupInv (seen : list EventItem) (m : JsMap.t (V := EventItem)) : Prop :=
  NoDup (JsMap.keys m) /\
  (forall k v, In (k, v) m -> k = e_id v /\ In v seen) /\
  (forall e, In e seen -> exists v, JsMap.get m (e_id e) = Some v /\ notOlder v e).

Lemma notOlder_refl (e : EventItem) : notOlder e e.
Proof. right. split; lia. Qed.

Lemma dedupInv_step (seen : list EventItem) (m : JsMap.t (V := EventItem)) (e : EventItem) :
  dedupInv seen m -> dedupInv (seen ++ [e]) (dedupeStep m e).
Proof.
  intros (Hnd & Hent & Hcov).
  assert (Hreplace :
    (forall v, JsMap.get m (e_id e) = Some v -> strictlyNewer e v) ->
    dedupInv (seen ++ [e]) (JsMap.set m (e_id e) e)).
  { intro Hnewer. split; [now apply NoDup_keys_set|]. split.
    - intros k v Hin. apply In_set in Hin. destruct Hin as [Heq | Hin].
      + inversion Heq; subst. split; [reflexivity | apply in_or_app; right; now left].
      + destruct (Hent k v Hin) as [Hk Hv]. split; [exact Hk | apply in_or_app; now left].
    - intros e0 He0. apply in_app_or in He0.
      destruct (String.eqb (e_id e) (e_id e0)) eqn:E.
      + apply String.eqb_eq in E. rewrite <- E, get_set_same. exists e. split; [reflexivity|].
        destruct He0 as [He0 | [<- | []]]; [|apply notOlder_refl].
        destruct (Hcov e0 He0) as (v & Hget & Hno). rewrite <- E in Hget.
        specialize (Hnewer v Hget). unfold strictlyNewer, notOlder in *. lia.
      + apply String.eqb_neq in E. rewrite get_set_other by exact E.
        destruct He0 as [He0 | [<- | []]]; [now apply Hcov | congruence]. }
  assert (Hkeep :
    forall v, JsMap.get m (e_id e) = Some v -> notOlder v e -> dedupInv (seen ++ [e]) m).
  { intros v Hget Hno. split; [exact Hnd|]. split.
    - intros k v' Hin. destruct (Hent k v' Hin) as [Hk Hv].
      split; [exact Hk | apply in_or_app; now left].
    - intros e0 He0. apply in_app_or in He0. destruct He0 as [He0 | [<- | []]].
      + now apply Hcov.
      + now exists v. }
  unfold dedupeStep.
  destruct (JsMap.get m (e_id e)) as [existing|] eqn:Hget.
  - destruct (e_detected_at e >? e_detected_at existing)%Z eqn:Ed.
    + apply Hreplace. intros v [= <-]. left. lia.
    + destruct (e_detected_at e =? e_detected_at existing)%Z eqn:Ee; simpl.
      * destruct (e_ingested_at e >? e_ingested_at existing)%Z eqn:Ei.
        -- apply Hreplace. intros v [= <-]. right. lia.
        -- apply (Hkeep existing eq_refl). unfold notOlder. lia.
      * apply (Hkeep existing eq_refl). unfold notOlder. lia.
  - apply Hreplace. intros v Hv. discriminate.
Qed.

Lemma dedupInv_fold (l seen : list EventItem) (m : JsMap.t (V := EventItem)) :
  dedupInv seen m -> dedupInv (seen ++ l) (fold_left dedupeStep l m).
Proof.
  revert seen m. induction l as [|e l IH]; intros seen m Hinv; simpl.
  - now rewrite app_nil_r.
  - change (seen ++ e :: l)%list with (seen ++ [e] ++ l)%list. rewrite app_assoc.
    apply IH. now apply dedupInv_step.
Qed.

Lemma dedupInv_all (l : list EventItem) : dedupInv l (fold_left dedupeStep l []).
Proof.
  apply (dedupInv_fold l [] []). split; [constructor|]. split; [intros k v []|intros e []].
Qed.

Lemma values_ids (m : JsMap.t (V := EventItem)) :
  (forall k v, In (k, v) m -> k = e_id v) -> map e_id (JsMap.values m) = JsMap.keys m.
Proof.
  unfold JsMap.values, JsMap.keys. induction m as [|[k v] rest IH]; intro Hent; simpl; [reflexivity|].
  rewrite IH by (intros k' v' Hin; apply Hent; now right).
  now rewrite <- (Hent k v (or_introl eq_refl)).
Qed.

Lemma safeMaxEvents_range (options : NormalizeOptions) :
  1 <= safeMaxEvents options <= 1000.
Proof.
  unfold safeMaxEvents. split; [apply Q.le_max_l|].
  apply Q.max_lub; [lra | apply Q.le_min_l].
Qed.

Lemma safeMaxEvents_clamp (options : NormalizeOptions) (m : Q) :
  maxEvents options = Some m -> safeMaxEvents options == clampRange m 1 1000.
Proof.
  unfold safeMaxEvents, clampRange. intros ->.
  destruct (Qeq_bool m 0) eqn:E; [|reflexivity].
  apply Qeq_bool_iff in E. rewrite E.
  rewrite !Q.min_r by lra. rewrite !Q.max_l by lra. reflexivity.
Qed.

(** The whole feed before the slice: the events of the array, one per id,
    the newest of each id, in feed order. *)
Lemma sorted_feed_facts (items : list JsVal) (options : NormalizeOptions) :
  lawfulCompare H ->
  let full := jsSort compareEvents (JsMap.values (fold_left dedupeStep
                (filterMap (fun item => adaptRawEvent item options) items) [])) in
  (forall e, In e full -> exists item, In item items /\ adaptRawEvent item options = Some e) /\
  (forall item e, In item items -> adaptRawEvent item options = Some e ->
     exists kept, In kept full /\ e_id kept = e_id e /\ notOlder kept e) /\
  NoDup (map e_id full) /\
  StronglySorted feedOrder full.
Proof.
  intro Hlaw.
  set (normalized := filterMap (fun item => adaptRawEvent item options) items).
  set (m := fold_left dedupeStep normalized []).
  destruct (dedupInv_all normalized) as (Hnd & Hent & Hcov). fold m in Hnd, Hent, Hcov.
  pose proof (jsSort_perm compareEvents (JsMap.values m)) as Hperm.
  cbv zeta. split; [|split; [|split]].
  - intros e He. apply (Permutation_in _ Hperm) in He.
    unfold JsMap.values in He. apply in_map_iff in He. destruct He as ([k v] & <- & Hin).
    destruct (Hent k v Hin) as [_ Hseen]. now apply filterMap_In in Hseen.
  - intros item e Hitem Hadapt.
    assert (Hseen : In e normalized) by (apply filterMap_In; now exists item).
    destruct (Hcov e Hseen) as (v & Hget & Hno). exists v. split; [|split].
    + apply (Permutation_in _ (Permutation_sym Hperm)).
      apply get_In in Hget. unfold JsMap.values. apply in_map_iff. now exists (e_id e, v).
    + apply get_In in Hget. destruct (Hent _ _ Hget) as [Hk _]. now symmetry.
    + exact Hno.
  - apply (Permutation_NoDup (l := map e_id (JsMap.values m))).
    + apply Permutation_map. now apply Permutation_sym.
    + rewrite values_ids; [exact Hnd | intros k v Hin; now apply Hent].
  - apply jsSort_sorted.
    + apply compareEvents_feedOrder.
    + now apply feedOrder_total.
    + now apply feedOrder_trans.
Qed.

(** C4.  On an array, [normalizeEventFeed] returns the first
    [floor(maxEvents clamped to 1..1000)] events of a list [full] such that:
    every event of [full] is the normalization of an input element; every
    input element that normalizes to an event has its id in [full], held by
    an event at least as new by [(detected_at, ingested_at)]; no id occurs
    twice; and [full] is sorted by descending [detected_at], then descending
    [ingested_at], then id.  The returned list is sorted in the same order
    and has at most 1000 events. *)
Theorem normalizeEventFeed_spec (items : list JsVal) (options : NormalizeOptions) :
  lawfulCompare H ->
  exists full,
    normalizeEventFeed (JArr items) options =
      firstn (Z.to_nat (Qfloor (safeMaxEvents options))) full /\
    1 <= safeMaxEvents options <= 1000 /\
    (forall m, maxEvents options = Some m -> safeMaxEvents options == clampRange m 1 1000) /\
    (forall e, In e full -> exists item, In item items /\ adaptRawEvent item options = Some e) /\
    (forall item e, In item items -> adaptRawEvent item options = Some e ->
       exists kept, In kept full /\ e_id kept = e_id e /\ notOlder kept e) /\
    NoDup (map e_id full) /\
    StronglySorted feedOrder full /\
    StronglySorted feedOrder (normalizeEventFeed (JArr items) options) /\
    (List.length (normalizeEventFeed (JArr items) options) <= 1000)%nat.
Proof.
  intro Hlaw.
  destruct (sorted_feed_facts items options Hlaw) as (Hfrom & Hcov & Hnd & Hsorted).
  eexists. split; [reflexivity|]. split; [apply safeMaxEvents_range|].
  split; [apply safeMaxEvents_clamp|].
  split; [exact Hfrom|]. split; [exact Hcov|]. split; [exact Hnd|]. split; [exact Hsorted|].
  split.
  - unfold normalizeEventFeed, sliceTo. now apply StronglySorted_firstn.
  - unfold normalizeEventFeed, sliceTo. rewrite length_firstn.
    pose proof (safeMaxEvents_range options) as [_ Hmax].
    apply Qfloor_resp_le in Hmax. change (Qfloor 1000) with 1000%Z in Hmax. lia.
Qed.

End FeedFacts.

(** ** The sample host *)

Lemma ascii_compare_trans (a b c : ascii) :
  Ascii.compare a b <> Gt -> Ascii.compare b c <> Gt -> Ascii.compare a c <> Gt.
Proof.
  unfold Ascii.compare. rewrite !N.compare_le_iff. intros Hab Hbc. lia.
Qed.

Lemma ascii_compare_Eq (a b : ascii) : Ascii.compare a b = Eq -> a = b.
Proof.
  unfold Ascii.compare. intro Hc. apply N.compare_eq in Hc.
  rewrite <- (ascii_N_embedding a), <- (ascii_N_embedding b). now rewrite Hc.
Qed.

Lemma string_compare_trans (a b c : string) :
  String.compare a b <> Gt -> String.compare b c <> Gt -> String.compare a c <> Gt.
Proof.
  revert b c. induction a as [|ca a IH]; intros [|cb b] [|cc c]; simpl; try congruence.
  destruct (Ascii.compare ca cb) eqn:Eab; try congruence;
  destruct (Ascii.compare cb cc) eqn:Ebc; try congruence; intros Hab Hbc.
  - apply ascii_compare_Eq in Eab, Ebc. subst.
    assert (Hrefl : Ascii.compare cc cc = Eq) by (unfold Ascii.compare; apply N.compare_refl).
    rewrite Hrefl. now apply (IH b c).
  - apply ascii_compare_Eq in Eab. subst. now rewrite Ebc.
  - apply ascii_compare_Eq in Ebc. subst. now rewrite Eab.
  - assert (Hac : Ascii.compare ca cc = Lt).
    { unfold Ascii.compare in *. rewrite N.compare_lt_iff in *. lia. }
    now rewrite Hac.
Qed.

Lemma demo_host_lawful : lawfulCompare Demo.host.
Proof.
  split; simpl; unfold Demo.compareStrings.
  - intros a b. rewrite (String.compare_antisym b a).
    destruct (String.compare a b); simpl; lia.
  - intros a b c Hab Hbc.
    assert (Hac : String.compare a c <> Gt).
    { apply (string_compare_trans a b c).
      - destruct (String.compare a b); [discriminate | discriminate | lia].
      - destruct (String.compare b c); [discriminate | discriminate | lia]. }
    destruct (String.compare a c); [lia | lia | congruence].
Qed.

(** Witness of C4: the sample feed on the sample host. *)
Lemma normalizeEventFeed_spec_witness :
  exists full,
    normalizeEventFeed (H := Demo.host) Demo.feed Demo.options =
      firstn (Z.to_nat (Qfloor (safeMaxEvents Demo.options))) full /\
    map e_id (normalizeEventFeed (H := Demo.host) Demo.feed Demo.options) = ["e0"; "e1"] /\
    map e_severity (normalizeEventFeed (H := Demo.host) Demo.feed Demo.options) = [1%Z; 3%Z] /\
    NoDup (map e_id full) /\
    StronglySorted (feedOrder (H := Demo.host)) full.
Proof.
  destruct (normalizeEventFeed_spec (H := Demo.host) Demo.feedItems Demo.options demo_host_lawful)
    as (full & Hout & _ & _ & _ & _ & Hnd & Hsorted & _).
  exists full. split; [exact Hout|]. split; [vm_compute; reflexivity|].
  split; [vm_compute; reflexivity|]. split; [exact Hnd | exact Hsorted].
Defined.

(** ** Merging into the canonical set *)
Section MergeFacts.
Context {H : Host}.
Import Sync.

Lemma spreadEvent_incoming (prev event : EventItem) : spreadEvent prev event = event.
Proof. now destruct event. Qed.

Lemma mergeStep_set (m : JsMap.t (V := EventItem)) (event : EventItem) :
  mergeStep m event = JsMap.set m (e_id event) event.
Proof.
  unfold mergeStep. destruct (JsMap.get m (e_id event)); [now rewrite spreadEvent_incoming | reflexivity].
Qed.

(** Every entry of the map is filed under the id of its event. *)
Definition keyedById (m : JsMap.t (V := EventItem)) : Prop :=
  forall k v, In (k, v) m -> k = e_id v.

Lemma keyedById_mergeStep (m : JsMap.t (V := EventItem)) (event : EventItem) :
  keyedById m -> keyedById (mergeStep m event).
Proof.
  intros Hm k v Hin. rewrite mergeStep_set in Hin. apply In_set in Hin.
  destruct Hin as [Heq | Hin]; [now inversion Heq | now apply Hm].
Qed.

Lemma mergedMap_invariant (existing incoming : list EventItem) :
  keyedById (mergedMap existing incoming) /\ NoDup (JsMap.keys (mergedMap existing incoming)).
Proof.
  unfold mergedMap.
  assert (Hstart : keyedById (JsMap.ofEntries (map (fun event => (e_id event, event)) existing)) /\
                   NoDup (JsMap.keys (JsMap.ofEntries (map (fun event => (e_id event, event)) existing)))).
  { split; [|apply NoDup_keys_ofEntries].
    intros k v Hin. apply In_ofEntries in Hin. apply in_map_iff in Hin.
    destruct Hin as (e & Heq & _). now inversion Heq. }
  revert Hstart. generalize (JsMap.ofEntries (map (fun event => (e_id event, event)) existing)).
  induction incoming as [|e rest IH]; intros m [Hk Hnd]; simpl; [now split|].
  apply IH. split; [now apply keyedById_mergeStep|].
  rewrite mergeStep_set. now apply NoDup_keys_set.
Qed.

Lemma get_fold_mergeStep_other (after : list EventItem) (m : JsMap.t (V := EventItem))
    (k : string) :
  (forall e, In e after -> e_id e <> k) ->
  JsMap.get (fold_left mergeStep after m) k = JsMap.get m k.
Proof.
  revert m. induction after as [|e rest IH]; intros m Hno; simpl; [reflexivity|].
  rewrite IH by (intros e' He'; apply Hno; now right).
  rewrite mergeStep_set. apply get_set_other. apply Hno. now left.
Qed.

(** The map holds the last incoming event of an id as it came in. *)
Lemma mergedMap_last_incoming (existing before after : list EventItem) (e : EventItem) :
  (forall e', In e' after -> e_id e' <> e_id e) ->
  JsMap.get (mergedMap existing (before ++ e :: after)) (e_id e) = Some e.
Proof.
  intro Hno. unfold mergedMap. rewrite fold_left_app. simpl.
  rewrite get_fold_mergeStep_other by exact Hno.
  rewrite mergeStep_set. apply get_set_same.
Qed.

Lemma mergeEvents_In (existing incoming : list EventItem) (kept : EventItem) :
  In kept (mergeEvents existing incoming) ->
  JsMap.get (mergedMap existing incoming) (e_id kept) = Some kept.
Proof.
  unfold mergeEvents, sliceTo. intro Hin. apply In_firstn in Hin.
  apply (Permutation_in _ (jsSort_perm compareEvents _)) in Hin.
  unfold JsMap.values in Hin. apply in_map_iff in Hin. destruct Hin as ([k v] & <- & Hin).
  destruct (mergedMap_invariant existing incoming) as [Hk Hnd].
  simpl. rewrite <- (Hk k v Hin). now apply NoDup_keys_get.
Qed.

Lemma applyIncomingSyncBatch_In (existing : list EventItem) (incoming : IncomingSyncBatch)
    (kept : EventItem) :
  mode incoming = merge ->
  In kept (applyIncomingSyncBatch existing incoming) ->
  In kept (mergeEvents existing (upsert incoming)).
Proof.
  unfold applyIncomingSyncBatch, sliceTo. intros -> Hin. apply In_firstn in Hin.
  apply (Permutation_in _ (jsSort_perm compareEvents _)) in Hin.
  destruct (removeIds incoming); [exact Hin|].
  apply filter_In in Hin. tauto.
Qed.

(** C7, amended.  In [mergeEvents], and in [applyIncomingSyncBatch] in
    merge mode, an incoming event always takes the place of the event that
    shares its id: the entry of that id in the result, when it survives the
    removals and the cut at 600, is the last incoming event of the id with all
    its field values, whether or not it is newer than the event it replaces;
    and in [mergeEvents] it does survive when the merged set has at most 600
    ids. *)
Theorem merge_incoming_always_overrides (existing before after : list EventItem)
    (e : EventItem) (removed : list string) :
  (forall e', In e' after -> e_id e' <> e_id e) ->
  (forall kept, In kept (mergeEvents existing (before ++ e :: after)) ->
     e_id kept = e_id e -> kept = e) /\
  (forall kept,
     In kept (applyIncomingSyncBatch existing
                {| mode := merge; upsert := before ++ e :: after; removeIds := removed |}) ->
     e_id kept = e_id e -> kept = e) /\
  ((List.length (mergedMap existing (before ++ e :: after)) <= 600)%nat ->
   In e (mergeEvents existing (before ++ e :: after))).
Proof.
  intro Hlast.
  pose proof (mergedMap_last_incoming existing before after e Hlast) as Hget.
  assert (Hmerge : forall kept, In kept (mergeEvents existing (before ++ e :: after)) ->
                                e_id kept = e_id e -> kept = e).
  { intros kept Hin Hid. apply mergeEvents_In in Hin. rewrite Hid in Hin. congruence. }
  split; [exact Hmerge|]. split.
  - intros kept Hin Hid. apply Hmerge; [|exact Hid].
    exact (applyIncomingSyncBatch_In existing
             {| mode := merge; upsert := before ++ e :: after; removeIds := removed |}
             kept eq_refl Hin).
  - intro Hsize. unfold mergeEvents, sliceTo.
    rewrite firstn_all2.
    + apply (Permutation_in _ (Permutation_sym (jsSort_perm compareEvents _))).
      apply get_In in Hget. unfold JsMap.values. apply in_map_iff. now exists (e_id e, e).
    + rewrite (Permutation_length (jsSort_perm compareEvents _)).
      unfold JsMap.values. rewrite length_map.
      change (Z.to_nat (Qfloor MAX_EVENTS)) with 600%nat. exact Hsize.
Qed.

End MergeFacts.

(** Witness of C7 (amended): the later batch of the sample, merged into the
    sample set. *)
Lemma merge_incoming_always_overrides_witness :
  exists e,
    Sync.upsert Demo.laterBatch = [e] /\
    In e (Sync.mergeEvents (H := Demo.host) Demo.existingSet ([] ++ e :: [])) /\
    forall kept,
      In kept (Sync.applyIncomingSyncBatch (H := Demo.host) Demo.existingSet
                 {| Sync.mode := Sync.merge; Sync.upsert := [] ++ e :: [];
                    Sync.removeIds := [] |}) ->
      e_id kept = e_id e -> kept = e.
Proof.
  eexists. split; [vm_compute; reflexivity|].
  match goal with |- In ?e _ /\ _ =>
    destruct (merge_incoming_always_overrides (H := Demo.host) Demo.existingSet [] [] e [])
      as (_ & Hsync & Hin)
  end.
  - intros e' [].
  - split; [apply Hin; vm_compute; lia | exact Hsync].
Defined.

(** Counterexample to C7 as stated: the set holds [e1] detected at
    1700000005000 with severity 3; a later batch brings [e1] detected at
    1700000000000 with severity 1.  The incoming event is not strictly newer,
    and the merged set holds its field values, not the existing ones. *)
Lemma merge_older_incoming_replaces_newer :
  exists existing incoming,
    Demo.existingSet = [existing] /\
    Sync.upsert Demo.laterBatch = [incoming] /\
    e_id incoming = e_id existing /\
    ~ strictlyNewer incoming existing /\
    e_severity existing = 3%Z /\ e_severity incoming = 1%Z /\
    Sync.applyIncomingSyncBatch (H := Demo.host) Demo.existingSet Demo.laterBatch = [incoming].
Proof.
  eexists. eexists. split; [vm_compute; reflexivity|]. split; [vm_compute; reflexivity|].
  split; [reflexivity|]. split.
  - unfold strictlyNewer. simpl. lia.
  - split; [reflexivity|]. split; [reflexivity|]. vm_compute. reflexivity.
Qed.

Lemma noneWalkable_forallb (isWalkable : Q -> Q -> bool) (l : list Point) :
  forallb (fun q => negb (isWalkable (fst q) (snd q))) l = true -> noneWalkable isWalkable l.
Proof.
  intros Hall q Hq. rewrite forallb_forall in Hall. specialize (Hall q Hq).
  now apply negb_true_iff in Hall.
Qed.

(** ** [projectPointToWalkable] *)
Section ProjectFacts.
Context {V : MapView.View}.
Import MapView.

Lemma clamp01_idem (v : Q) : clamp01 (clamp01 v) = clamp01 v.
Proof.
  unfold clamp01, Qmin, Qmax, GenericMinMax.gmin, GenericMinMax.gmax.
  destruct (1 ?= v) eqn:E1; try reflexivity.
  destruct (0 ?= v) eqn:E0; try reflexivity.
  now rewrite E1, E0.
Qed.

Lemma alreadyWalkable_walkableAt (x y : Q) (zone : ZoneSurface) (hp ep : Q) :
  alreadyWalkable x y zone hp ep = walkableAt zone hp ep x y.
Proof.
  unfold alreadyWalkable, walkableAt, Qgtb. now rewrite negb_involutive.
Qed.

Lemma tryCandidate_walkableAt (x y : Q) (zone : ZoneSurface) (hp ep : Q) (best : Best)
    (candidate : Point) :
  tryCandidate x y zone hp ep best candidate =
  let c := clamp01Point candidate in
  if walkableAt zone hp ep (fst c) (snd c)
  then if closer (sqDist x y c) (snd best) then (fst c, snd c, Some (sqDist x y c)) else best
  else best.
Proof.
  unfold tryCandidate, walkableAt, clamp01Point, sqDist. cbn [fst snd].
  destruct (inPolygon _ _ _); cbn [negb andb]; [|reflexivity].
  destruct (pointInHoleOrBufferedBounds _ _ _ _ _); cbn [negb andb]; [reflexivity|].
  destruct (Qgtb ep 0); cbn [negb andb orb]; [|reflexivity].
  destruct (pointInBounds _ _ _ _); reflexivity.
Qed.

(** What the locals of a search say once the candidates [seen] are tried. *)
Definition searchInv (x y : Q) (zone : ZoneSurface) (hp ep : Q) (seen : list Point)
    (best : Best) : Prop :=
  match snd best with
  | None => fst best = s_centroid zone /\
            noneWalkable (walkableAt zone hp ep) (map clamp01Point seen)
  | Some d => d = sqDist x y (fst best) /\
              closestWalkable x y (walkableAt zone hp ep) (map clamp01Point seen) (fst best)
  end.

Lemma searchInv_step (x y : Q) (zone : ZoneSurface) (hp ep : Q) (seen : list Point)
    (best : Best) (candidate : Point) :
  searchInv x y zone hp ep seen best ->
  searchInv x y zone hp ep (seen ++ [candidate]) (tryCandidate x y zone hp ep best candidate).
Proof.
  intro Hinv. rewrite tryCandidate_walkableAt. cbv zeta.
  set (c := clamp01Point candidate).
  assert (Hc : (fst c, snd c) = c) by now destruct c.
  unfold searchInv in *. rewrite map_app. cbn [map]. fold c.
  destruct best as [[bx b_y] [d|]]; cbn [fst snd] in *.
  - destruct Hinv as [Hd (Hin & Hbw & Hmin)].
    destruct (walkableAt zone hp ep (fst c) (snd c)) eqn:Hw.
    + cbn [closer]. destruct (Qltb _ d) eqn:Hlt; cbn [fst snd].
      * apply Qltb_lt in Hlt. rewrite Hc. split; [reflexivity|]. split; [|split].
        -- apply in_or_app. right. now left.
        -- exact Hw.
        -- intros q Hq Hqw. apply in_app_or in Hq. destruct Hq as [Hq | [<- | []]].
           ++ specialize (Hmin q Hq Hqw). subst d. lra.
           ++ apply Qle_refl.
      * apply Qltb_ge in Hlt. split; [exact Hd|]. split; [|split].
        -- apply in_or_app. now left.
        -- exact Hbw.
        -- intros q Hq Hqw. apply in_app_or in Hq. destruct Hq as [Hq | [<- | []]].
           ++ now apply Hmin.
           ++ subst d. exact Hlt.
    + cbn [fst snd]. split; [exact Hd|]. split; [|split].
      * apply in_or_app. now left.
      * exact Hbw.
      * intros q Hq Hqw. apply in_app_or in Hq. destruct Hq as [Hq | [<- | []]].
        -- now apply Hmin.
        -- rewrite Hw in Hqw. discriminate.
  - destruct Hinv as [Hcen Hnone].
    destruct (walkableAt zone hp ep (fst c) (snd c)) eqn:Hw.
    + cbn [closer fst snd]. rewrite Hc. split; [reflexivity|]. split; [|split].
      * apply in_or_app. right. now left.
      * exact Hw.
      * intros q Hq Hqw. apply in_app_or in Hq. destruct Hq as [Hq | [<- | []]].
        -- rewrite (Hnone q Hq) in Hqw. discriminate.
        -- apply Qle_refl.
    + cbn [fst snd]. split; [exact Hcen|].
      intros q Hq. apply in_app_or in Hq. destruct Hq as [Hq | [<- | []]].
      * now apply Hnone.
      * exact Hw.
Qed.

Lemma searchInv_fold (x y : Q) (zone : ZoneSurface) (hp ep : Q) (l seen : list Point)
    (best : Best) :
  searchInv x y zone hp ep seen best ->
  searchInv x y zone hp ep (seen ++ l) (fold_left (tryCandidate x y zone hp ep) l best).
Proof.
  revert seen best. induction l as [|c l IH]; intros seen best Hinv; simpl.
  - now rewrite app_nil_r.
  - change (seen ++ c :: l)%list with (seen ++ [c] ++ l)%list. rewrite app_assoc.
    apply IH. now apply searchInv_step.
Qed.

Lemma searchBest_spec (x y : Q) (zone : ZoneSurface) (hp ep : Q) :
  match snd (searchBest x y zone hp ep) with
  | None => fst (searchBest x y zone hp ep) = s_centroid zone /\
            noneWalkable (walkableAt zone hp ep) (gridCandidates zone)
  | Some _ => closestWalkable x y (walkableAt zone hp ep) (gridCandidates zone)
                (fst (searchBest x y zone hp ep))
  end.
Proof.
  pose proof (searchInv_fold x y zone hp ep (s_centroid zone :: gridSamples (s_bounds zone)) []
                (fst (s_centroid zone), snd (s_centroid zone), None)) as Hinv.
  unfold searchInv in Hinv at 1. cbn [fst snd app] in Hinv.
  assert (Hstart : (fst (s_centroid zone), snd (s_centroid zone)) = s_centroid zone /\
                   noneWalkable (walkableAt zone hp ep) (map clamp01Point []))
    by (split; [now destruct (s_centroid zone) | intros q []]).
  specialize (Hinv Hstart). unfold searchInv in Hinv. fold (searchBest x y zone hp ep) in Hinv.
  unfold gridCandidates. destruct (snd (searchBest x y zone hp ep)); tauto.
Qed.

(** The result of a call that is not allowed to call itself again. *)
Lemma projectLoop_cases (n : nat) (x0 y0 : Q) (zone : ZoneSurface) (hp ep : Q) :
  let x := clamp01 x0 in
  let y := clamp01 y0 in
  let p := projectLoop n x0 y0 zone hp ep in
  (walkableAt zone hp ep x y = true -> p = (x, y)) /\
  (walkableAt zone hp ep x y = false ->
   (exists c, In c (gridCandidates zone) /\ walkableAt zone hp ep (fst c) (snd c) = true) ->
   closestWalkable x y (walkableAt zone hp ep) (gridCandidates zone) p) /\
  (walkableAt zone hp ep x y = false ->
   noneWalkable (walkableAt zone hp ep) (gridCandidates zone) ->
   (Qgtb ep 0 = false \/ n = O) ->
   p = centroidOf zone) /\
  (walkableAt zone hp ep x y = false ->
   noneWalkable (walkableAt zone hp ep) (gridCandidates zone) ->
   Qgtb ep 0 = true ->
   forall m, n = S m -> p = projectLoop m x y zone hp 0).
Proof.
  intros x y p. subst p.
  pose proof (searchBest_spec x y zone hp ep) as Hbest.
  assert (Hunfold : projectLoop n x0 y0 zone hp ep =
    if alreadyWalkable x y zone hp ep then (x, y)
    else match snd (searchBest x y zone hp ep), n with
         | None, S m =>
             if Qgtb ep 0 then projectLoop m x y zone hp 0
             else (fst (fst (searchBest x y zone hp ep)), snd (fst (searchBest x y zone hp ep)))
         | _, _ => (fst (fst (searchBest x y zone hp ep)), snd (fst (searchBest x y zone hp ep)))
         end) by (destruct n; reflexivity).
  rewrite Hunfold, alreadyWalkable_walkableAt. clear Hunfold.
  assert (Hpair : forall q : Point, (fst q, snd q) = q) by (now intros [a b]).
  split; [|split; [|split]].
  - now intros ->.
  - intros -> (c & Hc & Hcw).
    destruct (snd (searchBest x y zone hp ep)) as [d|].
    + rewrite Hpair. destruct n; exact Hbest.
    + destruct Hbest as [_ Hnone]. rewrite (Hnone c Hc) in Hcw. discriminate.
  - intros -> Hnone Hoff.
    destruct (snd (searchBest x y zone hp ep)) as [d|].
    + destruct Hbest as (Hin & Hw & _). rewrite (Hnone _ Hin) in Hw. discriminate.
    + destruct Hbest as [Hcen _]. unfold centroidOf. rewrite <- Hcen.
      destruct Hoff as [Hoff | ->]; [|reflexivity].
      rewrite Hoff. now destruct n.
  - intros -> Hnone Hon m ->.
    destruct (snd (searchBest x y zone hp ep)) as [d|].
    + destruct Hbest as (Hin & Hw & _). rewrite (Hnone _ Hin) in Hw. discriminate.
    + now rewrite Hon.
Qed.

Lemma gridSamples_length (minX maxX minY maxY : Q) :
  List.length (gridSamples (Box minX maxX minY maxY)) = 576%nat.
Proof.
  unfold gridSamples.
  assert (Hn : List.length sampleIndices = 24%nat) by reflexivity.
  generalize dependent sampleIndices. intros idx Hn.
  assert (Hrow : forall (f : Z -> list Point) (l : list Z),
            (forall yi, List.length (f yi) = 24%nat) ->
            List.length (flat_map f l) = (24 * List.length l)%nat).
  { intros f l Hf. induction l as [|a l IH]; simpl; [reflexivity|].
    rewrite length_app, Hf, IH. lia. }
  rewrite Hrow; [now rewrite Hn|]. intro yi. now rewrite length_map.
Qed.

(** C8, amended.  [projectPointToWalkable] keeps the clamped point when it
    is walkable.  Otherwise it tries the zone centroid and then the 576
    samples of a 24 x 24 grid over the zone's bounding box and returns the
    walkable candidate closest to the clamped point, if there is one.  If
    there is none and the edge padding is positive it runs once more on the
    clamped point with the edge padding set to 0; that second run does not
    run again.  A run that finds nothing and does not run again returns the
    zone centroid, not the clamped original point. *)
Theorem projectPointToWalkable_spec (x0 y0 : Q) (zone : ZoneSurface) (hp ep : Q) :
  let x := clamp01 x0 in
  let y := clamp01 y0 in
  let p := projectPointToWalkable x0 y0 zone hp ep in
  let q := projectLoop 0 x y zone hp 0 in
  (forall minX maxX minY maxY, List.length (gridSamples (Box minX maxX minY maxY)) = 576%nat) /\
  (walkableAt zone hp ep x y = true -> p = (x, y)) /\
  (walkableAt zone hp ep x y = false ->
   (exists c, In c (gridCandidates zone) /\ walkableAt zone hp ep (fst c) (snd c) = true) ->
   closestWalkable x y (walkableAt zone hp ep) (gridCandidates zone) p) /\
  (walkableAt zone hp ep x y = false ->
   noneWalkable (walkableAt zone hp ep) (gridCandidates zone) ->
   (Qgtb ep 0 = false -> p = centroidOf zone) /\
   (Qgtb ep 0 = true ->
    p = q /\
    (walkableAt zone hp 0 x y = true -> q = (x, y)) /\
    (walkableAt zone hp 0 x y = false ->
     (exists c, In c (gridCandidates zone) /\ walkableAt zone hp 0 (fst c) (snd c) = true) ->
     closestWalkable x y (walkableAt zone hp 0) (gridCandidates zone) q) /\
    (walkableAt zone hp 0 x y = false ->
     noneWalkable (walkableAt zone hp 0) (gridCandidates zone) ->
     q = centroidOf zone))).
Proof.
  intros x y p q. unfold projectPointToWalkable in p.
  destruct (projectLoop_cases 1 x0 y0 zone hp ep) as (Hkeep & Hfound & Hnone & Hretry).
  destruct (projectLoop_cases 0 x y zone hp 0) as (Hkeep2 & Hfound2 & Hnone2 & _).
  unfold x, y in Hkeep2, Hfound2, Hnone2. rewrite !clamp01_idem in Hkeep2, Hfound2, Hnone2.
  split; [exact gridSamples_length|]. split; [exact Hkeep|]. split; [exact Hfound|].
  intros Hw Hno. split.
  - intro Hoff. apply Hnone; [exact Hw | exact Hno | now left].
  - intro Hon. split; [exact (Hretry Hw Hno Hon 0%nat eq_refl)|].
    split; [exact Hkeep2|]. split; [exact Hfound2|].
    intros Hw2 Hno2. apply Hnone2; [exact Hw2 | exact Hno2 | now right].
Qed.

(** More than one nested call is never made: allowing more changes nothing. *)
Lemma projectLoop_retries (n : nat) (x0 y0 : Q) (zone : ZoneSurface) (hp ep : Q) :
  projectLoop (S n) x0 y0 zone hp ep = projectPointToWalkable x0 y0 zone hp ep.
Proof.
  unfold projectPointToWalkable.
  assert (Hzero : forall k a b, projectLoop k a b zone hp 0 = projectLoop 0 a b zone hp 0).
  { intros k a b. destruct k; [reflexivity|]. simpl.
    destruct (alreadyWalkable _ _ _ _ _); [reflexivity|].
    destruct (snd (searchBest _ _ _ _ _)); reflexivity. }
  simpl. destruct (alreadyWalkable _ _ _ _ _); [reflexivity|].
  destruct (snd (searchBest _ _ _ _ _)); [reflexivity|].
  destruct (Qgtb ep 0); [apply Hzero | reflexivity].
Qed.

End ProjectFacts.

(** Witness of C8 (amended), and counterexample to C8 as stated: in the zone
    that its hole covers, the point [(0.3, 0.3)] projected with the robot
    paddings finds no walkable candidate with the edge padding nor without
    it, and the result is the centroid [(0.5, 0.5)], not the clamped original
    point [(0.3, 0.3)]. *)
Lemma projectPointToWalkable_spec_witness :
  MapView.projectPointToWalkable (V := Demo.view) 0.3 0.3 Demo.coveredZone
    MapView.ROBOT_HOLE_PADDING_NORM MapView.ROBOT_ZONE_EDGE_PADDING_NORM =
  MapView.projectLoop (V := Demo.view) 0 (clamp01 0.3) (clamp01 0.3) Demo.coveredZone
    MapView.ROBOT_HOLE_PADDING_NORM 0.
Proof.
  assert (Hblocked : walkableAt (V := Demo.view) Demo.coveredZone
            MapView.ROBOT_HOLE_PADDING_NORM MapView.ROBOT_ZONE_EDGE_PADDING_NORM
            (clamp01 0.3) (clamp01 0.3) = false) by (vm_compute; reflexivity).
  assert (Hnone : noneWalkable
            (walkableAt (V := Demo.view) Demo.coveredZone
               MapView.ROBOT_HOLE_PADDING_NORM MapView.ROBOT_ZONE_EDGE_PADDING_NORM)
            (gridCandidates (V := Demo.view) Demo.coveredZone)).
  { apply noneWalkable_forallb. vm_compute. reflexivity. }
  exact (proj1 (proj2 (proj2 (proj2 (proj2
           (projectPointToWalkable_spec (V := Demo.view) 0.3 0.3 Demo.coveredZone
              MapView.ROBOT_HOLE_PADDING_NORM MapView.ROBOT_ZONE_EDGE_PADDING_NORM)))
           Hblocked Hnone) eq_refl)).
Defined.

Lemma projection_last_resort_is_centroid :
  MapView.projectPointToWalkable (V := Demo.view) 0.3 0.3 Demo.coveredZone
    MapView.ROBOT_HOLE_PADDING_NORM MapView.ROBOT_ZONE_EDGE_PADDING_NORM = (0.5, 0.5) /\
  (clamp01 0.3, clamp01 0.3) = (0.3, 0.3) /\
  ~ (0.5 == clamp01 0.3).
Proof.
  split; [vm_compute; reflexivity|]. split; [vm_compute; reflexivity|].
  intro Habs. vm_compute in Habs. discriminate Habs.
Qed.

(** ** The robot tick: a robot whose steering is blocked *)
Section StuckFacts.
Context {V : MapView.View}.
Import MapView.

Lemma clamp01_between (lo hi v : Q) :
  0 <= lo -> hi <= 1 -> lo <= v <= hi -> lo <= clamp01 v <= hi.
Proof.
  intros Hlo Hhi [H1 H2]. unfold clamp01. split.
  - apply Q.max_le_iff. right. apply Q.min_glb; lra.
  - apply Q.max_lub; [lra|]. apply Q.min_le_iff. now right.
Qed.

Lemma scaled_bound (c s : Q) : -1 <= c <= 1 -> 0 <= s -> - s <= c * s <= s.
Proof. intros [H1 H2] Hs. split; nra. Qed.

Lemma pointInBounds_true (x y minX maxX minY maxY padding : Q) :
  minX - padding <= x <= maxX + padding -> minY - padding <= y <= maxY + padding ->
  pointInBounds x y (Box minX maxX minY maxY) padding = true.
Proof.
  intros [Hx1 Hx2] [Hy1 Hy2]. unfold pointInBounds, Qgeb.
  apply Qle_bool_iff in Hx1, Hx2, Hy1, Hy2. now rewrite Hx1, Hx2, Hy1, Hy2.
Qed.

Lemma pointInBounds_false (x y minX maxX minY maxY padding : Q) :
  x < minX - padding \/ maxX + padding < x \/ y < minY - padding \/ maxY + padding < y ->
  pointInBounds x y (Box minX maxX minY maxY) padding = false.
Proof.
  intro Hout. unfold pointInBounds, Qgeb.
  destruct (Qle_bool (minX - padding) x) eqn:E1; [|reflexivity].
  destruct (Qle_bool x (maxX + padding)) eqn:E2; [|reflexivity].
  destruct (Qle_bool (minY - padding) y) eqn:E3; [|reflexivity].
  destruct (Qle_bool y (maxY + padding)) eqn:E4; [|reflexivity].
  apply Qle_bool_iff in E1, E2, E3, E4. lra.
Qed.

Lemma abs_at_least (c b : Q) : b <= Qabs c -> c <= - b \/ b <= c.
Proof.
  intro Hb. destruct (Qlt_le_dec c 0) as [Hneg | Hpos].
  - left. rewrite Qabs_neg in Hb by lra. lra.
  - right. now rewrite Qabs_pos in Hb.
Qed.

Lemma existsb_false {A : Type} (f : A -> bool) (l : list A) :
  (forall a, In a l -> f a = false) -> existsb f l = false.
Proof.
  intro Hall. induction l as [|a l IH]; simpl; [reflexivity|].
  rewrite (Hall a (or_introl eq_refl)). apply IH. intros b Hb. apply Hall. now right.
Qed.

Lemma find_none {A : Type} (f : A -> bool) (l : list A) :
  (forall a, In a l -> f a = false) -> find f l = None.
Proof.
  intro Hall. induction l as [|a l IH]; simpl; [reflexivity|].
  rewrite (Hall a (or_introl eq_refl)). apply IH. intros b Hb. apply Hall. now right.
Qed.


Lemma probes_small (probe : Q * Q) :
  In probe CLEARANCE_PROBES ->
  (-0.007 <= fst probe <= 0.007) /\ (-0.007 <= snd probe <= 0.007).
Proof.
  unfold CLEARANCE_PROBES, ROBOT_CLEARANCE. simpl In.
  intros Hin. repeat (destruct Hin as [<- | Hin]; [cbn [fst snd]; split; split; lra|]).
  destruct Hin.
Qed.

Lemma blocked_near (cx cy : Q) :
  0.4755 <= cx <= 0.4825 -> 0.4965 <= cy <= 0.5035 ->
  isBlockedPoint cx cy [Demo.island] [Demo.islandBox] = true.
Proof.
  intros Hcx Hcy. unfold isBlockedPoint.
  destruct (_ || _ || _ || _); [reflexivity|].
  apply existsb_exists. exists (ROBOT_CLEARANCE, 0). split; [right; left; reflexivity|].
  cbn [fst snd]. destruct (existsb _ [Demo.island]); [reflexivity|].
  cbn [existsb]. unfold Demo.islandBox, ROBOT_HOLE_PADDING_NORM, ROBOT_CLEARANCE.
  rewrite pointInBounds_true; [reflexivity| |].
  - pose proof (clamp01_between 0.4825 0.4895 (cx + 0.007)) as Hb. lra.
  - pose proof (clamp01_between 0.4965 0.5035 (cy + 0)) as Hb. lra.
Qed.

Lemma unblocked_far (px py : Q) :
  (forall x y, inPolygon x y Demo.island = true -> pointInBounds x y Demo.islandBox 0 = true) ->
  0.39 <= px <= 0.56 -> 0.41 <= py <= 0.59 ->
  (px <= 0.424 \/ 0.534 <= px \/ py <= 0.445 \/ 0.555 <= py) ->
  isBlockedPoint px py [Demo.island] [Demo.islandBox] = false.
Proof.
  intros Hisl Hpx Hpy Hfar. unfold isBlockedPoint, ROBOT_CLEARANCE at 1 2 3 4.
  assert (E1 : Qltb px 0.007 = false) by (apply Qltb_ge; lra).
  assert (E2 : Qgtb px (1 - 0.007) = false) by (apply Qgtb_le; lra).
  assert (E3 : Qltb py 0.007 = false) by (apply Qltb_ge; lra).
  assert (E4 : Qgtb py (1 - 0.007) = false) by (apply Qgtb_le; lra).
  rewrite E1, E2, E3, E4. cbn [orb].
  apply existsb_false. intros probe Hin.
  destruct (probes_small probe Hin) as [Hox Hoy].
  pose proof (clamp01_unit (px + fst probe)) as Hux.
  pose proof (clamp01_unit (py + snd probe)) as Huy.
  set (qx := clamp01 (px + fst probe)) in *. set (qy := clamp01 (py + snd probe)) in *.
  assert (Hout : qx < 0.481 \/ 0.519 < qx \/ qy < 0.481 \/ 0.519 < qy).
  { destruct Hfar as [Hf | [Hf | [Hf | Hf]]].
    - left. pose proof (clamp01_between 0.383 0.431 (px + fst probe)) as Hb. fold qx in Hb. lra.
    - right; left. pose proof (clamp01_between 0.527 0.567 (px + fst probe)) as Hb. fold qx in Hb. lra.
    - right; right; left.
      pose proof (clamp01_between 0.403 0.452 (py + snd probe)) as Hb. fold qy in Hb. lra.
    - right; right; right.
      pose proof (clamp01_between 0.548 0.597 (py + snd probe)) as Hb. fold qy in Hb. lra. }
  assert (Hpad : pointInBounds qx qy Demo.islandBox ROBOT_HOLE_PADDING_NORM = false).
  { unfold Demo.islandBox, ROBOT_HOLE_PADDING_NORM. apply pointInBounds_false. lra. }
  assert (Hbox : pointInBounds qx qy Demo.islandBox 0 = false).
  { unfold Demo.islandBox. apply pointInBounds_false. lra. }
  cbn [existsb]. rewrite Hpad.
  destruct (inPolygon qx qy Demo.island) eqn:Hin'; [|reflexivity].
  apply Hisl in Hin'. congruence.
Qed.

Lemma stuck_tick (d : Draws) (robot : RobotState) :
  plausibleView V -> pinned robot ->
  let next := tickRobot [Demo.alarm] holePolygons allHoleBounds d robot in
  pinned next /\ r_mode next = responding /\ r_stuckTicks next = (r_stuckTicks robot + 1)%Z.
Proof.
  intros (Hsurf & Hcos & Hsin & Hdiag & Hhyp & Hisl) (Hx & Hy & Hbase & Hassigned).
  assert (Hholes : holePolygons = [Demo.island]) by (unfold holePolygons; now rewrite Hsurf).
  assert (Hbounds : allHoleBounds = [Demo.islandBox]) by (unfold allHoleBounds; now rewrite Hsurf).
  assert (Hdock : forall x y, projectToWalkableTarget x y "dock" = (clamp01 x, clamp01 y)).
  { intros x y. unfold projectToWalkableTarget, zoneById. now rewrite Hsurf. }
  assert (Hassign : assignRobot [Demo.alarm] d robot =
    withRobot robot "dock" (r_x robot) (r_y robot) (clamp01 0.9) (clamp01 0.5)
      (r_headingRad robot) (Qmax (r_baseSpeed robot * 1.16) RESPONSE_SPEED_MIN)
      responding (Some "e9") (r_stuckTicks robot)).
  { unfold assignRobot. rewrite Hassigned. cbn [nonEmpty find Demo.alarm v_id].
    rewrite String.eqb_refl. cbn [v_zone_id v_x v_y v_id]. rewrite Hdock. reflexivity. }
  unfold tickRobot. rewrite Hassign, Hholes, Hbounds. clear Hassign.
  cbn [withRobot r_targetX r_targetY r_x r_y r_speed r_mode r_zoneId r_headingRad
       r_assignedEventId r_stuckTicks r_baseSpeed].
  rewrite Hx, Hy, Hbase.
  set (speed := Qmax (0.03 * 1.16) RESPONSE_SPEED_MIN).
  set (step := speed * (STEP_MS / 1000)).
  assert (Hstep : 0 <= step <= 0.0035) by (split; vm_compute; discriminate).
  assert (Hfar : Qle_bool (Math_hypot (clamp01 0.9 - 0.479) (clamp01 0.5 - 0.5))
                          (Qmax step 0.003) = false).
  { destruct (Qle_bool _ _) eqn:E; [|reflexivity]. apply Qle_bool_iff in E.
    pose proof (Hhyp (clamp01 0.9 - 0.479) (clamp01 0.5 - 0.5)) as Hh.
    assert (Habs : 0.4 <= Qabs (clamp01 0.9 - 0.479)) by (vm_compute; discriminate).
    assert (Hmax : Qmax step 0.003 <= 0.0035) by (vm_compute; discriminate).
    lra. }
  rewrite Hfar.
  assert (Hsteer : resolveSteerStep
            (withRobot robot "dock" 0.479 0.5 (clamp01 0.9) (clamp01 0.5) (r_headingRad robot)
               speed responding (Some "e9") (r_stuckTicks robot))
            step [Demo.island] [Demo.islandBox] = None).
  { unfold resolveSteerStep. apply find_none. intros c Hc.
    apply in_map_iff in Hc. destruct Hc as (offset & <- & _).
    cbn [fst snd withRobot r_x r_y r_targetX r_targetY].
    set (heading := Math_atan2 _ _ + offset).
    pose proof (scaled_bound (Math_cos heading) step (Hcos heading) (proj1 Hstep)) as Hc.
    pose proof (scaled_bound (Math_sin heading) step (Hsin heading) (proj1 Hstep)) as Hs.
    rewrite blocked_near; [reflexivity | lra | lra]. }
  rewrite Hsteer. clear Hsteer.
  set (detourHeading := r_headingRad robot + _).
  rewrite Hdock. cbn [fst snd]. rewrite !clamp01_idem.
  assert (Hfree : isBlockedPoint (clamp01 (0.479 + Math_cos detourHeading * 0.08))
                                 (clamp01 (0.5 + Math_sin detourHeading * 0.08))
                                 [Demo.island] [Demo.islandBox] = false).
  { pose proof (Hcos detourHeading) as Hc. pose proof (Hsin detourHeading) as Hs.
    pose proof (clamp01_between 0.399 0.559 (0.479 + Math_cos detourHeading * 0.08)) as Hbx.
    pose proof (clamp01_between 0.42 0.58 (0.5 + Math_sin detourHeading * 0.08)) as Hby.
    apply unblocked_far; [exact Hisl | lra | lra |].
    destruct (Hdiag detourHeading) as [Hd | Hd]; apply abs_at_least in Hd; destruct Hd as [Hd | Hd].
    - left.
      pose proof (clamp01_between 0.399 0.423 (0.479 + Math_cos detourHeading * 0.08)) as Hb. lra.
    - right; left.
      pose proof (clamp01_between 0.535 0.559 (0.479 + Math_cos detourHeading * 0.08)) as Hb. lra.
    - right; right; left.
      pose proof (clamp01_between 0.42 0.444 (0.5 + Math_sin detourHeading * 0.08)) as Hb. lra.
    - right; right; right.
      pose proof (clamp01_between 0.556 0.58 (0.5 + Math_sin detourHeading * 0.08)) as Hb. lra. }
  rewrite Hfree. cbn [negb withRobot r_mode r_stuckTicks].
  split; [|split; reflexivity].
  unfold pinned. cbn [withRobot r_x r_y r_baseSpeed r_assignedEventId].
  repeat split; [exact Hbase].
Qed.

(** The robot stays where it is, responding, and its counter grows by one
    at every tick. *)
Lemma stuck_run (draws : nat -> Draws) (robot : RobotState) (n : nat) :
  plausibleView V -> pinned robot ->
  let later := runRobot n [Demo.alarm] draws robot in
  pinned later /\ r_stuckTicks later = (r_stuckTicks robot + Z.of_nat n)%Z /\
  (0 < n -> r_mode later = responding)%nat.
Proof.
  intros Hview Hpin. induction n as [|n IH].
  - simpl. split; [exact Hpin|]. split; [lia | intro Hn; inversion Hn].
  - destruct IH as (Hpin' & Hticks & _).
    destruct (stuck_tick (draws n) _ Hview Hpin') as (Hp & Hm & Ht).
    cbn [runRobot]. split; [exact Hp|]. split; [|intros _; exact Hm].
    rewrite Ht, Hticks. lia.
Qed.

(** When steering succeeds, the robot has hardly moved and the counter
    reaches the threshold, the tick returns the rescue state: patrol mode, no
    assigned event, counter 0, and as target the projection of a fresh sample
    of the robot's zone. *)
Lemma rescue_branch_state (reactiveEvents : list ReactiveEvent) (holes : list (list Point))
    (bounds : list Bounds) (d : Draws) (robot : RobotState) (steered : Q * Q * Q) :
  let nextRobot := assignRobot reactiveEvents d robot in
  let step := r_speed nextRobot * (STEP_MS / 1000) in
  Qle_bool (Math_hypot (r_targetX nextRobot - r_x nextRobot) (r_targetY nextRobot - r_y nextRobot))
           (Qmax step 0.003) = false ->
  resolveSteerStep nextRobot step holes bounds = Some steered ->
  Qltb (Math_hypot (fst (fst steered) - r_x robot) (snd (fst steered) - r_y robot)) 0.0006 = true ->
  (ROBOT_STUCK_TICKS <= r_stuckTicks robot + 1)%Z ->
  let next := tickRobot reactiveEvents holes bounds d robot in
  let rescueZone := orElse (findZone (r_zoneId nextRobot))
                           (orElse (findZone (r_zoneId robot)) (d_pickCurrent d)) in
  r_mode next = patrol /\ r_assignedEventId next = None /\ r_stuckTicks next = 0%Z /\
  (r_targetX next, r_targetY next) =
    projectToWalkableTarget (fst (d_sampleRescue d rescueZone)) (snd (d_sampleRescue d rescueZone))
                            (zone_id rescueZone).
Proof.
  intros nextRobot step Hfar Hsteer Hslow Hticks next rescueZone.
  subst next. unfold tickRobot. fold nextRobot. fold step. rewrite Hfar, Hsteer, Hslow.
  assert (Hge : (r_stuckTicks robot + 1 >=? ROBOT_STUCK_TICKS)%Z = true) by (apply Z.geb_le; lia).
  rewrite Hge. cbn [withRobot r_mode r_assignedEventId r_stuckTicks r_targetX r_targetY].
  repeat split. fold rescueZone. now destruct (projectToWalkableTarget _ _ _).
Qed.

(** C9 (the code departs from the claim).  On the sample floor, for every
    implementation of [Math] within the stated bounds and every sequence of
    random draws, the robot of the sample, which responds to the live event
    [e9] and whose stuck counter has reached the threshold of 18, is still
    in responding mode after each further tick, with [e9] assigned, at the
    same place, its counter at 18 plus the number of ticks: every steering
    candidate is blocked, the detour branch adds one to the counter and
    returns before the threshold is tested. *)
Theorem stuck_counter_passes_threshold (draws : nat -> Draws) (n : nat) :
  plausibleView V ->
  r_stuckTicks Demo.stuckRobot = ROBOT_STUCK_TICKS /\
  r_mode Demo.stuckRobot = responding /\
  let later := runRobot (S n) [Demo.alarm] draws Demo.stuckRobot in
  r_mode later = responding /\ r_assignedEventId later = Some "e9" /\
  r_stuckTicks later = (ROBOT_STUCK_TICKS + Z.of_nat (S n))%Z /\
  r_x later = r_x Demo.stuckRobot /\ r_y later = r_y Demo.stuckRobot.
Proof.
  intro Hview. split; [reflexivity|]. split; [reflexivity|].
  assert (Hpin : pinned Demo.stuckRobot) by (repeat split).
  destruct (stuck_run draws Demo.stuckRobot (S n) Hview Hpin) as ((Hx & Hy & _ & Ha) & Ht & Hm).
  cbv zeta. split; [apply Hm; lia|]. split; [exact Ha|]. split; [exact Ht|].
  split; [exact Hx | exact Hy].
Qed.

End StuckFacts.

(** The sample view is within the bounds. *)
Lemma demo_view_plausible : plausibleView Demo.view.
Proof.
  unfold plausibleView. cbn [MapView.surfaces MapView.Math_cos MapView.Math_sin MapView.Math_hypot
                             MapView.inPolygon Demo.view].
  split; [reflexivity|]. split; [intros _; split; lra|]. split; [intros _; split; lra|].
  split; [intros _; left; vm_compute; discriminate|].
  split; [intros dx dy; pose proof (Qabs_nonneg dy); lra|].
  intros x y. unfold Demo.rayCast, Demo.island, Demo.islandBox.
  cbn [last Demo.rayLoop Demo.crosses xorb].
  rewrite !eqb_reflx. cbn [negb andb]. rewrite !xorb_false_r.
  intro Hin.
  assert (Hxy : (0.495 <= x <= 0.505) /\ (0.495 <= y <= 0.505)).
  { destruct (Qgtb 0.495 y) eqn:Ea; destruct (Qgtb 0.505 y) eqn:Eb; cbn [eqb negb andb] in Hin;
      try discriminate Hin;
      try apply Qgtb_gt in Ea; try apply Qgtb_le in Ea;
      try apply Qgtb_gt in Eb; try apply Qgtb_le in Eb; try lra.
    destruct (Qltb x ((0.495 - 0.495) * (y - 0.495) / (0.505 - 0.495) + 0.495)) eqn:Ec;
    destruct (Qltb x ((0.505 - 0.505) * (y - 0.505) / (0.495 - 0.505) + 0.505)) eqn:Ed;
      cbn [xorb] in Hin; try discriminate Hin;
      try apply Qltb_lt in Ec; try apply Qltb_ge in Ec;
      try apply Qltb_lt in Ed; try apply Qltb_ge in Ed.
    - assert (Hc : (0.495 - 0.495) * (y - 0.495) / (0.505 - 0.495) + 0.495 == 0.495) by (field).
      assert (Hd : (0.505 - 0.505) * (y - 0.505) / (0.495 - 0.505) + 0.505 == 0.505) by (field).
      rewrite Hc in Ec. rewrite Hd in Ed. lra.
    - assert (Hc : (0.495 - 0.495) * (y - 0.495) / (0.505 - 0.495) + 0.495 == 0.495) by (field).
      assert (Hd : (0.505 - 0.505) * (y - 0.505) / (0.495 - 0.505) + 0.505 == 0.505) by (field).
      rewrite Hc in Ec. rewrite Hd in Ed. lra. }
  apply pointInBounds_true; lra.
Qed.

(** Witness of C9: the sample view, one tick. *)
Lemma stuck_counter_passes_threshold_witness :
  let later := MapView.runRobot (V := Demo.view) 1 [Demo.alarm] (fun _ => Demo.someDraws)
                                Demo.stuckRobot in
  MapView.r_mode later = MapView.responding /\ MapView.r_stuckTicks later = 19%Z.
Proof.
  destruct (stuck_counter_passes_threshold (V := Demo.view) (fun _ => Demo.someDraws) 0
              demo_view_plausible) as (_ & _ & Hmode & _ & Hticks & _).
  split; [exact Hmode | exact Hticks].
Defined.

(** ** Strings that [trim] leaves alone *)

Lemma trimStart_startsClean (s : string) :
  trimStart s = EmptyString \/ startsClean (trimStart s).
Proof.
  induction s as [|c r IH]; simpl; [now left|].
  destruct (isWhite c) eqn:E; [exact IH | right; exact E].
Qed.

Lemma trimEnd_cons (c : ascii) (r : string) :
  trimEnd (String c r) =
  match trimEnd r with
  | EmptyString => if isWhite c then EmptyString else String c EmptyString
  | r' => String c r'
  end.
Proof. reflexivity. Qed.

Lemma trimEnd_idem (s : string) : trimEnd (trimEnd s) = trimEnd s.
Proof.
  induction s as [|c r IH]; [reflexivity|].
  rewrite (trimEnd_cons c r).
  destruct (trimEnd r) as [|c' r'] eqn:E.
  - destruct (isWhite c) eqn:Ec; [reflexivity|]. rewrite trimEnd_cons. simpl. now rewrite Ec.
  - rewrite trimEnd_cons, IH. reflexivity.
Qed.

Lemma trimEnd_startsClean (s : string) : startsClean s -> startsClean (trimEnd s).
Proof.
  destruct s as [|c r]; simpl; [tauto|]. intro Hc.
  destruct (trimEnd r); [now rewrite Hc | exact Hc].
Qed.

Lemma startsClean_nonEmpty (s : string) : startsClean s -> nonEmpty s = true.
Proof. destruct s; simpl; [tauto | reflexivity]. Qed.

Lemma startsClean_trimStart (s : string) : startsClean s -> trimStart s = s.
Proof. destruct s as [|c r]; simpl; [tauto|]. now intros ->. Qed.

Lemma trim_neat (s : string) : nonEmpty (trim s) = true -> neat (trim s).
Proof.
  unfold trim. intro Hne.
  destruct (trimStart_startsClean s) as [He | Hs].
  - rewrite He in Hne. discriminate Hne.
  - split; [now apply trimEnd_startsClean|]. split; [|apply trimEnd_idem].
    intro Habs. rewrite Habs in Hne. discriminate Hne.
Qed.

Lemma neat_trim (s : string) : neat s -> trim s = s /\ nonEmpty s = true.
Proof.
  intros [Hs [_ He]]. unfold trim. rewrite (startsClean_trimStart s Hs).
  split; [exact He | now apply startsClean_nonEmpty].
Qed.

Lemma startsClean_append (a x : string) : startsClean a -> startsClean (a ++ x).
Proof. destruct a; simpl; tauto. Qed.

Lemma endsClean_append (x b : string) : endsClean b -> endsClean (x ++ b).
Proof.
  intros [Hne Hb]. induction x as [|c r IH]; [now split|].
  destruct IH as [Hne' Hr]. change (String c r ++ b)%string with (String c (r ++ b)%string).
  split; [discriminate|]. rewrite trimEnd_cons, Hr.
  destruct (r ++ b)%string; [contradiction | reflexivity].
Qed.

Lemma neat_append (a x b : string) : neat a -> neat b -> neat (a ++ x ++ b).
Proof.
  intros [Ha _] [_ Hb]. split; [now apply startsClean_append|].
  apply endsClean_append. now apply endsClean_append.
Qed.

Lemma noBlank_trimEnd (s : string) : noBlank s -> trimEnd s = s.
Proof.
  induction s as [|c r IH]; simpl; [reflexivity|]. intros [Hc Hr].
  rewrite (IH Hr). destruct r; [now rewrite Hc | reflexivity].
Qed.

Lemma noBlank_neat (s : string) : s <> EmptyString -> noBlank s -> neat s.
Proof.
  intros Hne Hnb. split; [|split; [exact Hne | now apply noBlank_trimEnd]].
  destruct s; [contradiction | exact (proj1 Hnb)].
Qed.

Lemma digitChar_noBlank (d : Z) : (0 <= d < 10)%Z -> isWhite (digitChar d) = false.
Proof.
  intro Hd. unfold digitChar.
  assert (Hcases : (d = 0 \/ d = 1 \/ d = 2 \/ d = 3 \/ d = 4 \/ d = 5 \/ d = 6 \/ d = 7 \/
                    d = 8 \/ d = 9)%Z) by lia.
  repeat (destruct Hcases as [-> | Hcases]; [reflexivity|]). now subst.
Qed.

Lemma digitChar_white (n : Z) : isWhite (digitChar (n mod 10)) = false.
Proof. apply digitChar_noBlank. apply Z.mod_pos_bound. lia. Qed.

Lemma digitsOf_noBlank (fuel : nat) (n : Z) (acc : string) :
  noBlank acc -> noBlank (digitsOf fuel n acc) /\
  (acc <> EmptyString -> digitsOf fuel n acc <> EmptyString).
Proof.
  revert n acc. induction fuel as [|f IH]; intros n acc Hacc; simpl; [tauto|].
  assert (Hd : isWhite (digitChar (n mod 10)) = false)
    by (apply digitChar_noBlank; apply Z.mod_pos_bound; lia).
  destruct (n <? 10)%Z.
  - split; [now split | discriminate].
  - destruct (IH (n / 10)%Z (String (digitChar (n mod 10)) acc)) as [Hnb Hne]; [now split|].
    split; [exact Hnb | intros _; apply Hne; discriminate].
Qed.

Lemma digitsOf_nonEmpty (fuel : nat) (n : Z) : digitsOf (S fuel) n EmptyString <> EmptyString.
Proof.
  simpl. destruct (n <? 10)%Z; [discriminate|].
  apply (proj2 (digitsOf_noBlank fuel (n / 10)%Z (String (digitChar (n mod 10)) EmptyString)
                  (conj (digitChar_white n) I))).
  discriminate.
Qed.

Lemma stringOfZ_neat (n : Z) : neat (stringOfZ n).
Proof.
  unfold stringOfZ. destruct (n <? 0)%Z.
  - apply noBlank_neat; [discriminate|]. split; [reflexivity|].
    apply (proj1 (digitsOf_noBlank _ _ EmptyString I)).
  - apply noBlank_neat; [apply digitsOf_nonEmpty|].
    apply (proj1 (digitsOf_noBlank _ _ EmptyString I)).
Qed.

Lemma parseId_neat (value : JsVal) (s : string) : parseId value = Some s -> neat s.
Proof.
  destruct value; simpl; try discriminate.
  - intros [= <-]. apply stringOfZ_neat.
  - destruct (nonEmpty (trim s0)) eqn:E; [|discriminate]. intros [= <-]. now apply trim_neat.
Qed.

Lemma parseText_neat (value : JsVal) (s : string) : parseText value = Some s -> neat s.
Proof.
  destruct value; simpl; try discriminate.
  destruct (nonEmpty (trim s0)) eqn:E; [|discriminate]. intros [= <-]. now apply trim_neat.
Qed.

Lemma parseId_JStr_neat (s : string) : neat s -> parseId (JStr s) = Some s.
Proof. intro Hs. destruct (neat_trim s Hs) as [Ht Hne]. simpl. now rewrite Ht, Hne. Qed.

Lemma parseText_JStr_neat (s : string) : neat s -> parseText (JStr s) = Some s.
Proof. intro Hs. destruct (neat_trim s Hs) as [Ht Hne]. simpl. now rewrite Ht, Hne. Qed.

(** ** An event handed back to [adaptRawEvent] *)

Section AgainFacts.
Context {H : Host}.

(** *** The fields of the returned object, as [pickValue] finds them *)

Ltac pick_field :=
  intros; unfold toJs, eventObject;
  match goal with e : EventItem |- _ => destruct e end;
  cbn [e_id e_store_id e_detected_at e_ingested_at e_latency_ms e_type e_severity e_confidence
       e_zone_id e_camera_id e_track_id e_object_label e_raw_status e_source e_model_version
       e_incident_status e_x e_y e_world_x_m e_world_z_m e_note];
  match goal with
  | |- _ = optStr ?o => destruct o
  | |- _ => idtac
  end;
  vm_compute; reflexivity.

Lemma pick_camera (e : EventItem) : pickValue (toJs e) CAMERA_ID_PATHS = optStr (e_camera_id e).
Proof. pick_field. Qed.
Lemma pick_track (e : EventItem) : pickValue (toJs e) TRACK_ID_PATHS = optStr (e_track_id e).
Proof. pick_field. Qed.
Lemma pick_id (e : EventItem) : pickValue (toJs e) ID_PATHS = JStr (e_id e).
Proof. pick_field. Qed.
Lemma pick_detected (e : EventItem) :
  pickValue (toJs e) DETECTED_AT_PATHS = JNum (inject_Z (e_detected_at e)).
Proof. pick_field. Qed.
Lemma pick_ingested (e : EventItem) :
  pickValue (toJs e) INGESTED_AT_PATHS = JNum (inject_Z (e_ingested_at e)).
Proof. pick_field. Qed.
Lemma pick_latency (e : EventItem) :
  pickValue (toJs e) ["latency_ms"; "latencyMs"; "latency"; "delay_ms"] =
  JNum (inject_Z (e_latency_ms e)).
Proof. pick_field. Qed.
Lemma pick_status (e : EventItem) :
  pickValue (toJs e) ["status"; "state"; "event_status"; "result.status"; "payload.status"] =
  JUndefined.
Proof. pick_field. Qed.
Lemma pick_label (e : EventItem) :
  pickValue (toJs e) ["label"; "object.label"; "class"; "class_name"; "object.class";
                      "event_label"] = JUndefined.
Proof. pick_field. Qed.
Lemma pick_type (e : EventItem) :
  pickValue (toJs e) ["type"; "event_type"; "eventType"; "category"; "event_name"; "label"] =
  JStr (eventTypeName (e_type e)).
Proof. pick_field. Qed.
Lemma pick_state (e : EventItem) :
  pickValue (toJs e) ["status"; "state"; "event_status"; "eventState"] = JUndefined.
Proof. pick_field. Qed.
Lemma pick_severity (e : EventItem) :
  pickValue (toJs e) ["severity"; "priority"; "level"; "risk"; "risk_level"; "riskLevel";
                      "status"; "state"] = JNum (inject_Z (e_severity e)).
Proof. pick_field. Qed.
Lemma pick_confidence (e : EventItem) :
  pickValue (toJs e) ["confidence"; "score"; "probability"; "confidence_score";
                      "confidenceScore"] = JNum (e_confidence e).
Proof. pick_field. Qed.
Lemma pick_x (e : EventItem) : pickValue (toJs e) X_PATHS = JNum (e_x e).
Proof. pick_field. Qed.
Lemma pick_y (e : EventItem) : pickValue (toJs e) Y_PATHS = JNum (e_y e).
Proof. pick_field. Qed.

Lemma pick_zone (e : EventItem) : pickValue (toJs e) ZONE_ID_PATHS = JStr (e_zone_id e).
Proof. pick_field. Qed.
Lemma pick_store (e : EventItem) :
  pickValue (toJs e) ["store_id"; "storeId"; "store.id"; "site_id"; "siteId"; "shop_id";
                      "shopId"] = JStr (e_store_id e).
Proof. pick_field. Qed.
Lemma pick_source (e : EventItem) :
  pickValue (toJs e) ["source"; "provider"; "channel"; "origin"; "ingest_source"] =
  JStr (eventSourceName (e_source e)).
Proof. pick_field. Qed.
Lemma pick_incident (e : EventItem) :
  pickValue (toJs e) ["incident_status"; "incidentStatus"; "status"; "state"; "resolution";
                      "result.status"] = JStr (incidentStatusName (e_incident_status e)).
Proof. pick_field. Qed.
Lemma pick_model (e : EventItem) :
  pickValue (toJs e) ["model_version"; "modelVersion"; "model.version"] =
  optStr (e_model_version e).
Proof. pick_field. Qed.
Lemma pick_note (e : EventItem) :
  pickValue (toJs e) ["note"; "message"; "description"; "reason"; "summary";
                      "vlm_analysis.summary"] = optStr (e_note e).
Proof. pick_field. Qed.
Lemma pick_cause (e : EventItem) :
  pickValue (toJs e) ["vlm_analysis.cause"; "analysis.cause"] = JUndefined.
Proof. pick_field. Qed.
Lemma pick_action (e : EventItem) :
  pickValue (toJs e) ["vlm_analysis.action"; "analysis.action"; "action";
                      "recommended_action"] = JUndefined.
Proof. pick_field. Qed.

(** *** The parsers on the values of the fields *)

Lemma parseId_optStr (o : option string) : optNeat o -> parseId (optStr o) = o.
Proof.
  destruct o as [s|]; intro Ho; [|reflexivity]. apply parseId_JStr_neat. now apply Ho.
Qed.

Lemma parseText_optStr (o : option string) : optNeat o -> parseText (optStr o) = o.
Proof.
  destruct o as [s|]; intro Ho; [|reflexivity]. apply parseText_JStr_neat. now apply Ho.
Qed.

Lemma Math_round_inject (z : Z) : Math_round (inject_Z z) = z.
Proof.
  unfold Math_round, inject_Z, Qplus, Qfloor. cbn [Qnum Qden].
  replace (z * Z.pos 2 + 1 * Z.pos 1)%Z with (1 + z * 2)%Z by lia.
  change (Z.pos (1 * 2)) with 2%Z. rewrite Z.div_add by lia. reflexivity.
Qed.

Lemma Qle_bool_inject (a b : Z) : Qle_bool (inject_Z a) (inject_Z b) = (a <=? b)%Z.
Proof. unfold Qle_bool, inject_Z. cbn [Qnum Qden]. now rewrite !Z.mul_1_r. Qed.

Lemma normalizeEpoch_valid (q : Q) (d : Z) : normalizeEpoch q = Some d -> validEpoch d.
Proof.
  unfold normalizeEpoch, validEpoch.
  destruct (Math_round q <? MIN_VALID_EPOCH_MS)%Z eqn:E1; [discriminate|].
  destruct (Math_round q >? Date_now + MAX_FUTURE_DRIFT_MS)%Z eqn:E2; [discriminate|].
  intros [= <-]. apply Z.ltb_ge in E1. rewrite Z.gtb_ltb in E2. apply Z.ltb_ge in E2. lia.
Qed.

Lemma epochOfNumber_valid (q : Q) (d : Z) : epochOfNumber q = Some d -> validEpoch d.
Proof.
  unfold epochOfNumber. destruct (Qgeb _ _); [apply normalizeEpoch_valid|].
  destruct (_ && _); apply normalizeEpoch_valid.
Qed.

Lemma parseEpochMs_valid (value : JsVal) (d : Z) : parseEpochMs value = Some d -> validEpoch d.
Proof.
  destruct value; simpl; try discriminate; [apply epochOfNumber_valid|].
  destruct (negb _); [discriminate|].
  destruct (Number_of_string _); [apply epochOfNumber_valid|].
  destruct (Date_parse _); [apply normalizeEpoch_valid | discriminate].
Qed.

Lemma normalizeEpoch_again (d : Z) : validEpoch d -> normalizeEpoch (inject_Z d) = Some d.
Proof.
  intros [Hlo Hhi]. unfold normalizeEpoch. rewrite Math_round_inject.
  assert (E1 : (d <? MIN_VALID_EPOCH_MS)%Z = false) by (apply Z.ltb_ge; lia).
  assert (E2 : (d >? Date_now + MAX_FUTURE_DRIFT_MS)%Z = false)
    by (rewrite Z.gtb_ltb; apply Z.ltb_ge; lia).
  now rewrite E1, E2.
Qed.

Lemma parseEpochMs_again (d : Z) :
  validEpoch d -> parseEpochMs (JNum (inject_Z d)) = Some d.
Proof.
  intro Hd. simpl. unfold epochOfNumber, Qgeb. rewrite !Qle_bool_inject.
  destruct (1000000000000 <=? d)%Z; [now apply normalizeEpoch_again|].
  assert (E : (d <=? 100000000000)%Z = false).
  { apply Z.leb_gt. destruct Hd as [Hlo _]. unfold MIN_VALID_EPOCH_MS in Hlo. lia. }
  rewrite E, andb_false_r. now apply normalizeEpoch_again.
Qed.

Lemma normalizeSeverity_range (value : JsVal) (type : EventType) :
  (normalizeSeverity value type = 1 \/ normalizeSeverity value type = 2 \/
   normalizeSeverity value type = 3)%Z.
Proof.
  assert (Htype : (severityOfType type = 1 \/ severityOfType type = 2 \/
                   severityOfType type = 3)%Z) by (destruct type; simpl; tauto).
  destruct value; unfold normalizeSeverity; cbv zeta; try exact Htype.
  - repeat match goal with |- context [if ?b then _ else _] => destruct b end; tauto.
  - repeat (destruct (arrIncludes _ _); [tauto|]).
    destruct (Number_of_string _) as [asNum|]; [|exact Htype].
    destruct (Qgeb asNum 1 && Qle_bool asNum 3) eqn:E; [|exact Htype].
    apply andb_true_iff in E. destruct E as [E1 E3].
    apply Qgeb_ge in E1. apply Qle_bool_iff in E3. unfold Math_round.
    assert (H1 : (Qfloor (1 + (1 # 2)) <= Qfloor (asNum + (1 # 2)))%Z)
      by (apply Qfloor_resp_le; lra).
    assert (H3 : (Qfloor (asNum + (1 # 2)) <= Qfloor (3 + (1 # 2)))%Z)
      by (apply Qfloor_resp_le; lra).
    change (Qfloor (1 + (1 # 2))) with 1%Z in H1.
    change (Qfloor (3 + (1 # 2))) with 3%Z in H3.
    lia.
Qed.

Lemma normalizeSeverity_again (s : Z) (type : EventType) :
  (s = 1 \/ s = 2 \/ s = 3)%Z -> normalizeSeverity (JNum (inject_Z s)) type = s.
Proof. intros [-> | [-> | ->]]; reflexivity. Qed.

Lemma clampRange_idem (v : Q) : clampRange (clampRange v 0 1) 0 1 = clampRange v 0 1.
Proof. exact (clamp01_idem v). Qed.

Lemma normalizeConfidence_again (value : JsVal) (severity severity' : Z) :
  normalizeConfidence (JNum (normalizeConfidence value severity)) severity' =
  normalizeConfidence value severity.
Proof.
  assert (Hclamp : forall w, normalizeConfidence (JNum (clampRange w 0 1)) severity' =
                             clampRange w 0 1).
  { intro w. unfold normalizeConfidence. cbn [parseNumber].
    assert (E : Qgtb (clampRange w 0 1) 1 = false)
      by (apply Qgtb_le; apply (clampRange_unit w)).
    rewrite E. cbn [andb]. apply clampRange_idem. }
  unfold normalizeConfidence at 2 3.
  destruct (parseNumber value) as [parsed|].
  - destruct (_ && _); apply Hclamp.
  - destruct (severity =? 3)%Z; [reflexivity|]. destruct (severity =? 2)%Z; reflexivity.
Qed.

Lemma normalizeType_again (t : EventType) : normalizeType (JStr (eventTypeName t)) = t.
Proof. destruct t; reflexivity. Qed.

Lemma normalizeSource_again (src fallback : EventSource) :
  normalizeSource (JStr (eventSourceName src)) fallback = src.
Proof. destruct src; reflexivity. Qed.

Lemma normalizeIncidentStatus_again (st : IncidentStatus) :
  normalizeIncidentStatus (JStr (incidentStatusName st)) = st.
Proof. destruct st; reflexivity. Qed.

Lemma resolveEventType_again (e : EventItem) : resolveEventType (toJs e) = e_type e.
Proof.
  unfold resolveEventType. rewrite pick_type, pick_state, normalizeType_again.
  now destruct (e_type e).
Qed.

Lemma extractNote_again (e : EventItem) : optNeat (e_note e) -> extractNote (toJs e) = e_note e.
Proof.
  intro Hn. unfold extractNote. rewrite pick_note, pick_cause, pick_action.
  rewrite (parseText_optStr _ Hn). cbn [parseText List.app].
  now destruct (e_note e).
Qed.

Lemma normalizeCoordinate_unit (q : Q) : inUnit q -> normalizeCoordinate (JNum q) = Some q.
Proof.
  intros [H0 H1]. unfold normalizeCoordinate. cbn [parseNumber].
  apply Qgeb_ge in H0. apply Qle_bool_iff in H1. now rewrite H0, H1.
Qed.

Lemma extractCoordinates_again (e : EventItem) (cameraId : option string) :
  inUnit (e_x e) -> inUnit (e_y e) ->
  extractCoordinates (toJs e) cameraId = Some (plainCoords (e_x e) (e_y e)).
Proof.
  intros Hx Hy. unfold extractCoordinates. rewrite pick_x, pick_y.
  now rewrite (normalizeCoordinate_unit _ Hx), (normalizeCoordinate_unit _ Hy).
Qed.

(** A well-formed event handed back to [adaptRawEvent] is accepted, and
    comes back with the same fields read from the object. *)
Lemma adaptRawEvent_again (options : NormalizeOptions) (e : EventItem) :
  wellFormed options e ->
  exists e', adaptRawEvent (toJs e) options = Some e' /\ sameFields e e'.
Proof.
  intros (Hid & Hstore & Hdet & Hing & Hlat & Hsev & Hconf & Hcam & Htrack & Hmodel & Hnote &
          Hx & Hy).
  unfold adaptRawEvent.
  change (asRecord (toJs e)) with (Some (toJs e)). cbv iota beta.
  rewrite pick_camera, pick_track, pick_id, pick_detected, pick_ingested, pick_latency,
    pick_status, pick_label, pick_severity, pick_confidence, pick_store, pick_source,
    pick_incident, pick_model.
  rewrite (parseId_optStr _ Hcam), (parseId_optStr _ Htrack), (parseId_optStr _ Hmodel).
  rewrite (parseId_JStr_neat _ Hid). cbn [resolveId].
  rewrite (parseEpochMs_again _ Hdet), (parseEpochMs_again _ Hing).
  rewrite (extractCoordinates_again e _ Hx Hy).
  eexists. split; [reflexivity|].
  unfold sameFields.
  cbn [e_id e_store_id e_detected_at e_ingested_at e_latency_ms e_type e_severity e_confidence
       e_camera_id e_track_id e_object_label e_raw_status e_source e_model_version
       e_incident_status e_note stringOnly orElse parseNumber].
  rewrite Math_round_inject, resolveEventType_again, (normalizeSeverity_again _ _ Hsev), Hconf,
    normalizeSource_again, normalizeIncidentStatus_again, (extractNote_again e Hnote).
  repeat split; try reflexivity.
  - exact Hstore.
  - lia.
Qed.

End AgainFacts.

(** ** The zone and the point of an event handed back *)
Section PlaceFacts.
Context {H : Host}.

Lemma spiralSnap_clamped (x0 y0 : Q) (isWalkable : Q -> Q -> bool) (step : Q) (maxRings : Z)
    (p : Point) :
  spiralSnap x0 y0 isWalkable step maxRings = Some p -> exists q, p = clampPoint q.
Proof.
  unfold spiralSnap. intro Hsnap.
  pose proof (ringLoop_spec x0 y0 isWalkable step (Z.to_nat maxRings) 1) as Hspec.
  rewrite Hsnap in Hspec. destruct Hspec as (ring & _ & (Hin & _) & _).
  unfold ringCandidates in Hin. apply in_map_iff in Hin. destruct Hin as (q & <- & _).
  now exists q.
Qed.

Lemma centroidCoord_clamped (c : option Q) (size : Q) :
  clampRange (centroidCoord c size) 0 1 = centroidCoord c size.
Proof. destruct c as [v|]; cbn [centroidCoord]; [apply clampRange_idem | reflexivity]. Qed.

Lemma zone_centroid_clamped (zid : string) (zone : ZoneGeometry) :
  JsMap.get (ZONE_GEOMETRY_BY_ID zm) zid = Some zone ->
  clampRange (fst (zcentroid zone)) 0 1 = fst (zcentroid zone) /\
  clampRange (snd (zcentroid zone)) 0 1 = snd (zcentroid zone).
Proof.
  intro Hget. destruct (zone_lookup _ _ Hget) as (_ & raw & _ & ->). cbn [zcentroid buildZoneGeometry].
  destruct (JsMap.get (ZONE_CENTROIDS zm) (zone_id raw)) as [c|] eqn:Hc; [|split; reflexivity].
  apply get_ofEntries in Hc. apply in_map_iff in Hc. destruct Hc as (z & Hentry & _).
  unfold centroidEntry in Hentry.
  destruct (centroid z) as [[|cx [|cy rest]]|]; inversion Hentry; subst; cbn [fst snd];
    try (split; reflexivity).
  split; apply centroidCoord_clamped.
Qed.

Lemma snap_clamped (coordinates : NormalizedCoordinates) (zid : string) :
  let snapped := snapCoordinatesToFloor coordinates zid in
  clampRange (c_x snapped) 0 1 = c_x snapped /\ clampRange (c_y snapped) 0 1 = c_y snapped.
Proof.
  cbv zeta. unfold snapCoordinatesToFloor.
  destruct (JsMap.get (ZONE_GEOMETRY_BY_ID zm) zid) as [zone|] eqn:Hzone.
  - pose proof (zone_centroid_clamped _ _ Hzone) as Hc.
    destruct (pointInZoneWalkable _ _ zone);
      [cbn [c_x c_y]; split; apply clampRange_idem|].
    destruct (negb _); [exact Hc|].
    destruct (spiralSnap _ _ _ _ _) as [snapped|] eqn:Hsnap; [|exact Hc].
    apply spiralSnap_clamped in Hsnap. destruct Hsnap as (q & ->).
    cbn [coordsAt c_x c_y clampPoint fst snd]. split; apply clampRange_idem.
  - destruct (walkableAnywhere _ _); [cbn [c_x c_y]; split; apply clampRange_idem|].
    destruct (spiralSnap _ _ _ _ _) as [snapped|] eqn:Hsnap;
      [|cbn [c_x c_y]; split; apply clampRange_idem].
    apply spiralSnap_clamped in Hsnap. destruct Hsnap as (q & ->).
    cbn [coordsAt c_x c_y clampPoint fst snd]. split; apply clampRange_idem.
Qed.

Lemma nearestZone_from (x y : Q) (start : string) :
  nearestZone x y start = start \/ In (nearestZone x y start) (JsMap.keys (ZONE_CENTROIDS zm)).
Proof.
  unfold nearestZone.
  assert (Hgen : forall entries acc,
            fst acc = start \/ In (fst acc) (JsMap.keys (ZONE_CENTROIDS zm)) ->
            (forall e, In e entries -> In (fst e) (JsMap.keys (ZONE_CENTROIDS zm))) ->
            let r := fold_left
              (fun (acc : string * option Q) (entry : string * Point) =>
                 let distance := dist2 x y (fst (snd entry)) (snd (snd entry)) in
                 if closer distance (snd acc) then (fst entry, Some distance) else acc)
              entries acc in
            fst r = start \/ In (fst r) (JsMap.keys (ZONE_CENTROIDS zm))).
  { induction entries as [|e entries IH]; intros acc Hacc Hall; simpl; [exact Hacc|].
    apply IH; [|intros e' He'; apply Hall; now right].
    destruct (closer _ _); [|exact Hacc]. right. apply Hall. now left. }
  apply Hgen; [now left|].
  intros e He. unfold JsMap.keys. now apply in_map.
Qed.

Lemma centroid_key_is_zone (k : string) :
  In k (JsMap.keys (ZONE_CENTROIDS zm)) -> In k (ZONE_IDS zm).
Proof.
  unfold JsMap.keys. intro Hin. apply in_map_iff in Hin. destruct Hin as ([k' c] & <- & Hin).
  apply In_ofEntries in Hin. apply in_map_iff in Hin. destruct Hin as (zone & Hentry & Hzone).
  apply filter_In in Hzone. destruct Hzone as [Hzone _].
  assert (Hk : k' = zone_id zone).
  { unfold centroidEntry in Hentry.
    destruct (centroid zone) as [[|cx [|cy rest]]|]; now inversion Hentry. }
  cbn [fst]. rewrite Hk. unfold ZONE_IDS. now apply in_map.
Qed.

Lemma In_arrIncludes (l : list string) (s : string) : In s l -> arrIncludes l s = true.
Proof.
  intro Hin. unfold arrIncludes. apply existsb_exists. exists s.
  split; [exact Hin | apply String.eqb_refl].
Qed.

(** The zone id of an event is one that [resolveZoneId] returns as it is
    when it reads it as the explicit id: trimmed, not empty, and a zone id of
    the map or not a generic word. *)
Lemma resolveZoneId_reads_back (record : JsVal) (coordinates : NormalizedCoordinates) :
  neatZoneIds H ->
  neat (resolveZoneId record coordinates) /\
  (arrIncludes (ZONE_IDS zm) (resolveZoneId record coordinates) = true \/
   arrIncludes GENERIC_ZONE_IDS (toLowerCase (resolveZoneId record coordinates)) = false).
Proof.
  intro Hneat. unfold resolveZoneId.
  set (byGeometry := match find _ (ZONE_GEOMETRIES zm) with
                     | Some hitOuter => zoneId hitOuter
                     | None => _
                     end).
  assert (Hgeo : In byGeometry (ZONE_IDS zm) \/ byGeometry = "zone-s001-center").
  { unfold byGeometry.
    destruct (find _ (ZONE_GEOMETRIES zm)) as [hitOuter|] eqn:Hfind.
    - left. apply find_some in Hfind. destruct Hfind as [Hin _].
      unfold ZONE_GEOMETRIES in Hin. apply in_map_iff in Hin.
      destruct Hin as (raw & <- & Hraw). cbn [zoneId buildZoneGeometry].
      unfold ZONE_IDS. now apply in_map.
    - destruct (zones zm) as [|zone rest] eqn:Ez.
      + destruct (nearestZone_from (c_x coordinates) (c_y coordinates) "zone-s001-center")
          as [-> | Hk]; [now right|].
        left. now apply centroid_key_is_zone in Hk.
      + left.
        destruct (nearestZone_from (c_x coordinates) (c_y coordinates) (zone_id zone))
          as [-> | Hk].
        * unfold ZONE_IDS. rewrite Ez. now left.
        * now apply centroid_key_is_zone in Hk. }
  assert (Hgeo' : neat byGeometry /\
                  (arrIncludes (ZONE_IDS zm) byGeometry = true \/
                   arrIncludes GENERIC_ZONE_IDS (toLowerCase byGeometry) = false)).
  { destruct Hgeo as [Hin | ->].
    - split; [now apply Hneat | left; now apply In_arrIncludes].
    - split; [|right; reflexivity].
      split; [reflexivity | split; [discriminate | reflexivity]]. }
  destruct (parseId (pickValue record ZONE_ID_PATHS)) as [z|] eqn:Hz; [|exact Hgeo'].
  apply parseId_neat in Hz.
  destruct (arrIncludes (ZONE_IDS zm) z) eqn:Ein; [split; [exact Hz | now left]|].
  destruct (arrIncludes GENERIC_ZONE_IDS (toLowerCase z)) eqn:Egen; cbn [negb];
    [exact Hgeo'|].
  split; [exact Hz | now right].
Qed.

Lemma resolveZoneId_again (e : EventItem) (coordinates : NormalizedCoordinates) :
  neat (e_zone_id e) ->
  arrIncludes (ZONE_IDS zm) (e_zone_id e) = true \/
  arrIncludes GENERIC_ZONE_IDS (toLowerCase (e_zone_id e)) = false ->
  resolveZoneId (toJs e) coordinates = e_zone_id e.
Proof.
  intros Hneat Hz. unfold resolveZoneId. cbv zeta.
  rewrite pick_zone, (parseId_JStr_neat _ Hneat).
  destruct (arrIncludes (ZONE_IDS zm) (e_zone_id e)); [reflexivity|].
  destruct Hz as [Hz | Hz]; [discriminate|]. now rewrite Hz.
Qed.

(** The zone and the snapped coordinates behind an accepted record. *)
Lemma adaptRawEvent_snapped (value : JsVal) (options : NormalizeOptions) (ev : EventItem) :
  adaptRawEvent value options = Some ev ->
  exists coordinates,
    extractCoordinates value (parseId (pickValue value CAMERA_ID_PATHS)) = Some coordinates /\
    e_zone_id ev = resolveZoneId value coordinates /\
    snapCoordinatesToFloor coordinates (e_zone_id ev) =
      {| c_x := e_x ev; c_y := e_y ev;
         c_worldX := e_world_x_m ev; c_worldZ := e_world_z_m ev |}.
Proof.
  unfold adaptRawEvent, asRecord.
  destruct (isObjectLike value); [|discriminate].
  destruct (resolveId _ _ _) as [id|]; [|discriminate].
  destruct (parseEpochMs (pickValue value DETECTED_AT_PATHS)) as [detectedAt|]; [|discriminate].
  destruct (extractCoordinates _ _) as [coordinates|]; [|discriminate].
  intros [= <-]. exists coordinates.
  cbn [e_zone_id e_x e_y e_world_x_m e_world_z_m].
  split; [reflexivity|]. split; [reflexivity|].
  now destruct (snapCoordinatesToFloor coordinates (resolveZoneId value coordinates)).
Qed.

(** Where a snap ends: with a zone, on a walkable point of it or on its
    centroid; without, on a point clear of every hole or on one from which
    the spiral finds nothing. *)
Lemma snap_cases (coordinates : NormalizedCoordinates) (zid : string) :
  let s := snapCoordinatesToFloor coordinates zid in
  match JsMap.get (ZONE_GEOMETRY_BY_ID zm) zid with
  | Some zone =>
      pointInZoneWalkable (c_x s) (c_y s) zone = true \/
      s = coordsAt (fst (zcentroid zone)) (snd (zcentroid zone))
  | None =>
      walkableAnywhere (c_x s) (c_y s) = true \/
      spiralSnap (c_x s) (c_y s) walkableAnywhere SPIRAL_STEP SPIRAL_MAX_RINGS = None
  end.
Proof.
  cbv zeta. unfold snapCoordinatesToFloor. cbv zeta.
  set (x0 := clampRange (c_x coordinates) 0 1). set (y0 := clampRange (c_y coordinates) 0 1).
  destruct (JsMap.get (ZONE_GEOMETRY_BY_ID zm) zid) as [zone|].
  - destruct (pointInZoneWalkable x0 y0 zone) eqn:Hw; [left; exact Hw|].
    destruct (negb (pointInPolygon x0 y0 (outer zone))); [now right|].
    destruct (spiralSnap x0 y0 _ _ _) as [p|] eqn:Hsnap; [|now right].
    left. apply spiralSnap_Some in Hsnap. exact (proj2 (proj2 Hsnap)).
  - destruct (walkableAnywhere x0 y0) eqn:Hw; [left; exact Hw|].
    destruct (spiralSnap x0 y0 _ _ _) as [p|] eqn:Hsnap.
    + left. apply spiralSnap_Some in Hsnap. exact (proj2 (proj2 Hsnap)).
    + right. exact Hsnap.
Qed.

(** Snapping the bare point of a snapped position again, in the same zone. *)
Lemma snap_again (coordinates : NormalizedCoordinates) (zid : string) :
  let s := snapCoordinatesToFloor coordinates zid in
  let s' := snapCoordinatesToFloor (plainCoords (c_x s) (c_y s)) zid in
  match JsMap.get (ZONE_GEOMETRY_BY_ID zm) zid with
  | Some zone =>
      (pointInZoneWalkable (c_x s) (c_y s) zone = true ->
       s' = plainCoords (c_x s) (c_y s)) /\
      (pointInZoneWalkable (c_x s) (c_y s) zone = false ->
       pointInPolygon (c_x s) (c_y s) (outer zone) = false \/
       spiralSnap (c_x s) (c_y s) (fun x y => pointInZoneWalkable x y zone)
                  SPIRAL_STEP SPIRAL_MAX_RINGS = None ->
       s' = s)
  | None => s' = plainCoords (c_x s) (c_y s)
  end.
Proof.
  cbv zeta. pose proof (snap_cases coordinates zid) as Hcases. cbv zeta in Hcases.
  pose proof (snap_clamped coordinates zid) as Hclamp. cbv zeta in Hclamp.
  destruct Hclamp as [Hx Hy].
  set (s := snapCoordinatesToFloor coordinates zid) in *.
  unfold snapCoordinatesToFloor. cbv zeta.
  cbn [plainCoords c_x c_y c_worldX c_worldZ]. rewrite Hx, Hy.
  destruct (JsMap.get (ZONE_GEOMETRY_BY_ID zm) zid) as [zone|].
  - split.
    + intro Hw. now rewrite Hw.
    + intros Hw Hstay. rewrite Hw. destruct Hcases as [Hw' | Hs]; [congruence|].
      destruct (pointInPolygon (c_x s) (c_y s) (outer zone)) eqn:Hin; cbn [negb].
      * destruct Hstay as [Hout | Hnone]; [discriminate|]. rewrite Hnone. now symmetry.
      * now symmetry.
  - destruct Hcases as [Hw | Hnone].
    + now rewrite Hw.
    + destruct (walkableAnywhere (c_x s) (c_y s)); [reflexivity|]. now rewrite Hnone.
Qed.

End PlaceFacts.

(** ** What [adaptRawEvent] returns is well formed *)
Section WellFormedFacts.
Context {H : Host}.

Lemma neat_between (a x b : string) : startsClean a -> endsClean b -> neat (a ++ x ++ b).
Proof.
  intros Ha Hb. split; [now apply startsClean_append|].
  apply endsClean_append. now apply endsClean_append.
Qed.

Lemma resolveId_neat (explicitId cameraId trackId : option string) (id : string) :
  optNeat explicitId -> optNeat cameraId -> optNeat trackId ->
  resolveId explicitId cameraId trackId = Some id -> neat id.
Proof.
  intros He Hc Ht. unfold resolveId.
  destruct explicitId as [i|]; [intros [= <-]; now apply He|].
  destruct trackId as [t|]; [|discriminate]. intros [= <-].
  assert (Hcam : startsClean (match cameraId with Some c => c | None => "cam-unknown" end)).
  { destruct cameraId as [c|]; [exact (proj1 (Hc c eq_refl)) | reflexivity]. }
  exact (neat_between _ ":track-" t Hcam (proj2 (Ht t eq_refl))).
Qed.

Lemma optNeat_parseId (value : JsVal) : optNeat (parseId value).
Proof. intros s Hs. now apply parseId_neat in Hs. Qed.

Lemma optNeat_parseText (value : JsVal) : optNeat (parseText value).
Proof. intros s Hs. now apply parseText_neat in Hs. Qed.

Lemma joinBar_starts (c : string) (rest : list string) :
  startsClean c -> startsClean (joinBar (c :: rest)).
Proof.
  intro Hc. destruct rest as [|c' rest]; [exact Hc|].
  change (joinBar (c :: c' :: rest)) with (c ++ (" | " ++ joinBar (c' :: rest)))%string.
  now apply startsClean_append.
Qed.

Lemma joinBar_ends (chunks : list string) :
  chunks <> [] -> endsClean (last chunks EmptyString) -> endsClean (joinBar chunks).
Proof.
  induction chunks as [|c rest IH]; intros Hne Hlast; [contradiction|].
  destruct rest as [|c' rest]; [exact Hlast|].
  change (joinBar (c :: c' :: rest)) with (c ++ (" | " ++ joinBar (c' :: rest)))%string.
  apply endsClean_append, endsClean_append. apply IH; [discriminate | exact Hlast].
Qed.

Lemma optNeat_Some (s : string) : neat s -> optNeat (Some s).
Proof. intros Hs s' [= <-]. exact Hs. Qed.

Lemma extractNote_neat (record : JsVal) : optNeat (extractNote record).
Proof.
  unfold extractNote.
  pose proof (optNeat_parseText (pickValue record
    ["note"; "message"; "description"; "reason"; "summary"; "vlm_analysis.summary"])) as Hd.
  pose proof (optNeat_parseText (pickValue record ["vlm_analysis.cause"; "analysis.cause"])) as Hc.
  pose proof (optNeat_parseText (pickValue record
    ["vlm_analysis.action"; "analysis.action"; "action"; "recommended_action"])) as Ha.
  destruct (parseText (pickValue record ["note"; _; _; _; _; _])) as [d|];
  destruct (parseText (pickValue record ["vlm_analysis.cause"; _])) as [c|];
  destruct (parseText (pickValue record ["vlm_analysis.action"; _; _; _])) as [a|];
    simpl (List.app _ _); cbv beta iota zeta;
    try specialize (Hd _ eq_refl); try specialize (Hc _ eq_refl); try specialize (Ha _ eq_refl);
    try (intros s Hs; discriminate Hs);
    apply optNeat_Some; try exact Hd;
    (split; [apply joinBar_starts; first [exact (proj1 Hd) | reflexivity]
            | apply joinBar_ends; [discriminate|];
              first [exact (endsClean_append "action:" a (proj2 Ha))
                    | exact (endsClean_append "cause:" c (proj2 Hc))]]).
Qed.

Lemma store_id_stable (options : NormalizeOptions) (storeIdRaw : option string) :
  trimmedFallback options -> optNeat storeIdRaw ->
  let storeId := orElse storeIdRaw (orElse (fallbackStoreId options) "s001") in
  orElse (parseId (JStr storeId)) (orElse (fallbackStoreId options) "s001") = storeId.
Proof.
  intros Hfb Hraw. destruct storeIdRaw as [s|]; cbn [orElse].
  - now rewrite (parseId_JStr_neat s (Hraw s eq_refl)).
  - destruct (fallbackStoreId options) as [f|] eqn:Ef; cbn [orElse]; [|reflexivity].
    cbn [parseId]. rewrite (Hfb f Ef). now destruct (nonEmpty f).
Qed.

Lemma adaptRawEvent_wellFormed (value : JsVal) (options : NormalizeOptions) (e : EventItem) :
  trimmedFallback options -> adaptRawEvent value options = Some e -> wellFormed options e.
Proof.
  intros Hfb Hev.
  assert (Hxy : inUnit (e_x e) /\ inUnit (e_y e)).
  { destruct (adaptRawEvent_Some _ _ _ Hev) as (c & _ & _ & _ & _ & _ & -> & ->).
    apply snap_unit. }
  destruct Hxy as [Hx Hy].
  revert Hev. unfold adaptRawEvent.
  destruct (asRecord value) as [record|]; [|discriminate].
  destruct (resolveId _ _ _) as [id|] eqn:Hid; [|discriminate].
  destruct (parseEpochMs (pickValue record DETECTED_AT_PATHS)) as [detectedAt|] eqn:Hdet;
    [|discriminate].
  destruct (extractCoordinates _ _) as [coordinates|]; [|discriminate].
  intros [= <-]. unfold wellFormed.
  cbn [e_id e_store_id e_detected_at e_ingested_at e_latency_ms e_severity e_confidence
       e_camera_id e_track_id e_model_version e_note e_x e_y] in *.
  split; [|split; [|split; [|split; [|split; [|split; [|split; [|split; [|split; [|split;
    [|split; [|split]]]]]]]]]]].
  - apply (resolveId_neat _ _ _ _ (optNeat_parseId _) (optNeat_parseId _) (optNeat_parseId _) Hid).
  - apply (store_id_stable options _ Hfb (optNeat_parseId _)).
  - now apply parseEpochMs_valid in Hdet.
  - apply parseEpochMs_valid in Hdet.
    match goal with |- validEpoch (orElse ?o _) => destruct o as [ing|] eqn:Hing end;
      cbn [orElse]; [now apply parseEpochMs_valid in Hing | exact Hdet].
  - destruct (parseNumber _); apply Z.le_max_l.
  - apply normalizeSeverity_range.
  - intro severity. apply normalizeConfidence_again.
  - apply optNeat_parseId.
  - apply optNeat_parseId.
  - apply optNeat_parseId.
  - apply extractNote_neat.
  - exact Hx.
  - exact Hy.
Qed.

(** *** An accepted record, adapted again *)

(** The event of an accepted record, handed back as the object it is, is
    accepted and comes back as [sameCore] says. *)
Lemma adaptRawEvent_twice (value : JsVal) (options : NormalizeOptions) (e : EventItem) :
  trimmedFallback options -> neatZoneIds H ->
  adaptRawEvent value options = Some e ->
  exists e', adaptRawEvent (toJs e) options = Some e' /\ sameCore e e'.
Proof.
  intros Hfb Hzones Hev.
  destruct (adaptRawEvent_again options e (adaptRawEvent_wellFormed _ _ _ Hfb Hev))
    as (e' & Hev' & Hfields).
  exists e'. split; [exact Hev'|].
  destruct (adaptRawEvent_snapped _ _ _ Hev) as (c & _ & Hzone & Hs).
  destruct (adaptRawEvent_snapped _ _ _ Hev') as (c' & Hc' & Hzone' & Hs').
  assert (Hxy : inUnit (e_x e) /\ inUnit (e_y e)).
  { pose proof (snap_unit c (e_zone_id e)) as Hu. now rewrite Hs in Hu. }
  rewrite (extractCoordinates_again e _ (proj1 Hxy) (proj2 Hxy)) in Hc'.
  injection Hc' as <-.
  assert (Hz : e_zone_id e' = e_zone_id e).
  { rewrite Hzone'. destruct (resolveZoneId_reads_back value c Hzones) as [Hn Hk].
    rewrite <- Hzone in Hn, Hk. now apply resolveZoneId_again. }
  rewrite Hz in Hs'.
  pose proof (snap_again c (e_zone_id e)) as Hagain. cbv zeta in Hagain.
  rewrite Hs in Hagain. cbn [c_x c_y] in Hagain. rewrite Hs' in Hagain.
  unfold plainCoords in Hagain.
  unfold sameCore, samePoint. split; [exact Hfields|]. split; [exact Hz|].
  destruct (JsMap.get (ZONE_GEOMETRY_BY_ID zm) (e_zone_id e)) as [zone|].
  - destruct Hagain as [Hkeep Hstay]. split.
    + intro Hw. apply pointInZoneWalkable_spec in Hw.
      specialize (Hkeep Hw). injection Hkeep as Ex Ey Ewx Ewz. now rewrite Ex, Ey, Ewx, Ewz.
    + intros Hnw Hcase.
      assert (Hw : pointInZoneWalkable (e_x e) (e_y e) zone = false).
      { destruct (pointInZoneWalkable (e_x e) (e_y e) zone) eqn:E; [|reflexivity].
        exfalso. apply Hnw. now apply pointInZoneWalkable_spec. }
      specialize (Hstay Hw Hcase). injection Hstay as Ex Ey Ewx Ewz.
      now rewrite Ex, Ey, Ewx, Ewz.
  - injection Hagain as Ex Ey Ewx Ewz. now rewrite Ex, Ey, Ewx, Ewz.
Qed.

(** *** The feed on its own output *)

Lemma set_absent {V : Type} (m : JsMap.t (V := V)) (k : string) (v : V) :
  JsMap.get m k = None -> JsMap.set m k v = (m ++ [(k, v)])%list.
Proof.
  induction m as [|[k' v'] rest IH]; simpl; [reflexivity|].
  destruct (String.eqb k' k); [discriminate|]. intro Hget. now rewrite IH.
Qed.

Lemma dedupe_distinct_from (l : list EventItem) (m : JsMap.t (V := EventItem)) :
  NoDup (JsMap.keys m ++ map e_id l) ->
  fold_left dedupeStep l m = (m ++ map (fun e => (e_id e, e)) l)%list.
Proof.
  revert m. induction l as [|e l IH]; intros m Hnd; simpl; [now rewrite app_nil_r|].
  assert (Hget : JsMap.get m (e_id e) = None).
  { apply get_None_keys. intro Hin. apply NoDup_remove_2 in Hnd. apply Hnd.
    apply in_or_app. now left. }
  unfold dedupeStep at 2. rewrite Hget, (set_absent _ _ _ Hget).
  rewrite IH.
  - now rewrite <- app_assoc.
  - unfold JsMap.keys. rewrite map_app. simpl. rewrite <- app_assoc. exact Hnd.
Qed.

Lemma dedupe_distinct (l : list EventItem) :
  NoDup (map e_id l) -> JsMap.values (fold_left dedupeStep l []) = l.
Proof.
  intro Hnd. rewrite (dedupe_distinct_from l []) by exact Hnd.
  unfold JsMap.values. simpl. rewrite map_map. simpl. apply map_id.
Qed.

Lemma jsSort_sorted_same {A : Type} (compare : A -> A -> Z) (R : A -> A -> Prop) (l : list A) :
  (forall a b, R a b -> (compare a b <= 0)%Z) ->
  StronglySorted R l -> jsSort compare l = l.
Proof.
  intros HR Hs. induction Hs as [|a l Hs IH Hall]; [reflexivity|].
  unfold jsSort in *. simpl. rewrite IH.
  destruct l as [|b rest]; [reflexivity|]. simpl.
  inversion Hall as [|? ? Hab _]; subst.
  apply HR, Z.leb_le in Hab. now rewrite Hab.
Qed.

Lemma StronglySorted_Forall2 {A : Type} (R R' : A -> A -> Prop) (P : A -> A -> Prop)
    (l l' : list A) :
  (forall a b a' b', P a a' -> P b b' -> R a b -> R' a' b') ->
  Forall2 P l l' -> StronglySorted R l -> StronglySorted R' l'.
Proof.
  intros HP HF. induction HF as [|a a' l l' Hp HF IH]; intro Hs; [constructor|].
  inversion Hs as [|? ? Hs' Hall]; subst. constructor; [now apply IH|].
  clear IH Hs Hs'. induction HF as [|b b' l l' Hq HF IH]; [constructor|].
  inversion Hall; subst. constructor; [now apply (HP a b a' b') | now apply IH].
Qed.

Lemma filterMap_Forall2 {A B : Type} (f : A -> option B) (P : A -> B -> Prop) (l : list A) :
  (forall a, In a l -> exists b, f a = Some b /\ P a b) ->
  Forall2 P l (filterMap f l).
Proof.
  induction l as [|a l IH]; intro Hall; simpl; [constructor|].
  destruct (Hall a (or_introl eq_refl)) as (b & Hf & Hp). rewrite Hf.
  constructor; [exact Hp|]. apply IH. intros a' Ha'. apply Hall. now right.
Qed.

Lemma filterMap_map {A B C : Type} (f : B -> option C) (g : A -> B) (l : list A) :
  filterMap f (map g l) = filterMap (fun a => f (g a)) l.
Proof.
  induction l as [|a l IH]; simpl; [reflexivity|]. now rewrite IH.
Qed.

Lemma Forall2_sameCore_ids (l l' : list EventItem) :
  Forall2 sameCore l l' -> map e_id l' = map e_id l.
Proof.
  induction 1 as [|a b l l' Hab _ IH]; simpl; [reflexivity|].
  now rewrite IH, (proj1 (proj1 Hab)).
Qed.

Lemma feedOrder_sameCore (a b a' b' : EventItem) :
  sameCore a a' -> sameCore b b' -> feedOrder a b -> feedOrder a' b'.
Proof.
  intros ((Hia & _ & Hda & Hga & _) & _) ((Hib & _ & Hdb & Hgb & _) & _). unfold feedOrder.
  now rewrite Hia, Hib, Hda, Hdb, Hga, Hgb.
Qed.

(** C5, amended.  Feeding the array that [normalizeEventFeed] returns back
    into it, with the same options, returns as many events in the same order,
    each with the same [id], [store_id], [detected_at], [ingested_at],
    [latency_ms], [type], [severity], [confidence], [zone_id], [camera_id],
    [track_id], [source], [model_version], [incident_status] and [note] as the
    event in its place; [raw_status] and [object_label] come back
    [undefined].  The point [x], [y] is the same too, unless the event sits,
    in a zone of the map, on a point that is not walkable but inside the outer
    polygon (by C2 the centroid of the zone) and the spiral search from it
    finds a walkable point.  [world_x_m] and [world_z_m] come back
    [undefined] for a point that is walkable in its zone or whose zone id
    names no zone, and as they were for a point that is kept without being
    walkable.  (The clock and the string order of the host are the same in
    both runs, the fallback store id has no blank at its ends, and the zone
    ids of the map are trimmed and not empty.) *)
Theorem normalizeEventFeed_again (items : list JsVal) (options : NormalizeOptions) :
  lawfulCompare H -> trimmedFallback options -> neatZoneIds H ->
  Forall2 sameCore (normalizeEventFeed (JArr items) options)
    (normalizeEventFeed (feedBack (normalizeEventFeed (JArr items) options)) options).
Proof.
  intros Hlaw Hfb Hzones.
  destruct (sorted_feed_facts items options Hlaw) as (Hfrom & _ & Hnd & Hsorted0).
  set (full := jsSort compareEvents _) in *.
  set (out := normalizeEventFeed (JArr items) options).
  assert (Hout : out = firstn (Z.to_nat (Qfloor (safeMaxEvents options))) full) by reflexivity.
  assert (Hsorted : StronglySorted feedOrder out)
    by (rewrite Hout; now apply StronglySorted_firstn).
  set (again := filterMap (fun item => adaptRawEvent item options) (map toJs out)).
  assert (Hagain : Forall2 sameCore out again).
  { unfold again. rewrite filterMap_map. apply filterMap_Forall2.
    intros e He. rewrite Hout in He. apply In_firstn in He.
    destruct (Hfrom e He) as (item & _ & Hitem).
    exact (adaptRawEvent_twice item options e Hfb Hzones Hitem). }
  assert (Hids : NoDup (map e_id again)).
  { rewrite (Forall2_sameCore_ids _ _ Hagain). rewrite Hout, <- firstn_map.
    now apply NoDup_firstn. }
  assert (Hsorted' : StronglySorted feedOrder again)
    by exact (StronglySorted_Forall2 _ _ _ _ _ feedOrder_sameCore Hagain Hsorted).
  assert (Hresult : normalizeEventFeed (feedBack out) options = again).
  { unfold feedBack, normalizeEventFeed. fold again.
    rewrite (dedupe_distinct again Hids).
    rewrite (jsSort_sorted_same compareEvents feedOrder again
               (fun a b => proj2 (compareEvents_feedOrder a b)) Hsorted').
    unfold sliceTo. apply firstn_all2.
    rewrite <- (Forall2_length Hagain), Hout.
    apply firstn_le_length. }
  now rewrite Hresult.
Qed.

End WellFormedFacts.

(** Witness of C5 (amended): the sample feed on the sample floor, whose one
    zone id is "zone-a". *)
Lemma normalizeEventFeed_again_witness :
  Forall2 (sameCore (H := Demo.host))
    (normalizeEventFeed (H := Demo.host) Demo.feed Demo.options)
    (normalizeEventFeed (H := Demo.host)
       (feedBack (normalizeEventFeed (H := Demo.host) Demo.feed Demo.options)) Demo.options).
Proof.
  apply (normalizeEventFeed_again (H := Demo.host) Demo.feedItems Demo.options demo_host_lawful).
  - intros f [= <-]. reflexivity.
  - intros z Hz. vm_compute in Hz. destruct Hz as [<- | []].
    split; [reflexivity | split; [discriminate | reflexivity]].
Defined.

(** Counterexample to C5 as stated: the feed of the one record
    [{ id: "e1", ts: 1700000000000, x: 0.2, y: 0.2, status: "open" }] returns an
    event with [raw_status = "open"]; fed back, it returns an event of the same
    id with [raw_status] undefined. *)
Lemma renormalized_feed_drops_raw_status :
  exists e e',
    normalizeEventFeed (H := Demo.host) (JArr [Demo.recordOpen]) Demo.options = [e] /\
    normalizeEventFeed (H := Demo.host) (feedBack [e]) Demo.options = [e'] /\
    e_id e' = e_id e /\ e_raw_status e = Some "open" /\ e_raw_status e' = None.
Proof.
  eexists. eexists. split; [vm_compute; reflexivity|]. split; [vm_compute; reflexivity|].
  repeat split.
Qed.

(** Two more fields that a second run need not return: the world metres of a
    record placed by them, and the position of an event that fell back to a
    centroid lying on an island. *)
Example renormalized_feed_drops_world_metres :
  exists e e',
    normalizeEventFeed (H := Demo.host) (JArr [Demo.recordWorld]) Demo.options = [e] /\
    normalizeEventFeed (H := Demo.host) (feedBack [e]) Demo.options = [e'] /\
    e_world_x_m e = Some (inject_Z 2) /\ e_world_x_m e' = None /\
    e_object_label e = Some "person" /\ e_object_label e' = None.
Proof.
  eexists. eexists. split; [vm_compute; reflexivity|]. split; [vm_compute; reflexivity|].
  repeat split.
Qed.

Example renormalized_feed_moves_centroid :
  exists e e',
    normalizeEventFeed (H := Demo.host) (JArr [Demo.recordOutside]) Demo.options = [e] /\
    normalizeEventFeed (H := Demo.host) (feedBack [e]) Demo.options = [e'] /\
    e_y e == 0.5 /\ e_y e' == 0.374.
Proof.
  eexists. eexists. split; [vm_compute; reflexivity|]. split; [vm_compute; reflexivity|].
  split; reflexivity.
Qed.

(** Why the zone ids of the map are asked to be trimmed: on the floor whose
    zone is named " zone-a ", the record of [recordOpen] is placed in that
    zone by its point, and the second run reads the id back trimmed. *)
Example renormalized_feed_trims_zone_id :
  exists e e',
    normalizeEventFeed (H := Demo.paddedHost) (JArr [Demo.recordOpen]) Demo.options = [e] /\
    normalizeEventFeed (H := Demo.paddedHost) (feedBack [e]) Demo.options = [e'] /\
    e_zone_id e = " zone-a " /\ e_zone_id e' = "zone-a".
Proof.
  eexists. eexists. split; [vm_compute; reflexivity|]. split; [vm_compute; reflexivity|].
  split; reflexivity.
Qed.

(* ================================================================== *)
(** * Part III. Further properties of the code                         *)
(* ================================================================== *)

Import Sync MapView.

(** ** The parsers of [lib/eventAdapter.ts] *)
Section ParserFacts.
Context {H : Host}.

(** X1.  An id or a text that [parseId] or [parseText] returns is never the
    empty string and has no white space at either end: [trim] leaves it as it
    is. *)
Theorem parsed_text_is_trimmed (value : JsVal) (s : string) :
  parseId value = Some s \/ parseText value = Some s ->
  s <> EmptyString /\ trim s = s.
Proof.
  intros [Hid | Htext].
  - apply parseId_neat in Hid. destruct (neat_trim s Hid) as [Ht _].
    split; [exact (proj1 (proj2 Hid)) | exact Ht].
  - apply parseText_neat in Htext. destruct (neat_trim s Htext) as [Ht _].
    split; [exact (proj1 (proj2 Htext)) | exact Ht].
Qed.

(** X2.  A timestamp that [parseEpochMs] accepts lies between 2000-01-01 UTC
    and 365 days after the clock of the call, whatever the value it was read
    from. *)
Theorem parseEpochMs_in_window (value : JsVal) (d : Z) :
  parseEpochMs value = Some d ->
  (MIN_VALID_EPOCH_MS <= d <= Date_now + MAX_FUTURE_DRIFT_MS)%Z.
Proof. intro Hd. exact (parseEpochMs_valid value d Hd). Qed.

(** X3.  A whole number of seconds between 1e9 and 1e11 is read as seconds
    and returned in milliseconds; a whole number of milliseconds inside the
    window of validity is returned as it is. *)
Theorem parseEpochMs_seconds_and_millis (n : Z) :
  ((1000000000 <= n <= 100000000000)%Z ->
   (n * 1000 <= Date_now + MAX_FUTURE_DRIFT_MS)%Z ->
   parseEpochMs (JNum (inject_Z n)) = Some (n * 1000)%Z) /\
  ((MIN_VALID_EPOCH_MS <= n <= Date_now + MAX_FUTURE_DRIFT_MS)%Z ->
   parseEpochMs (JNum (inject_Z n)) = Some n).
Proof.
  split.
  - intros [Hlo Hhi] Hnow. cbn [parseEpochMs]. unfold epochOfNumber, Qgeb.
    rewrite !Qle_bool_inject.
    assert (E1 : (1000000000000 <=? n)%Z = false) by (apply Z.leb_gt; lia).
    assert (E2 : (1000000000 <=? n)%Z = true) by (apply Z.leb_le; lia).
    assert (E3 : (n <=? 100000000000)%Z = true) by (apply Z.leb_le; lia).
    rewrite E1, E2, E3. cbn [andb].
    unfold normalizeEpoch.
    assert (Er : Math_round (inject_Z n * inject_Z 1000) = (n * 1000)%Z).
    { rewrite <- (Math_round_inject (n * 1000)). unfold Math_round.
      apply Qfloor_comp. rewrite inject_Z_mult. reflexivity. }
    rewrite Er.
    assert (E4 : (n * 1000 <? MIN_VALID_EPOCH_MS)%Z = false)
      by (apply Z.ltb_ge; unfold MIN_VALID_EPOCH_MS; lia).
    assert (E5 : (n * 1000 >? Date_now + MAX_FUTURE_DRIFT_MS)%Z = false)
      by (rewrite Z.gtb_ltb; apply Z.ltb_ge; lia).
    now rewrite E4, E5.
  - intro Hvalid. now apply parseEpochMs_again.
Qed.

(** X4.  [normalizeSeverity] returns 1, 2 or 3, whatever the value and the
    event type it is given. *)
Theorem normalizeSeverity_one_two_three (value : JsVal) (type : EventType) :
  In (normalizeSeverity value type) [1%Z; 2%Z; 3%Z].
Proof.
  destruct (normalizeSeverity_range value type) as [-> | [-> | ->]]; simpl; tauto.
Qed.

(** X5.  [normalizeConfidence] returns a number of [0, 1], whatever the value
    and the severity it is given; a value of (1, 100] is read as a
    percentage. *)
Theorem normalizeConfidence_in_unit (value : JsVal) (severity : Z) :
  0 <= normalizeConfidence value severity <= 1 /\
  (forall p, parseNumber value = Some p -> 1 < p -> p <= 100 ->
             normalizeConfidence value severity == p / 100).
Proof.
  split.
  - unfold normalizeConfidence. destruct (parseNumber value) as [parsed|].
    + destruct (_ && _); apply clampRange_unit.
    + destruct (severity =? 3)%Z; [lra|]. destruct (severity =? 2)%Z; lra.
  - intros p Hp Hlo Hhi. unfold normalizeConfidence. rewrite Hp.
    assert (E1 : Qgtb p 1 = true) by now apply Qgtb_gt.
    assert (E2 : Qle_bool p 100 = true) by now apply Qle_bool_iff.
    rewrite E1, E2. cbn [andb]. apply clampRange_inside.
    split; [apply Qle_shift_div_l; lra | apply Qle_shift_div_r; lra].
Qed.

(** X6.  A coordinate that [normalizeCoordinate] returns lies in [0, 1]; it
    returns nothing for a negative number and for one above 100. *)
Theorem normalizeCoordinate_range (value : JsVal) :
  (forall c, normalizeCoordinate value = Some c -> 0 <= c <= 1) /\
  (forall p, parseNumber value = Some p -> p < 0 \/ 100 < p ->
             normalizeCoordinate value = None).
Proof.
  unfold normalizeCoordinate. split.
  - intros c. destruct (parseNumber value) as [parsed|]; [|discriminate].
    destruct (Qgeb parsed 0 && Qle_bool parsed 1) eqn:E1.
    + intros [= <-]. apply andb_prop in E1. destruct E1 as [E0 E1].
      apply Qgeb_ge in E0. apply Qle_bool_iff in E1. split; assumption.
    + destruct (Qgeb parsed 0 && Qle_bool parsed 100); [|discriminate].
      intros [= <-]. apply clampRange_unit.
  - intros p Hp Hout. rewrite Hp.
    assert (E : forall hi, 1 <= hi -> hi <= 100 -> Qgeb p 0 && Qle_bool p hi = false).
    { intros hi H1 H100. destruct Hout as [Hneg | Hbig].
      - assert (E0 : Qgeb p 0 = false).
        { destruct (Qgeb p 0) eqn:E0; [|reflexivity]. apply Qgeb_ge in E0. lra. }
        now rewrite E0.
      - assert (E1 : Qle_bool p hi = false).
        { destruct (Qle_bool p hi) eqn:E1; [|reflexivity]. apply Qle_bool_iff in E1. lra. }
        rewrite E1. apply andb_false_r. }
    rewrite (E 1) by lra. rewrite (E 100) by lra. reflexivity.
Qed.

(** X7.  A box that [parseBBox] returns has its corners in order:
    [x1 <= x2] and [y1 <= y2], whichever of the three layouts (array,
    corners, origin and size) it was read from. *)
Theorem parseBBox_corners_ordered (value : JsVal) (bbox : NormalizedBBox) :
  parseBBox value = Some bbox -> x1 bbox <= x2 bbox /\ y1 bbox <= y2 bbox.
Proof.
  assert (Hmk : forall a b c d, x1 (mkBBox a b c d) <= x2 (mkBBox a b c d) /\
                                y1 (mkBBox a b c d) <= y2 (mkBBox a b c d)).
  { intros a b c d. unfold mkBBox. cbn [x1 x2 y1 y2]. split.
    - apply Qle_trans with a; [apply Q.le_min_l | apply Q.le_max_l].
    - apply Qle_trans with b; [apply Q.le_min_l | apply Q.le_max_l]. }
  assert (Hrec : forall record, parseBBoxRecord record = Some bbox ->
                                x1 bbox <= x2 bbox /\ y1 bbox <= y2 bbox).
  { intro record. unfold parseBBoxRecord.
    repeat match goal with
           | |- context [match parseNumber ?v with _ => _ end] =>
               destruct (parseNumber v)
           end;
      intro Hb; try discriminate Hb; injection Hb as <-; apply Hmk. }
  intro Hbox. unfold parseBBox in Hbox.
  destruct value as [| | b | q | | s | items | fields];
    try (unfold asRecord in Hbox; cbn [isObjectLike] in Hbox; discriminate Hbox);
    try (unfold asRecord in Hbox; cbn [isObjectLike] in Hbox; now apply (Hrec _ Hbox)).
  destruct items as [|v0 [|v1 [|v2 [|v3 rest]]]];
    try (unfold asRecord in Hbox; cbn [isObjectLike] in Hbox; now apply (Hrec _ Hbox)).
  destruct (parseNumber v0); [|discriminate Hbox].
  destruct (parseNumber v1); [|discriminate Hbox].
  destruct (parseNumber v2); [|discriminate Hbox].
  destruct (parseNumber v3); [|discriminate Hbox].
  injection Hbox as <-. apply Hmk.
Qed.

Lemma normalizeCoordinateWithFrame_unit (value frameSize c : Q) :
  normalizeCoordinateWithFrame value frameSize = Some c -> inUnit c.
Proof.
  unfold normalizeCoordinateWithFrame.
  destruct (Qgeb value 0 && Qle_bool value 1) eqn:E1.
  - intros [= <-]. apply andb_prop in E1. destruct E1 as [E0 E1].
    apply Qgeb_ge in E0. apply Qle_bool_iff in E1. split; assumption.
  - destruct (Qgeb value 0 && Qle_bool value 100); [intros [= <-]; apply clampRange_unit|].
    destruct (Qgtb frameSize 0); [intros [= <-]; apply clampRange_unit | discriminate].
Qed.

(** X8.  The map point that [extractBBoxCoordinates] derives from a bounding
    box lies in the unit square, with or without a camera calibration, and
    carries no world metres. *)
Theorem extractBBoxCoordinates_in_unit_square (record : JsVal) (cameraId : option string)
    (allowFrameNormalization : bool) (c : NormalizedCoordinates) :
  extractBBoxCoordinates record cameraId allowFrameNormalization = Some c ->
  0 <= c_x c <= 1 /\ 0 <= c_y c <= 1 /\ c_worldX c = None /\ c_worldZ c = None.
Proof.
  unfold extractBBoxCoordinates.
  destruct (parseBBox _) as [bbox|]; [|discriminate].
  destruct (mapBBoxWithCameraCalibration _ _ _ _ _) as [calibrated|] eqn:Hcal.
  - intros [= <-]. unfold mapBBoxWithCameraCalibration in Hcal.
    destruct cameraId as [cam|]; [|discriminate].
    destruct (JsMap.get CAMERA_HOMOGRAPHY _) as [matrix|]; [|discriminate].
    destruct (applyHomography _ _ _) as [mapped|]; [|discriminate].
    injection Hcal as <-. cbn [c_x c_y c_worldX c_worldZ].
    repeat split; apply clampRange_unit.
  - destruct (negb allowFrameNormalization); [discriminate|].
    destruct (normalizeCoordinateWithFrame _ _) as [x|] eqn:Hx; [|discriminate].
    destruct (normalizeCoordinateWithFrame (y2 bbox) _) as [y|] eqn:Hy; [|discriminate].
    intros [= <-]. cbn [c_x c_y c_worldX c_worldZ].
    apply normalizeCoordinateWithFrame_unit in Hx, Hy. unfold inUnit in Hx, Hy. tauto.
Qed.

End ParserFacts.

(** Witness of X1: the id of a padded string. *)
Lemma parsed_text_is_trimmed_witness :
  parseId (JStr "  cam-7 ") = Some "cam-7" /\ "cam-7" <> EmptyString /\ trim "cam-7" = "cam-7".
Proof.
  split; [reflexivity|].
  apply (parsed_text_is_trimmed (JStr "  cam-7 ") "cam-7"). left. reflexivity.
Defined.

(** Witness of X2: a timestamp in milliseconds. *)
Lemma parseEpochMs_in_window_witness :
  (MIN_VALID_EPOCH_MS <= 1700000000000 <= Date_now (Host := Demo.host) + MAX_FUTURE_DRIFT_MS)%Z.
Proof.
  apply (parseEpochMs_in_window (H := Demo.host) (Demo.num 1700000000000)).
  vm_compute. reflexivity.
Defined.

(** Witness of X3: 1700000000 seconds, and the same instant in milliseconds. *)
Lemma parseEpochMs_seconds_and_millis_witness :
  parseEpochMs (H := Demo.host) (JNum (inject_Z 1700000000)) = Some 1700000000000%Z /\
  parseEpochMs (H := Demo.host) (JNum (inject_Z 1700000000000)) = Some 1700000000000%Z.
Proof.
  split.
  - apply (proj1 (parseEpochMs_seconds_and_millis (H := Demo.host) 1700000000));
      vm_compute; first [split; discriminate | discriminate].
  - apply (proj2 (parseEpochMs_seconds_and_millis (H := Demo.host) 1700000000000)).
    vm_compute. split; discriminate.
Defined.

(** Witness of X5: the confidence 87 of a percentage scale. *)
Lemma normalizeConfidence_in_unit_witness :
  normalizeConfidence (H := Demo.host) (Demo.num 87) 1 == inject_Z 87 / 100.
Proof.
  apply (proj2 (normalizeConfidence_in_unit (H := Demo.host) (Demo.num 87) 1) (inject_Z 87));
    [reflexivity | reflexivity | discriminate].
Defined.

(** Witness of X6: the percentage 25, and the rejected value 250. *)
Lemma normalizeCoordinate_range_witness :
  0 <= 0.25 <= 1 /\ normalizeCoordinate (H := Demo.host) (Demo.num 250) = None.
Proof.
  split.
  - apply (proj1 (normalizeCoordinate_range (H := Demo.host) (JNum 0.25)) 0.25). reflexivity.
  - apply (proj2 (normalizeCoordinate_range (H := Demo.host) (Demo.num 250)) (inject_Z 250));
      [reflexivity | right; reflexivity].
Defined.

(** Witness of X7: an array whose corners come in the reverse order. *)
Lemma parseBBox_corners_ordered_witness :
  exists bbox,
    parseBBox (H := Demo.host) (JArr [Demo.num 30; Demo.num 80; Demo.num 10; Demo.num 20])
      = Some bbox /\
    x1 bbox <= x2 bbox /\ y1 bbox <= y2 bbox.
Proof.
  eexists. split; [reflexivity|].
  apply (parseBBox_corners_ordered (H := Demo.host)
           (JArr [Demo.num 30; Demo.num 80; Demo.num 10; Demo.num 20])).
  reflexivity.
Defined.

(** Witness of X8: the pixel box of the sample record. *)
Lemma extractBBoxCoordinates_in_unit_square_witness :
  exists c,
    extractBBoxCoordinates (H := Demo.host) Demo.recordPixelBox None true = Some c /\
    0 <= c_x c <= 1 /\ 0 <= c_y c <= 1 /\ c_worldX c = None /\ c_worldZ c = None.
Proof.
  eexists. split; [vm_compute; reflexivity|].
  apply (extractBBoxCoordinates_in_unit_square (H := Demo.host) Demo.recordPixelBox None true).
  vm_compute. reflexivity.
Defined.

(** ** Letter case and padding *)

Lemma isWhite_lowerChar (c : ascii) : isWhite (lowerChar c) = isWhite c.
Proof. destruct c as [[] [] [] [] [] [] [] []]; reflexivity. Qed.

Lemma lowerChar_idem (c : ascii) : lowerChar (lowerChar c) = lowerChar c.
Proof. destruct c as [[] [] [] [] [] [] [] []]; reflexivity. Qed.

Lemma toLowerCase_idem (s : string) : toLowerCase (toLowerCase s) = toLowerCase s.
Proof.
  induction s as [|c r IH]; [reflexivity|]. cbn [toLowerCase].
  now rewrite lowerChar_idem, IH.
Qed.

Lemma trimStart_toLowerCase (s : string) :
  trimStart (toLowerCase s) = toLowerCase (trimStart s).
Proof.
  induction s as [|c r IH]; [reflexivity|]. cbn [toLowerCase trimStart].
  rewrite isWhite_lowerChar. destruct (isWhite c); [exact IH | reflexivity].
Qed.

Lemma trimEnd_toLowerCase (s : string) :
  trimEnd (toLowerCase s) = toLowerCase (trimEnd s).
Proof.
  induction s as [|c r IH]; [reflexivity|]. cbn [toLowerCase].
  rewrite !trimEnd_cons, IH, isWhite_lowerChar.
  destruct (trimEnd r) as [|c' r']; cbn [toLowerCase]; [|reflexivity].
  destruct (isWhite c); reflexivity.
Qed.

Lemma trim_toLowerCase (s : string) : trim (toLowerCase s) = toLowerCase (trim s).
Proof. unfold trim. now rewrite trimStart_toLowerCase, trimEnd_toLowerCase. Qed.

Lemma trim_idem (s : string) : trim (trim s) = trim s.
Proof.
  destruct (nonEmpty (trim s)) eqn:E.
  - exact (proj1 (neat_trim _ (trim_neat s E))).
  - destruct (trim s); [reflexivity | discriminate E].
Qed.

Lemma canonical_again (s : string) :
  toLowerCase (trim (toLowerCase (trim s))) = toLowerCase (trim s).
Proof. now rewrite trim_toLowerCase, trim_idem, toLowerCase_idem. Qed.

Section NormalizerFacts.
Context {H : Host}.

(** X9.  The normalizers of the type, the incident status, the source and
    the severity read a string through [trim().toLowerCase()] only: a string
    and its trimmed lower-case form get the same answer, so " FALL " is a
    fall and "Ack" is an acknowledgement. *)
Theorem normalizers_ignore_case_and_padding (s : string) :
  let canonical := toLowerCase (trim s) in
  normalizeType (JStr canonical) = normalizeType (JStr s) /\
  normalizeIncidentStatus (JStr canonical) = normalizeIncidentStatus (JStr s) /\
  (forall fallback, normalizeSource (JStr canonical) fallback = normalizeSource (JStr s) fallback) /\
  (forall type, normalizeSeverity (JStr canonical) type = normalizeSeverity (JStr s) type).
Proof.
  cbv zeta. unfold normalizeType, normalizeIncidentStatus, normalizeSource, normalizeSeverity.
  rewrite !canonical_again. repeat split.
Qed.

End NormalizerFacts.

(** ** Bounding boxes of polygons *)

Lemma fold_Qmin_le_init (l : list Q) (a : Q) : fold_left Qmin l a <= a.
Proof.
  revert a. induction l as [|b l IH]; intro a; simpl; [apply Qle_refl|].
  apply Qle_trans with (Qmin a b); [apply IH | apply Q.le_min_l].
Qed.

Lemma fold_Qmin_le_In (l : list Q) (a b : Q) : In b l -> fold_left Qmin l a <= b.
Proof.
  revert a. induction l as [|c l IH]; intros a Hin; [contradiction|]. simpl.
  destruct Hin as [-> | Hin]; [|now apply IH].
  apply Qle_trans with (Qmin a b); [apply fold_Qmin_le_init | apply Q.le_min_r].
Qed.

Lemma fold_Qmax_ge_init (l : list Q) (a : Q) : a <= fold_left Qmax l a.
Proof.
  revert a. induction l as [|b l IH]; intro a; simpl; [apply Qle_refl|].
  apply Qle_trans with (Qmax a b); [apply Q.le_max_l | apply IH].
Qed.

Lemma fold_Qmax_ge_In (l : list Q) (a b : Q) : In b l -> b <= fold_left Qmax l a.
Proof.
  revert a. induction l as [|c l IH]; intros a Hin; [contradiction|]. simpl.
  destruct Hin as [-> | Hin]; [|now apply IH].
  apply Qle_trans with (Qmax a b); [apply Q.le_max_r | apply fold_Qmax_ge_init].
Qed.

(** X10.  The bounds that [polygonBounds] computes contain every vertex of
    the polygon, with any padding that is not negative. *)
Theorem polygonBounds_contains_vertices (points : list Point) (p : Point) (padding : Q) :
  0 <= padding -> In p points ->
  pointInBounds (fst p) (snd p) (polygonBounds points) padding = true.
Proof.
  intros Hpad Hin. destruct points as [|[x y] rest]; [contradiction|].
  cbn [polygonBounds].
  assert (Hx : fold_left Qmin (map fst rest) x <= fst p <= fold_left Qmax (map fst rest) x).
  { destruct Hin as [<- | Hin]; cbn [fst].
    - split; [apply fold_Qmin_le_init | apply fold_Qmax_ge_init].
    - split; [apply fold_Qmin_le_In | apply fold_Qmax_ge_In]; now apply in_map. }
  assert (Hy : fold_left Qmin (map snd rest) y <= snd p <= fold_left Qmax (map snd rest) y).
  { destruct Hin as [<- | Hin]; cbn [snd].
    - split; [apply fold_Qmin_le_init | apply fold_Qmax_ge_init].
    - split; [apply fold_Qmin_le_In | apply fold_Qmax_ge_In]; now apply in_map. }
  apply pointInBounds_true; lra.
Qed.

(** Witness of X10: a vertex of the island of the sample floor. *)
Lemma polygonBounds_contains_vertices_witness :
  pointInBounds 0.505 0.495 (polygonBounds Demo.island) 0.014 = true.
Proof.
  apply (polygonBounds_contains_vertices Demo.island (0.505, 0.495) 0.014).
  - discriminate.
  - right. left. reflexivity.
Defined.

(** ** The snap, the zone and the fields of an adapted event *)
Section EventFacts.
Context {H : Host}.

(** X11.  Snapping twice is snapping once, whenever the first snap ended on
    a point that passes the walkability test it was made with (the test of
    the zone when the zone id names one, the test against every hole of the
    map otherwise): [snapCoordinatesToFloor] then returns its argument, world
    metres included. *)
Theorem snapCoordinatesToFloor_twice (coordinates : NormalizedCoordinates) (zid : string) :
  let snapped := snapCoordinatesToFloor coordinates zid in
  match JsMap.get (ZONE_GEOMETRY_BY_ID zm) zid with
  | Some zone => pointInZoneWalkable (c_x snapped) (c_y snapped) zone
  | None => walkableAnywhere (c_x snapped) (c_y snapped)
  end = true ->
  snapCoordinatesToFloor snapped zid = snapped.
Proof.
  cbv zeta. destruct (snap_clamped coordinates zid) as [Hx Hy].
  set (snapped := snapCoordinatesToFloor coordinates zid) in *.
  intro Hwalk. unfold snapCoordinatesToFloor at 1.
  rewrite Hx, Hy.
  destruct (JsMap.get (ZONE_GEOMETRY_BY_ID zm) zid) as [zone|]; rewrite Hwalk;
    now destruct snapped.
Qed.

(** X12.  On a map that has a zone, the zone id that [resolveZoneId] returns
    is the id of a zone of the map, or else the id the record itself gives,
    and then that id is not one of the generic words "store", "site", "shop",
    "global" and "all" in any letter case. *)
Theorem resolveZoneId_names_a_zone (record : JsVal) (coordinates : NormalizedCoordinates) :
  zones zm <> [] ->
  In (resolveZoneId record coordinates) (ZONE_IDS zm) \/
  (parseId (pickValue record ZONE_ID_PATHS) = Some (resolveZoneId record coordinates) /\
   arrIncludes GENERIC_ZONE_IDS (toLowerCase (resolveZoneId record coordinates)) = false).
Proof.
  intro Hzones. unfold resolveZoneId.
  set (byGeometry := match find _ (ZONE_GEOMETRIES zm) with
                     | Some hitOuter => zoneId hitOuter
                     | None => _
                     end).
  assert (Hgeo : In byGeometry (ZONE_IDS zm)).
  { unfold byGeometry.
    destruct (find _ (ZONE_GEOMETRIES zm)) as [hitOuter|] eqn:Hfind.
    - apply find_some in Hfind. destruct Hfind as [Hin _].
      unfold ZONE_GEOMETRIES in Hin. apply in_map_iff in Hin.
      destruct Hin as (raw & <- & Hraw). cbn [zoneId buildZoneGeometry].
      unfold ZONE_IDS. now apply in_map.
    - destruct (zones zm) as [|zone rest] eqn:Ez; [contradiction|].
      destruct (nearestZone_from (c_x coordinates) (c_y coordinates) (zone_id zone)) as [-> | Hk].
      + unfold ZONE_IDS. rewrite Ez. now left.
      + now apply centroid_key_is_zone in Hk. }
  destruct (parseId (pickValue record ZONE_ID_PATHS)) as [z|]; [|now left].
  destruct (arrIncludes (ZONE_IDS zm) z) eqn:Ein.
  - left. unfold arrIncludes in Ein. apply existsb_exists in Ein.
    destruct Ein as (k & Hk & Eq). apply String.eqb_eq in Eq. now subst.
  - destruct (arrIncludes GENERIC_ZONE_IDS (toLowerCase z)) eqn:Egen; cbn [negb].
    + now left.
    + right. now split.
Qed.

(** X13.  Every event that [adaptRawEvent] returns has a trimmed, non-empty
    id, both timestamps inside the window of validity, a latency that is not
    negative, a severity of 1, 2 or 3 and a confidence of [0, 1]. *)
Theorem adaptRawEvent_fields_in_range (value : JsVal) (options : NormalizeOptions)
    (e : EventItem) :
  adaptRawEvent value options = Some e ->
  (e_id e <> EmptyString /\ trim (e_id e) = e_id e) /\
  (MIN_VALID_EPOCH_MS <= e_detected_at e <= Date_now + MAX_FUTURE_DRIFT_MS)%Z /\
  (MIN_VALID_EPOCH_MS <= e_ingested_at e <= Date_now + MAX_FUTURE_DRIFT_MS)%Z /\
  (0 <= e_latency_ms e)%Z /\
  (1 <= e_severity e <= 3)%Z /\
  0 <= e_confidence e <= 1.
Proof.
  unfold adaptRawEvent.
  destruct (asRecord value) as [record|]; [|discriminate].
  destruct (resolveId _ _ _) as [id|] eqn:Hid; [|discriminate].
  destruct (parseEpochMs (pickValue record DETECTED_AT_PATHS)) as [detectedAt|] eqn:Hdet;
    [|discriminate].
  destruct (extractCoordinates _ _) as [coordinates|]; [|discriminate].
  intros [= <-].
  cbn [e_id e_detected_at e_ingested_at e_latency_ms e_severity e_confidence].
  apply parseEpochMs_valid in Hdet.
  split; [|split; [|split; [|split; [|split]]]].
  - pose proof (resolveId_neat _ _ _ _ (optNeat_parseId _) (optNeat_parseId _)
                  (optNeat_parseId _) Hid) as Hneat.
    split; [exact (proj1 (proj2 Hneat)) | exact (proj1 (neat_trim _ Hneat))].
  - exact Hdet.
  - match goal with |- (_ <= orElse ?o _ <= _)%Z => destruct o as [ing|] eqn:Hing end;
      cbn [orElse]; [exact (parseEpochMs_valid _ _ Hing) | exact Hdet].
  - match goal with |- (0 <= match ?o with _ => _ end)%Z => destruct o end; apply Z.le_max_l.
  - match goal with |- (1 <= ?s <= 3)%Z =>
      match s with normalizeSeverity ?v ?t =>
        destruct (normalizeSeverity_range v t) as [-> | [-> | ->]]; lia
      end
    end.
  - unfold normalizeConfidence. destruct (parseNumber _) as [parsed|].
    + destruct (Qgtb parsed 1 && Qle_bool parsed 100); apply clampRange_unit.
    + match goal with |- context [(?s =? 3)%Z] =>
        destruct (s =? 3)%Z; [lra|]; destruct (s =? 2)%Z; lra
      end.
Qed.

End EventFacts.

(** Witness of X11: the sample record on the island, which the snap moves to
    the nearest walkable point of its zone. *)
Lemma snapCoordinatesToFloor_twice_witness :
  let snapped := snapCoordinatesToFloor (H := Demo.host) (plainCoords 0.5 0.41) "zone-a" in
  snapCoordinatesToFloor (H := Demo.host) snapped "zone-a" = snapped.
Proof.
  apply (snapCoordinatesToFloor_twice (H := Demo.host) (plainCoords 0.5 0.41) "zone-a").
  vm_compute. reflexivity.
Defined.

(** Witness of X12: the sample record, which names no zone. *)
Lemma resolveZoneId_names_a_zone_witness :
  In (resolveZoneId (H := Demo.host) Demo.recordOpen (plainCoords 0.2 0.2))
     (ZONE_IDS (zm (Host := Demo.host))) \/
  (parseId (pickValue Demo.recordOpen ZONE_ID_PATHS)
     = Some (resolveZoneId (H := Demo.host) Demo.recordOpen (plainCoords 0.2 0.2)) /\
   arrIncludes GENERIC_ZONE_IDS
     (toLowerCase (resolveZoneId (H := Demo.host) Demo.recordOpen (plainCoords 0.2 0.2))) = false).
Proof.
  apply (resolveZoneId_names_a_zone (H := Demo.host) Demo.recordOpen (plainCoords 0.2 0.2)).
  discriminate.
Defined.

(** Witness of X13: the sample record. *)
Lemma adaptRawEvent_fields_in_range_witness :
  exists e,
    adaptRawEvent (H := Demo.host) Demo.recordOpen Demo.options = Some e /\
    (1 <= e_severity e <= 3)%Z /\ 0 <= e_confidence e <= 1.
Proof.
  eexists. split; [vm_compute; reflexivity|].
  destruct (adaptRawEvent_fields_in_range (H := Demo.host) Demo.recordOpen Demo.options _ eq_refl)
    as (_ & _ & _ & _ & Hs & Hc).
  split; [exact Hs | exact Hc].
Defined.

(** ** The canonical set of the sync page *)
Section CanonicalFacts.
Context {H : Host}.

Lemma StronglySorted_filter {A : Type} (R : A -> A -> Prop) (f : A -> bool) (l : list A) :
  StronglySorted R l -> StronglySorted R (filter f l).
Proof.
  induction 1 as [|a l Hs IH Hall]; simpl; [constructor|].
  destruct (f a); [|exact IH]. constructor; [exact IH|].
  apply Forall_forall. intros x Hx. apply filter_In in Hx.
  rewrite Forall_forall in Hall. now apply Hall.
Qed.

Lemma NoDup_map_filter {A B : Type} (g : A -> B) (f : A -> bool) (l : list A) :
  NoDup (map g l) -> NoDup (map g (filter f l)).
Proof.
  induction l as [|a l IH]; simpl; intro Hnd; [constructor|].
  inversion Hnd as [|? ? Hnot Hrest]; subst.
  destruct (f a); [|now apply IH]. simpl. constructor; [|now apply IH].
  intro Hin. apply Hnot. apply in_map_iff in Hin. destruct Hin as (x & Hx & Hfx).
  apply filter_In in Hfx. apply in_map_iff. exists x. tauto.
Qed.

Lemma length_filter_le {A : Type} (f : A -> bool) (l : list A) :
  (List.length (filter f l) <= List.length l)%nat.
Proof.
  induction l as [|a l IH]; simpl; [lia|]. destruct (f a); simpl; lia.
Qed.

(** [.sort(compare).slice(0, MAX_EVENTS)], the tail of [mergeEvents] and of
    [applyIncomingSyncBatch]. *)
Lemma sorted_cut_canonical (l : list EventItem) :
  lawfulCompare H -> NoDup (map e_id l) ->
  canonical (sliceTo MAX_EVENTS (jsSort compareEvents l)).
Proof.
  intros Hlaw Hnd. unfold canonical, sliceTo. split; [|split].
  - apply StronglySorted_firstn. apply jsSort_sorted.
    + apply compareEvents_feedOrder.
    + now apply feedOrder_total.
    + now apply feedOrder_trans.
  - rewrite <- firstn_map. apply NoDup_firstn.
    apply (Permutation_NoDup (l := map e_id l)); [|exact Hnd].
    apply Permutation_map, Permutation_sym, jsSort_perm.
  - rewrite length_firstn. change (Z.to_nat (Qfloor MAX_EVENTS)) with 600%nat. lia.
Qed.

Lemma sorted_cut_ordered (l : list EventItem) :
  lawfulCompare H ->
  StronglySorted feedOrder (sliceTo MAX_EVENTS (jsSort compareEvents l)) /\
  (List.length (sliceTo MAX_EVENTS (jsSort compareEvents l)) <= 600)%nat.
Proof.
  intro Hlaw. unfold sliceTo. split.
  - apply StronglySorted_firstn. apply jsSort_sorted.
    + apply compareEvents_feedOrder.
    + now apply feedOrder_total.
    + now apply feedOrder_trans.
  - rewrite length_firstn. change (Z.to_nat (Qfloor MAX_EVENTS)) with 600%nat. lia.
Qed.

Lemma sorted_cut_same (l : list EventItem) :
  canonical l -> sliceTo MAX_EVENTS (jsSort compareEvents l) = l.
Proof.
  intros (Hs & _ & Hlen).
  rewrite (jsSort_sorted_same compareEvents feedOrder l
             (fun a b => proj2 (compareEvents_feedOrder a b)) Hs).
  unfold sliceTo. apply firstn_all2.
  change (Z.to_nat (Qfloor MAX_EVENTS)) with 600%nat. exact Hlen.
Qed.

Lemma mergedMap_ids (existing incoming : list EventItem) :
  NoDup (map e_id (JsMap.values (mergedMap existing incoming))).
Proof.
  destruct (mergedMap_invariant existing incoming) as [Hk Hnd].
  now rewrite (values_ids _ Hk).
Qed.

Lemma mergeEvents_canonical (existing incoming : list EventItem) :
  lawfulCompare H -> canonical (mergeEvents existing incoming).
Proof.
  intro Hlaw. unfold mergeEvents. apply sorted_cut_canonical; [exact Hlaw|].
  apply mergedMap_ids.
Qed.

Lemma removal_keeps_ids (removed : list string) (next : list EventItem) :
  NoDup (map e_id next) ->
  NoDup (map e_id (match removed with
                   | [] => next
                   | _ => filter (fun event => negb (arrIncludes removed (e_id event))) next
                   end)).
Proof.
  intro Hnd. destruct removed; [exact Hnd | now apply NoDup_map_filter].
Qed.

Lemma applyIncomingSyncBatch_canonical (existing : list EventItem)
    (incoming : IncomingSyncBatch) :
  lawfulCompare H ->
  (mode incoming = replace -> NoDup (map e_id (upsert incoming))) ->
  canonical (applyIncomingSyncBatch existing incoming).
Proof.
  intros Hlaw Hrep. unfold applyIncomingSyncBatch.
  apply sorted_cut_canonical; [exact Hlaw|]. apply removal_keeps_ids.
  destruct (mode incoming).
  - exact (proj1 (proj2 (mergeEvents_canonical existing (upsert incoming) Hlaw))).
  - now apply Hrep.
Qed.

Lemma applyIncomingSyncBatch_not_removed (existing : list EventItem)
    (incoming : IncomingSyncBatch) (e : EventItem) :
  In e (applyIncomingSyncBatch existing incoming) -> ~ In (e_id e) (removeIds incoming).
Proof.
  unfold applyIncomingSyncBatch, sliceTo. intros Hin Hrem.
  apply In_firstn in Hin. apply (Permutation_in _ (jsSort_perm compareEvents _)) in Hin.
  destruct (removeIds incoming) as [|r rest] eqn:Er; [contradiction|].
  apply filter_In in Hin. destruct Hin as [_ Hkeep].
  apply negb_true_iff in Hkeep.
  assert (Hinc : arrIncludes (r :: rest) (e_id e) = true).
  { unfold arrIncludes. apply existsb_exists. exists (e_id e).
    split; [exact Hrem | apply String.eqb_refl]. }
  congruence.
Qed.

(** X14.  No event whose id is listed in [removeIds] is in the list that
    [applyIncomingSyncBatch] returns, in either mode, even when the same
    batch upserts an event of that id. *)
Theorem applyIncomingSyncBatch_drops_removed (existing : list EventItem)
    (incoming : IncomingSyncBatch) (e : EventItem) :
  In e (applyIncomingSyncBatch existing incoming) -> ~ In (e_id e) (removeIds incoming).
Proof. apply applyIncomingSyncBatch_not_removed. Qed.

(** X15.  Whatever the batch and the list it is applied to, the list that
    [applyIncomingSyncBatch] returns is in feed order (newest [detected_at]
    first, then newest [ingested_at], then id) and has at most 600 events;
    in replace mode every event of it is an event of the batch.  (The
    string order of the host is total and transitive.) *)
Theorem applyIncomingSyncBatch_sorted_bounded (existing : list EventItem)
    (incoming : IncomingSyncBatch) :
  lawfulCompare H ->
  StronglySorted feedOrder (applyIncomingSyncBatch existing incoming) /\
  (List.length (applyIncomingSyncBatch existing incoming) <= 600)%nat /\
  (mode incoming = replace ->
   forall e, In e (applyIncomingSyncBatch existing incoming) -> In e (upsert incoming)).
Proof.
  intro Hlaw. unfold applyIncomingSyncBatch.
  destruct (sorted_cut_ordered
              (match removeIds incoming with
               | [] => match mode incoming with
                       | merge => mergeEvents existing (upsert incoming)
                       | replace => upsert incoming
                       end
               | _ :: _ =>
                   filter (fun event => negb (arrIncludes (removeIds incoming) (e_id event)))
                     match mode incoming with
                     | merge => mergeEvents existing (upsert incoming)
                     | replace => upsert incoming
                     end
               end) Hlaw) as [Hs Hlen].
  split; [exact Hs|]. split; [exact Hlen|].
  intros Hmode e Hin. unfold sliceTo in Hin. apply In_firstn in Hin.
  apply (Permutation_in _ (jsSort_perm compareEvents _)) in Hin.
  rewrite Hmode in Hin. destruct (removeIds incoming); [exact Hin|].
  apply filter_In in Hin. tauto.
Qed.

Lemma In_keys_set {V : Type} (m : JsMap.t (V := V)) (k k' : string) (v : V) :
  In k' (JsMap.keys m) -> In k' (JsMap.keys (JsMap.set m k v)).
Proof.
  intro Hin. destruct (JsMap.get m k) as [v0|] eqn:Hget.
  - now rewrite (keys_set_present _ _ _ _ Hget).
  - rewrite (keys_set_absent _ _ _ Hget). apply in_or_app. now left.
Qed.

Lemma In_keys_set_same {V : Type} (m : JsMap.t (V := V)) (k : string) (v : V) :
  In k (JsMap.keys (JsMap.set m k v)).
Proof.
  pose proof (get_set_same m k v) as Hget. apply get_In in Hget.
  unfold JsMap.keys. apply in_map_iff. now exists (k, v).
Qed.

Lemma mergedMap_has_ids (existing incoming : list EventItem) (e : EventItem) :
  In e existing \/ In e incoming -> In (e_id e) (JsMap.keys (mergedMap existing incoming)).
Proof.
  unfold mergedMap, JsMap.ofEntries.
  assert (Hfold : forall l m, In (e_id e) (JsMap.keys m) \/ In e l ->
            In (e_id e) (JsMap.keys (fold_left mergeStep l m))).
  { induction l as [|a l IH]; intros m Hor; simpl.
    - destruct Hor as [Hm | []]. exact Hm.
    - apply IH. rewrite mergeStep_set. destruct Hor as [Hm | [-> | Hl]].
      + left. now apply In_keys_set.
      + left. apply In_keys_set_same.
      + now right. }
  assert (Hstart : forall l (m : JsMap.t (V := EventItem)),
            In (e_id e) (JsMap.keys m) \/ In e l ->
            In (e_id e) (JsMap.keys
              (fold_left (fun m kv => JsMap.set m (fst kv) (snd kv))
                         (map (fun event => (e_id event, event)) l) m))).
  { induction l as [|a l IH]; intros m Hor; simpl.
    - destruct Hor as [Hm | []]. exact Hm.
    - apply IH. destruct Hor as [Hm | [-> | Hl]].
      + left. now apply In_keys_set.
      + left. apply In_keys_set_same.
      + now right. }
  intros [Hex | Hinc].
  - apply Hfold. left. apply Hstart. now right.
  - apply Hfold. now right.
Qed.

(** X16.  [mergeEvents] returns one event per id, also when the existing or
    the incoming list holds an id twice; and when the merged set has at most
    600 ids, every id of an existing or an incoming event is the id of an
    event of the result. *)
Theorem mergeEvents_one_event_per_id (existing incoming : list EventItem) :
  NoDup (map e_id (mergeEvents existing incoming)) /\
  ((List.length (mergedMap existing incoming) <= 600)%nat ->
   forall e, In e existing \/ In e incoming ->
     exists kept, In kept (mergeEvents existing incoming) /\ e_id kept = e_id e).
Proof.
  split.
  - unfold mergeEvents, sliceTo. rewrite <- firstn_map. apply NoDup_firstn.
    apply (Permutation_NoDup (l := map e_id (JsMap.values (mergedMap existing incoming))));
      [|apply mergedMap_ids].
    apply Permutation_map, Permutation_sym, jsSort_perm.
  - intros Hsize e He. apply mergedMap_has_ids in He.
    unfold JsMap.keys in He. apply in_map_iff in He. destruct He as ([k v] & Hk & Hin).
    cbn [fst] in Hk. subst k.
    destruct (mergedMap_invariant existing incoming) as [Hkeyed _].
    exists v. split; [|symmetry; exact (Hkeyed _ _ Hin)].
    unfold mergeEvents, sliceTo. rewrite firstn_all2.
    + apply (Permutation_in _ (Permutation_sym (jsSort_perm compareEvents _))).
      unfold JsMap.values. apply in_map_iff. now exists (e_id e, v).
    + rewrite (Permutation_length (jsSort_perm compareEvents _)).
      unfold JsMap.values. rewrite length_map.
      change (Z.to_nat (Qfloor MAX_EVENTS)) with 600%nat. exact Hsize.
Qed.

Lemma ofEntries_distinct (l : list EventItem) :
  NoDup (map e_id l) ->
  JsMap.ofEntries (map (fun event => (e_id event, event)) l)
  = map (fun event => (e_id event, event)) l.
Proof.
  unfold JsMap.ofEntries.
  assert (Hgen : forall l (m : JsMap.t (V := EventItem)),
            NoDup (JsMap.keys m ++ map e_id l) ->
            fold_left (fun m kv => JsMap.set m (fst kv) (snd kv))
                      (map (fun event => (e_id event, event)) l) m
            = (m ++ map (fun event => (e_id event, event)) l)%list).
  { clear l. induction l as [|e l IH]; intros m Hnd; simpl; [now rewrite app_nil_r|].
    assert (Hget : JsMap.get m (e_id e) = None).
    { apply get_None_keys. intro Hin. apply NoDup_remove_2 in Hnd. apply Hnd.
      apply in_or_app. now left. }
    rewrite (set_absent _ _ _ Hget). rewrite IH.
    - now rewrite <- app_assoc.
    - unfold JsMap.keys. rewrite map_app. simpl. rewrite <- app_assoc. exact Hnd. }
  intro Hnd. exact (Hgen l [] Hnd).
Qed.

(** X17.  Merging nothing changes nothing: on a list that is in feed order,
    has one event per id and at most 600 events, [mergeEvents] with no
    incoming event and [applyIncomingSyncBatch] with the empty merge batch
    return the list itself. *)
Theorem empty_merge_changes_nothing (existing : list EventItem) :
  StronglySorted feedOrder existing -> NoDup (map e_id existing) ->
  (List.length existing <= 600)%nat ->
  mergeEvents existing [] = existing /\
  applyIncomingSyncBatch existing {| mode := merge; upsert := []; removeIds := [] |} = existing.
Proof.
  intros Hs Hnd Hlen.
  assert (Hcan : canonical existing) by (split; [exact Hs | split; [exact Hnd | exact Hlen]]).
  assert (Hmerge : mergeEvents existing [] = existing).
  { unfold mergeEvents, mergedMap. cbn [fold_left].
    rewrite (ofEntries_distinct existing Hnd).
    unfold JsMap.values. rewrite map_map. cbn [snd]. rewrite map_id.
    now apply sorted_cut_same. }
  split; [exact Hmerge|].
  unfold applyIncomingSyncBatch. cbn [mode upsert removeIds]. rewrite Hmerge.
  now apply sorted_cut_same.
Qed.

End CanonicalFacts.

(** Witness of X14: the removal of [e0], which leaves [e1] in the sample set. *)
Lemma applyIncomingSyncBatch_drops_removed_witness :
  exists e,
    In e (applyIncomingSyncBatch (H := Demo.host) Demo.existingSet
            {| mode := replace; upsert := Demo.existingSet; removeIds := ["e0"] |}) /\
    ~ In (e_id e) ["e0"].
Proof.
  eexists. split; [vm_compute; left; reflexivity|].
  apply (applyIncomingSyncBatch_drops_removed (H := Demo.host) Demo.existingSet
           {| mode := replace; upsert := Demo.existingSet; removeIds := ["e0"] |}).
  vm_compute. left. reflexivity.
Defined.

(** Witness of X15: the later batch of the sample, applied to the sample
    set. *)
Lemma applyIncomingSyncBatch_sorted_bounded_witness :
  (List.length (applyIncomingSyncBatch (H := Demo.host) Demo.existingSet Demo.laterBatch)
   <= 600)%nat.
Proof.
  exact (proj1 (proj2 (applyIncomingSyncBatch_sorted_bounded (H := Demo.host)
                         Demo.existingSet Demo.laterBatch demo_host_lawful))).
Defined.

(** Witness of X16: the sample set merged with the later batch. *)
Lemma mergeEvents_one_event_per_id_witness :
  exists e,
    In e Demo.existingSet /\
    exists kept,
      In kept (mergeEvents (H := Demo.host) Demo.existingSet (upsert Demo.laterBatch)) /\
      e_id kept = e_id e.
Proof.
  eexists. split; [vm_compute; left; reflexivity|].
  apply (proj2 (mergeEvents_one_event_per_id (H := Demo.host) Demo.existingSet
                  (upsert Demo.laterBatch))).
  - vm_compute. lia.
  - left. vm_compute. left. reflexivity.
Defined.

(** Witness of X17: the sample set. *)
Lemma empty_merge_changes_nothing_witness :
  mergeEvents (H := Demo.host) Demo.existingSet [] = Demo.existingSet.
Proof.
  apply (empty_merge_changes_nothing (H := Demo.host) Demo.existingSet).
  - vm_compute. constructor; constructor.
  - vm_compute. repeat constructor. intros [].
  - vm_compute. lia.
Defined.

(** ** Reading an incoming payload *)
Import SyncInput.

Lemma arrIncludes_In (l : list string) (s : string) : arrIncludes l s = true <-> In s l.
Proof.
  unfold arrIncludes. rewrite existsb_exists. split.
  - intros (x & Hx & Eq). apply String.eqb_eq in Eq. now subst.
  - intro Hin. exists s. split; [exact Hin | apply String.eqb_refl].
Qed.

Lemma addId_In (seen : list string) (id x : string) :
  In x (addId seen id) <-> In x seen \/ x = id.
Proof.
  unfold addId. destruct (arrIncludes seen id) eqn:E.
  - apply arrIncludes_In in E. split; [now left | intros [Hx | ->]; assumption].
  - rewrite in_app_iff. simpl. intuition auto.
Qed.

Lemma addId_NoDup (seen : list string) (id : string) : NoDup seen -> NoDup (addId seen id).
Proof.
  intro Hnd. unfold addId. destruct (arrIncludes seen id) eqn:E; [exact Hnd|].
  assert (Hnot : ~ In id seen) by (rewrite <- arrIncludes_In; congruence).
  clear E. induction Hnd as [|a l Ha Hl IH]; simpl.
  - constructor; [intros [] | constructor].
  - constructor.
    + rewrite in_app_iff. simpl. intros [Hin | [<- | []]]; [contradiction|].
      apply Hnot. now left.
    + apply IH. intro Hin. apply Hnot. now right.
Qed.

Lemma dedupe_fold_NoDup (ids seen : list string) :
  NoDup seen -> NoDup (fold_left addId ids seen).
Proof.
  revert seen. induction ids as [|id ids IH]; intros seen Hnd; simpl; [exact Hnd|].
  apply IH. now apply addId_NoDup.
Qed.

Lemma dedupe_fold_In (ids seen : list string) (x : string) :
  In x (fold_left addId ids seen) <-> In x seen \/ In x ids.
Proof.
  revert seen. induction ids as [|id ids IH]; intro seen; simpl; [tauto|].
  rewrite IH, addId_In. intuition auto.
Qed.

Lemma dedupe_fold_distinct (ids seen : list string) :
  NoDup (seen ++ ids) -> fold_left addId ids seen = (seen ++ ids)%list.
Proof.
  revert seen. induction ids as [|id ids IH]; intros seen Hnd; simpl; [now rewrite app_nil_r|].
  assert (Hnot : arrIncludes seen id = false).
  { destruct (arrIncludes seen id) eqn:E; [|reflexivity]. apply arrIncludes_In in E.
    apply NoDup_remove_2 in Hnd. exfalso. apply Hnd. apply in_or_app. now left. }
  unfold addId at 2. rewrite Hnot. rewrite IH.
  - now rewrite <- app_assoc.
  - now rewrite <- app_assoc.
Qed.

Lemma dedupeIds_NoDup (ids : list string) : NoDup (dedupeIds ids).
Proof. apply dedupe_fold_NoDup. constructor. Qed.

Lemma dedupeIds_In (ids : list string) (x : string) : In x (dedupeIds ids) <-> In x ids.
Proof. unfold dedupeIds. rewrite dedupe_fold_In. simpl. tauto. Qed.

(** X18.  [dedupeIds] returns every id of its argument once: the result has
    no id twice, holds the ids of the argument and no other, and is the
    argument itself when that has no id twice. *)
Theorem dedupeIds_keeps_each_id_once (ids : list string) :
  NoDup (dedupeIds ids) /\
  (forall id, In id (dedupeIds ids) <-> In id ids) /\
  (NoDup ids -> dedupeIds ids = ids).
Proof.
  split; [apply dedupeIds_NoDup|]. split; [apply dedupeIds_In|].
  intro Hnd. exact (dedupe_fold_distinct ids [] Hnd).
Qed.

(** Witness of X18: a list without repetition. *)
Lemma dedupeIds_keeps_each_id_once_witness : dedupeIds ["e7"; "12"] = ["e7"; "12"].
Proof.
  apply (proj2 (proj2 (dedupeIds_keeps_each_id_once ["e7"; "12"]))).
  constructor; [|constructor; [intros [] | constructor]].
  intros [Heq | []]. discriminate Heq.
Defined.

Section PayloadFacts.
Context {H : Host} {R : Runtime}.

Lemma pushId_In (o : option string) (id : string) :
  In id (pushId o) <-> o = Some id /\ id <> EmptyString.
Proof.
  unfold pushId. destruct o as [s|]; [|simpl; split; [tauto | intros [Heq _]; discriminate Heq]].
  destruct s as [|c r]; simpl.
  - split; [tauto|]. intros [[= <-] Hne]. now apply Hne.
  - split.
    + intros [<- | []]. split; [reflexivity | discriminate].
    + intros [[= <-] _]. now left.
Qed.

Lemma idsOfItem_nonEmpty (item : JsVal) (id : string) :
  In id (idsOfItem item) -> id <> EmptyString.
Proof.
  unfold idsOfItem.
  destruct item; try (intro Hin; apply pushId_In in Hin; tauto);
    destruct (asRecord _); try (intro Hin; apply pushId_In in Hin; tauto); intros [].
Qed.

Lemma parseIdList_nonEmpty (value : JsVal) (id : string) :
  In id (parseIdList value) -> id <> EmptyString.
Proof.
  unfold parseIdList. destruct value; simpl; try tauto.
  intro Hin. apply in_flat_map in Hin. destruct Hin as (item & _ & Hin).
  now apply idsOfItem_nonEmpty in Hin.
Qed.

Lemma collectRemoveIds_nonEmpty (record : JsVal) (id : string) :
  In id (collectRemoveIds record) -> id <> EmptyString.
Proof.
  unfold collectRemoveIds. cbv zeta. rewrite dedupeIds_In.
  assert (Hlists : forall paths,
            In id (flat_map (fun path => parseIdList (pickValue record [path])) paths) ->
            id <> EmptyString).
  { intros paths Hin. apply in_flat_map in Hin. destruct Hin as (path & _ & Hin).
    now apply parseIdList_nonEmpty in Hin. }
  destruct (isRemove record); rewrite ?in_app_iff; intros Hin;
    repeat match goal with
           | Hor : _ \/ _ |- _ => destruct Hor as [Hor | Hor]
           end;
    try (now apply Hlists in Hin); try (apply pushId_In in Hin; tauto).
Qed.

(** X19.  The ids that [collectRemoveIds] gathers from a record (from its
    twenty id lists and from the record itself when its operation is a
    removal) are pairwise distinct and none of them is the empty string; an
    id given as a string comes back trimmed. *)
Theorem collectRemoveIds_distinct_nonempty (record : JsVal) :
  NoDup (collectRemoveIds record) /\
  (forall id, In id (collectRemoveIds record) -> id <> EmptyString) /\
  (forall s, toIdString (JStr s) = Some (trim s) \/ toIdString (JStr s) = None).
Proof.
  split; [apply dedupeIds_NoDup|]. split; [apply collectRemoveIds_nonEmpty|].
  intro s. cbn [toIdString]. destruct (nonEmpty (trim s)); [now left | now right].
Qed.

Lemma sortRow_fold (rows : list JsVal) (acc : list JsVal * list string) :
  fold_left sortRow rows acc =
  ((fst acc ++ filter (fun row => negb (removesRow row)) rows)%list,
   (snd acc ++ flat_map (fun row => if removesRow row
                                    then pushId (parseEventIdFromRecord row) else [])
                        rows)%list).
Proof.
  revert acc. induction rows as [|row rows IH]; intros [cands ids]; simpl.
  - now rewrite !app_nil_r.
  - rewrite IH. unfold sortRow, removesRow, asRecord. cbn [fst snd].
    destruct (isObjectLike row); [destruct (isRemove row)|]; cbn [negb fst snd];
      now rewrite <- ?app_assoc.
Qed.

Lemma FEED_OPTIONS_cut : Z.to_nat (Qfloor (safeMaxEvents FEED_OPTIONS)) = 600%nat.
Proof. reflexivity. Qed.

Lemma normalizeEventFeed_canonical (items : list JsVal) :
  lawfulCompare H -> canonical (normalizeEventFeed (JArr items) FEED_OPTIONS).
Proof.
  intro Hlaw.
  destruct (sorted_feed_facts items FEED_OPTIONS Hlaw) as (_ & _ & Hnd & Hsorted).
  cbn [normalizeEventFeed]. unfold sliceTo. rewrite FEED_OPTIONS_cut.
  split; [now apply StronglySorted_firstn|]. split.
  - rewrite <- firstn_map. now apply NoDup_firstn.
  - rewrite length_firstn. lia.
Qed.

Lemma canonical_nil : canonical [].
Proof. split; [constructor | split; [constructor | simpl; lia]]. Qed.

Lemma canonical_single (e : EventItem) : canonical [e].
Proof.
  split; [constructor; constructor|]. split; [|simpl; lia].
  constructor; [intros [] | constructor].
Qed.

Lemma normalizeRecordsForSync_canonical (rows : list JsVal) :
  lawfulCompare H ->
  canonical (fst (normalizeRecordsForSync rows)) /\ NoDup (snd (normalizeRecordsForSync rows)).
Proof.
  intro Hlaw. unfold normalizeRecordsForSync. cbn [fst snd].
  split; [|apply dedupeIds_NoDup].
  destruct (fst (fold_left sortRow rows ([], []))); [apply canonical_nil|].
  now apply normalizeEventFeed_canonical.
Qed.

Lemma removal_row_listed (rows : list JsVal) (row : JsVal) (id : string) :
  In row rows -> removesRow row = true ->
  parseEventIdFromRecord row = Some id -> id <> EmptyString ->
  In id (snd (normalizeRecordsForSync rows)).
Proof.
  intros Hrow Hrem Hid Hne. unfold normalizeRecordsForSync. rewrite sortRow_fold.
  cbn [fst snd app]. apply dedupeIds_In. apply in_flat_map.
  exists row. split; [exact Hrow|]. rewrite Hrem. apply pushId_In. now split.
Qed.

(** X20.  [normalizeRecordsForSync] never upserts a removal row: every
    event of [upsert] is the normalization of a row that is not a removal,
    and the id of every removal row that has one is listed in [removeIds]. *)
Theorem normalizeRecordsForSync_splits_rows (rows : list JsVal) :
  (forall e, In e (fst (normalizeRecordsForSync rows)) ->
     exists row, In row rows /\ removesRow row = false /\
                 adaptRawEvent row FEED_OPTIONS = Some e) /\
  (forall row id, In row rows -> removesRow row = true ->
     parseEventIdFromRecord row = Some id -> id <> EmptyString ->
     In id (snd (normalizeRecordsForSync rows))).
Proof.
  split; [|intros row id; apply removal_row_listed].
  unfold normalizeRecordsForSync. rewrite sortRow_fold. cbn [fst snd app].
  - intros e He.
    assert (Hin : In e (normalizeEventFeed
                          (JArr (filter (fun row => negb (removesRow row)) rows))
                          FEED_OPTIONS)).
    { destruct (filter _ rows); [contradiction | exact He]. }
    cbn [normalizeEventFeed] in Hin. unfold sliceTo in Hin. apply In_firstn in Hin.
    apply (Permutation_in _ (jsSort_perm compareEvents _)) in Hin.
    unfold JsMap.values in Hin. apply in_map_iff in Hin. destruct Hin as ([k v] & <- & Hin).
    destruct (dedupInv_all (filterMap (fun item => adaptRawEvent item FEED_OPTIONS)
                              (filter (fun row => negb (removesRow row)) rows)))
      as (_ & Hent & _).
    destruct (Hent k v Hin) as [_ Hseen]. apply filterMap_In in Hseen.
    destruct Hseen as (row & Hrow & Hadapt). apply filter_In in Hrow.
    destruct Hrow as [Hrow Hkeep]. apply negb_true_iff in Hkeep.
    exists row. cbn [snd]. tauto.
Qed.

Lemma normalizeIncomingPayload_unreadable (payload : JsVal) :
  unreadable payload -> normalizeIncomingPayload payload = emptySyncBatch merge.
Proof.
  unfold normalizeIncomingPayload.
  destruct payload as [| | b | q | | s | items | fields]; cbn [unreadable parseMaybeJson];
    try reflexivity; try contradiction.
  intros [Hblank | Hbad].
  - now rewrite Hblank.
  - rewrite Hbad. destruct (negb (nonEmpty (trim s))); reflexivity.
Qed.

(** X21.  A payload with nothing to read ([null], [undefined], a boolean, a
    number, blank text, or text that [JSON.parse] rejects) gives the empty
    merge batch, and [applySync] leaves the list of events as it is. *)
Theorem unreadable_payload_changes_nothing (payload : JsVal) (events : list EventItem) :
  unreadable payload ->
  normalizeIncomingPayload payload = {| mode := merge; upsert := []; removeIds := [] |} /\
  applySync payload events = events.
Proof.
  intro Hun. pose proof (normalizeIncomingPayload_unreadable payload Hun) as Hbatch.
  split; [exact Hbatch|]. unfold applySync. now rewrite Hbatch.
Qed.

Lemma normalizeIncomingPayload_canonical (payload : JsVal) :
  lawfulCompare H ->
  canonical (upsert (normalizeIncomingPayload payload)) /\
  NoDup (removeIds (normalizeIncomingPayload payload)).
Proof.
  intro Hlaw. unfold normalizeIncomingPayload.
  assert (Hempty : canonical (upsert (emptySyncBatch merge)) /\
                   NoDup (removeIds (emptySyncBatch merge)))
    by (split; [apply canonical_nil | constructor]).
  assert (Hobj : forall row,
    let m := orElse (parseSyncMode row) merge in
    let rootRemoveIds := collectRemoveIds row in
    let batch :=
      match pickValue row ARRAY_PATHS with
      | JArr arrayCandidate =>
          let rows := normalizeRecordsForSync arrayCandidate in
          {| mode := m; upsert := fst rows;
             removeIds := dedupeIds (List.app rootRemoveIds (snd rows)) |}
      | _ =>
          let picked := pickValue row SINGLE_PATHS in
          let singleCandidate := if isPresent picked then picked else row in
          let removes :=
            match asRecord singleCandidate with
            | Some singleRecord => isRemove singleRecord
            | None => false
            end in
          if removes then
            {| mode := m; upsert := [];
               removeIds :=
                 dedupeIds (List.app rootRemoveIds
                                     (pushId (parseEventIdFromRecord singleCandidate))) |}
          else
            {| mode := m;
               upsert := match adaptRawEvent singleCandidate ADAPT_OPTIONS with
                         | Some single => [single]
                         | None => []
                         end;
               removeIds := rootRemoveIds |}
      end in
    canonical (upsert batch) /\ NoDup (removeIds batch)).
  { intro row. cbv zeta.
    assert (Hroot : NoDup (collectRemoveIds row)) by apply dedupeIds_NoDup.
    assert (Hsingle : forall o : option EventItem,
              canonical (match o with Some single => [single] | None => [] end))
      by (intros [single|]; [apply canonical_single | apply canonical_nil]).
    destruct (pickValue row ARRAY_PATHS) as [| | b | q | | s | arrayCandidate | fields];
      try (match goal with
           | |- context [if ?c then _ else _] => destruct c
           end; cbn [upsert removeIds];
           (split; [first [apply canonical_nil | apply Hsingle]
                   | first [apply dedupeIds_NoDup | exact Hroot]])).
    cbn [upsert removeIds]. split; [|apply dedupeIds_NoDup].
    exact (proj1 (normalizeRecordsForSync_canonical arrayCandidate Hlaw)). }
  destruct (parseMaybeJson payload) as [| | b | q | | s | items | fields];
    try exact Hempty.
  - cbn [upsert removeIds]. now apply normalizeRecordsForSync_canonical.
  - unfold asRecord. cbn [isObjectLike]. apply Hobj.
Qed.

(** X22.  Whatever the payload, the batch that [normalizeIncomingPayload]
    returns upserts events in feed order, one per id and at most 600 of
    them, and lists no id to remove twice; a payload that is an array asks
    for a merge.  (The string order of the host is total and transitive.) *)
Theorem normalizeIncomingPayload_batch_well_formed (payload : JsVal) :
  lawfulCompare H ->
  let batch := normalizeIncomingPayload payload in
  StronglySorted feedOrder (upsert batch) /\
  NoDup (map e_id (upsert batch)) /\
  (List.length (upsert batch) <= 600)%nat /\
  NoDup (removeIds batch) /\
  (forall items, parseMaybeJson payload = JArr items -> mode batch = merge).
Proof.
  intro Hlaw. cbv zeta.
  destruct (normalizeIncomingPayload_canonical payload Hlaw) as [(Hs & Hnd & Hlen) Hrem].
  split; [exact Hs|]. split; [exact Hnd|]. split; [exact Hlen|]. split; [exact Hrem|].
  intros items Hparsed. unfold normalizeIncomingPayload. now rewrite Hparsed.
Qed.

(** X23.  A removal row wins over every other row of its array: when a
    payload that is an array holds a removal row with an id, no event of
    that id is left in the list after [applySync], whether the event was
    there before or is upserted by a row of the same array. *)
Theorem removal_row_removes_event (rows : list JsVal) (row : JsVal) (id : string)
    (events : list EventItem) (e : EventItem) :
  In row rows -> removesRow row = true ->
  parseEventIdFromRecord row = Some id -> id <> EmptyString ->
  In e (applySync (JArr rows) events) -> e_id e <> id.
Proof.
  intros Hrow Hrem Hid Hne Hin Heq.
  pose proof (removal_row_listed rows row id Hrow Hrem Hid Hne) as Hlisted.
  unfold applySync in Hin.
  assert (Hbatch : normalizeIncomingPayload (JArr rows) =
                   {| mode := merge; upsert := fst (normalizeRecordsForSync rows);
                      removeIds := snd (normalizeRecordsForSync rows) |}) by reflexivity.
  rewrite Hbatch in Hin. cbn [mode upsert removeIds] in Hin.
  assert (Hsome : Nat.ltb 0 (List.length (snd (normalizeRecordsForSync rows))) = true).
  { destruct (snd (normalizeRecordsForSync rows)); [contradiction | reflexivity]. }
  rewrite Hsome, orb_true_r in Hin.
  apply applyIncomingSyncBatch_not_removed in Hin. cbn [removeIds] in Hin.
  apply Hin. now rewrite Heq.
Qed.

Lemma clearManualTags_canonical (events : list EventItem) :
  canonical events -> canonical (clearManualTags events).
Proof.
  intros (Hs & Hnd & Hlen). unfold clearManualTags. split; [|split].
  - now apply StronglySorted_filter.
  - now apply NoDup_map_filter.
  - pose proof (length_filter_le
                  (fun event => negb (startsWith MANUAL_TAG_PREFIX (e_id event))) events).
    lia.
Qed.

Lemma PageStep_canonical (events next : list EventItem) :
  lawfulCompare H -> canonical events -> PageStep events next -> canonical next.
Proof.
  intros Hlaw Hcan Hstep. destruct Hstep as [payload | manualEvent | ].
  - unfold applySync. destruct (_ || _); [|exact Hcan].
    apply applyIncomingSyncBatch_canonical; [exact Hlaw|]. intros _.
    exact (proj1 (proj2 (proj1 (normalizeIncomingPayload_canonical payload Hlaw)))).
  - now apply mergeEvents_canonical.
  - now apply clearManualTags_canonical.
Qed.

(** X24.  The list of events of the sync page, whatever payloads are
    applied, tags added and tags cleared since the page opened, is in feed
    order, holds no id twice and has at most 600 events.  (The string order
    of the host is total and transitive.) *)
Theorem page_events_stay_canonical (events : list EventItem) :
  lawfulCompare H -> Reachable events ->
  StronglySorted feedOrder events /\ NoDup (map e_id events) /\
  (List.length events <= 600)%nat.
Proof.
  intros Hlaw Hreach. induction Hreach as [|events next _ IH Hstep].
  - apply canonical_nil.
  - exact (PageStep_canonical events next Hlaw IH Hstep).
Qed.

End PayloadFacts.

(** Witness of X21: text that is not JSON. *)
Lemma unreadable_payload_changes_nothing_witness :
  applySync (H := Demo.host) (R := DemoPage.runtime) (JStr "not json") Demo.existingSet
  = Demo.existingSet.
Proof.
  apply (unreadable_payload_changes_nothing (H := Demo.host) (R := DemoPage.runtime)
           (JStr "not json") Demo.existingSet).
  right. reflexivity.
Defined.

(** Witness of X22: the snapshot of the samples. *)
Lemma normalizeIncomingPayload_batch_well_formed_witness :
  NoDup (removeIds (normalizeIncomingPayload (H := Demo.host) (R := DemoPage.runtime)
                      DemoPage.snapshotPayload)) /\
  (List.length (upsert (normalizeIncomingPayload (H := Demo.host) (R := DemoPage.runtime)
                          DemoPage.snapshotPayload)) <= 600)%nat.
Proof.
  destruct (normalizeIncomingPayload_batch_well_formed (H := Demo.host) (R := DemoPage.runtime)
              DemoPage.snapshotPayload demo_host_lawful) as (_ & _ & Hlen & Hrem & _).
  split; [exact Hrem | exact Hlen].
Defined.

(** Witness of X23: the sample rows, where [e1] is upserted by the first
    row and removed by the second, applied to the set that holds [e1]. *)
Lemma removal_row_removes_event_witness :
  exists e,
    In e (applySync (H := Demo.host) (R := DemoPage.runtime)
            (JArr DemoPage.rowsWithDelete) Demo.existingSet) /\
    e_id e <> "e1".
Proof.
  eexists. split; [vm_compute; left; reflexivity|].
  apply (removal_row_removes_event (H := Demo.host) (R := DemoPage.runtime)
           DemoPage.rowsWithDelete DemoPage.deleteRow "e1" Demo.existingSet).
  - right. left. reflexivity.
  - reflexivity.
  - reflexivity.
  - discriminate.
  - vm_compute. left. reflexivity.
Defined.

(** Witness of X24: the page after the snapshot of the samples. *)
Lemma page_events_stay_canonical_witness :
  (List.length (applySync (H := Demo.host) (R := DemoPage.runtime)
                  DemoPage.snapshotPayload []) <= 600)%nat.
Proof.
  refine (proj2 (proj2 (page_events_stay_canonical (H := Demo.host) (R := DemoPage.runtime)
                          _ demo_host_lawful _))).
  apply (reach_step [] _ reach_init). apply step_sync.
Defined.

(** ** The robots of the map view *)
Section RobotFacts.
Context {V : View}.

Lemma closest_fold (robot : RobotState) (events seen : list ReactiveEvent)
    (acc : option ReactiveEvent * option Q) :
  match acc with
  | (Some e, Some s) =>
      In e seen /\ s = reactionScore robot e /\
      reactionDistance robot e <= EVENT_REACTION_DISTANCE_NORM /\
      forall e', In e' seen -> reactionDistance robot e' <= EVENT_REACTION_DISTANCE_NORM ->
                 s <= reactionScore robot e'
  | (None, None) =>
      forall e', In e' seen -> EVENT_REACTION_DISTANCE_NORM < reactionDistance robot e'
  | _ => False
  end ->
  match fold_left
          (fun (acc : option ReactiveEvent * option Q) event =>
             let dx := v_x event - r_x robot in
             let dy := v_y event - r_y robot in
             let distance := Math_hypot dx dy in
             if Qgtb distance EVENT_REACTION_DISTANCE_NORM then acc
             else
               let score := distance - inject_Z (v_severity event) * 0.03 in
               if closer score (snd acc) then (Some event, Some score) else acc)
          events acc with
  | (Some e, Some s) =>
      In e (seen ++ events) /\ s = reactionScore robot e /\
      reactionDistance robot e <= EVENT_REACTION_DISTANCE_NORM /\
      forall e', In e' (seen ++ events) ->
                 reactionDistance robot e' <= EVENT_REACTION_DISTANCE_NORM ->
                 s <= reactionScore robot e'
  | (None, None) =>
      forall e', In e' (seen ++ events) ->
                 EVENT_REACTION_DISTANCE_NORM < reactionDistance robot e'
  | _ => False
  end.
Proof.
  revert seen acc. induction events as [|event events IH]; intros seen acc Hacc.
  - simpl. rewrite app_nil_r. exact Hacc.
  - cbn [fold_left]. cbv zeta.
    change (Math_hypot (v_x event - r_x robot) (v_y event - r_y robot))
      with (reactionDistance robot event).
    change (reactionDistance robot event - inject_Z (v_severity event) * 0.03)
      with (reactionScore robot event).
    replace (seen ++ event :: events)%list with ((seen ++ [event]) ++ events)%list
      by (now rewrite <- app_assoc).
    apply IH.
    destruct (Qgtb (reactionDistance robot event) EVENT_REACTION_DISTANCE_NORM) eqn:Efar.
    + apply Qgtb_gt in Efar.
      destruct acc as [[e|] [s|]]; try contradiction.
      * destruct Hacc as (Hin & Hs & Hd & Hmin). split; [apply in_or_app; now left|].
        split; [exact Hs|]. split; [exact Hd|].
        intros e' He' Hd'. apply in_app_or in He'. destruct He' as [He' | [<- | []]].
        -- now apply Hmin.
        -- lra.
      * intros e' He'. apply in_app_or in He'. destruct He' as [He' | [<- | []]].
        -- now apply Hacc.
        -- exact Efar.
    + apply Qgtb_le in Efar.
      destruct acc as [[e|] [s|]]; try contradiction; cbn [snd closer].
      * destruct Hacc as (Hin & Hs & Hd & Hmin).
        destruct (Qltb (reactionScore robot event) s) eqn:Ecl.
        -- apply Qltb_lt in Ecl. split; [apply in_or_app; right; now left|].
           split; [reflexivity|]. split; [exact Efar|].
           intros e' He' Hd'. apply in_app_or in He'. destruct He' as [He' | [<- | []]].
           ++ specialize (Hmin e' He' Hd'). lra.
           ++ apply Qle_refl.
        -- apply Qltb_ge in Ecl. split; [apply in_or_app; now left|].
           split; [exact Hs|]. split; [exact Hd|].
           intros e' He' Hd'. apply in_app_or in He'. destruct He' as [He' | [<- | []]].
           ++ now apply Hmin.
           ++ exact Ecl.
      * split; [apply in_or_app; right; now left|]. split; [reflexivity|].
        split; [exact Efar|].
        intros e' He' Hd'. apply in_app_or in He'. destruct He' as [He' | [<- | []]].
        -- specialize (Hacc e' He'). lra.
        -- apply Qle_refl.
Qed.

(** X25.  The event that [findClosestReactiveEvent] picks for a robot is one
    of the events it is given, lies within the reaction distance of 0.22, and
    has the least score (distance less 0.03 per level of severity) of the
    events within that distance; it picks none exactly when every event is
    farther than 0.22. *)
Theorem findClosestReactiveEvent_least_score (robot : RobotState)
    (events : list ReactiveEvent) :
  match findClosestReactiveEvent robot events with
  | Some e =>
      In e events /\
      reactionDistance robot e <= EVENT_REACTION_DISTANCE_NORM /\
      forall e', In e' events -> reactionDistance robot e' <= EVENT_REACTION_DISTANCE_NORM ->
                 reactionScore robot e <= reactionScore robot e'
  | None =>
      forall e', In e' events -> EVENT_REACTION_DISTANCE_NORM < reactionDistance robot e'
  end.
Proof.
  unfold findClosestReactiveEvent.
  pose proof (closest_fold robot events [] (None, None)) as Hfold.
  cbn [app] in Hfold.
  destruct (fold_left _ events (None, None)) as [[e|] [s|]]; cbn [fst];
    try (exfalso; apply Hfold; intros e' []).
  - destruct Hfold as (Hin & Hs & Hd & Hmin); [intros e' []|].
    split; [exact Hin|]. split; [exact Hd|]. intros e' He' Hd'. rewrite <- Hs. now apply Hmin.
  - apply Hfold. intros e' [].
Qed.

Lemma find_map_first {A B : Type} (f : B -> bool) (g : A -> B) (l : list A) (c : B) :
  find f (map g l) = Some c ->
  exists before a after,
    l = (before ++ a :: after)%list /\ c = g a /\ f c = true /\
    forall a', In a' before -> f (g a') = false.
Proof.
  induction l as [|a0 l IH]; cbn [map find]; [discriminate|].
  destruct (f (g a0)) eqn:E.
  - intros [= <-]. exists [], a0, l. repeat split; [exact E | intros a' []].
  - intro Hfind. destruct (IH Hfind) as (before & a & after & -> & -> & Hfc & Hbefore).
    exists (a0 :: before), a, after. repeat split; [exact Hfc|].
    intros a' [<- | Ha']; [exact E | now apply Hbefore].
Qed.

(** X26.  A step that [resolveSteerStep] returns is never blocked: it keeps
    the clearance of 0.007 from the four edges of the map, and neither it nor
    any of the nine clearance probes around it lies in a hole or in the
    padded bounds of one.  It is the step of the first steering angle, in the
    order of [STEER_ANGLES_RAD], of which this is true: the step of every
    earlier angle is blocked. *)
Theorem resolveSteerStep_never_blocked (robot : RobotState) (step : Q)
    (holes : list (list Point)) (holeBounds : list Bounds) (x y heading : Q) :
  resolveSteerStep robot step holes holeBounds = Some (x, y, heading) ->
  let baseHeading := Math_atan2 (r_targetY robot - r_y robot) (r_targetX robot - r_x robot) in
  isBlockedPoint x y holes holeBounds = false /\
  ROBOT_CLEARANCE <= x <= 1 - ROBOT_CLEARANCE /\
  ROBOT_CLEARANCE <= y <= 1 - ROBOT_CLEARANCE /\
  exists before offset after,
    STEER_ANGLES_RAD = (before ++ offset :: after)%list /\
    heading = baseHeading + offset /\
    x = r_x robot + Math_cos heading * step /\
    y = r_y robot + Math_sin heading * step /\
    forall earlier, In earlier before ->
      isBlockedPoint (r_x robot + Math_cos (baseHeading + earlier) * step)
                     (r_y robot + Math_sin (baseHeading + earlier) * step)
                     holes holeBounds = true.
Proof.
  unfold resolveSteerStep. intro Hfind. cbv zeta.
  apply find_map_first in Hfind.
  destruct Hfind as (before & offset & after & Hsplit & Heq & Hfree & Hbefore).
  cbn [fst snd] in Hfree. apply negb_true_iff in Hfree.
  split; [exact Hfree|].
  assert (Hedges : ROBOT_CLEARANCE <= x <= 1 - ROBOT_CLEARANCE /\
                   ROBOT_CLEARANCE <= y <= 1 - ROBOT_CLEARANCE).
  { unfold isBlockedPoint in Hfree.
    destruct (Qltb x ROBOT_CLEARANCE) eqn:E1; [discriminate Hfree|].
    destruct (Qgtb x (1 - ROBOT_CLEARANCE)) eqn:E2; [discriminate Hfree|].
    destruct (Qltb y ROBOT_CLEARANCE) eqn:E3; [discriminate Hfree|].
    destruct (Qgtb y (1 - ROBOT_CLEARANCE)) eqn:E4; [discriminate Hfree|].
    apply Qltb_ge in E1, E3. apply Qgtb_le in E2, E4. tauto. }
  split; [exact (proj1 Hedges)|]. split; [exact (proj2 Hedges)|].
  exists before, offset, after. split; [exact Hsplit|].
  cbv zeta in Heq. inversion Heq; subst.
  split; [reflexivity|]. split; [reflexivity|]. split; [reflexivity|].
  intros earlier Hin. specialize (Hbefore earlier Hin). cbn [fst snd] in Hbefore.
  now apply negb_false_iff in Hbefore.
Qed.

Lemma assignRobot_identity (reactiveEvents : list ReactiveEvent) (d : Draws)
    (robot : RobotState) :
  r_id (assignRobot reactiveEvents d robot) = r_id robot /\
  r_label (assignRobot reactiveEvents d robot) = r_label robot /\
  r_baseSpeed (assignRobot reactiveEvents d robot) = r_baseSpeed robot.
Proof.
  unfold assignRobot. cbv zeta.
  repeat match goal with
         | |- context [match ?x with _ => _ end] => destruct x
         end; cbn [withRobot r_id r_label r_baseSpeed]; auto.
Qed.

Lemma tickRobot_identity (reactiveEvents : list ReactiveEvent) (holes : list (list Point))
    (expandedHoleBounds : list Bounds) (d : Draws) (robot : RobotState) :
  r_id (tickRobot reactiveEvents holes expandedHoleBounds d robot) = r_id robot /\
  r_label (tickRobot reactiveEvents holes expandedHoleBounds d robot) = r_label robot /\
  r_baseSpeed (tickRobot reactiveEvents holes expandedHoleBounds d robot) = r_baseSpeed robot.
Proof.
  destruct (assignRobot_identity reactiveEvents d robot) as (Hid & Hlabel & Hspeed).
  unfold tickRobot. cbv zeta.
  set (nextRobot := assignRobot reactiveEvents d robot) in *.
  destruct (Qle_bool _ _).
  - destruct (r_mode nextRobot); cbn [withRobot r_id r_label r_baseSpeed]; auto.
  - destruct (resolveSteerStep _ _ _ _) as [steered|].
    + destruct (_ >=? _)%Z; cbn [withRobot r_id r_label r_baseSpeed]; auto.
    + destruct (negb _); cbn [withRobot r_id r_label r_baseSpeed]; auto.
Qed.

Lemma map_snd_combine_seq {A : Type} (l : list A) (start : nat) :
  map snd (combine (seq start (List.length l)) l) = l.
Proof.
  revert start. induction l as [|a l IH]; intro start; simpl; [reflexivity|].
  now rewrite IH.
Qed.

Lemma tick_map {B : Type} (f : RobotState -> B) (events : list EventItem)
    (draws : nat -> Draws) (robots : list RobotState) :
  (forall reactiveEvents holes bounds d robot,
     f (tickRobot reactiveEvents holes bounds d robot) = f robot) ->
  map f (tick events draws robots) = map f robots.
Proof.
  intro Hf. unfold tick. rewrite map_map.
  rewrite <- (map_snd_combine_seq robots 0) at 3. rewrite map_map.
  apply map_ext. intros [k robot]. apply Hf.
Qed.

(** X27.  A tick moves the robots and changes nothing else of the fleet: the
    list after [tick] has as many robots, with the same [id], [label] and
    [baseSpeed], robot by robot. *)
Theorem tick_keeps_the_fleet (events : list EventItem) (draws : nat -> Draws)
    (robots : list RobotState) :
  List.length (tick events draws robots) = List.length robots /\
  map r_id (tick events draws robots) = map r_id robots /\
  map r_label (tick events draws robots) = map r_label robots /\
  map r_baseSpeed (tick events draws robots) = map r_baseSpeed robots.
Proof.
  assert (Hid : map r_id (tick events draws robots) = map r_id robots)
    by (apply tick_map; intros; apply tickRobot_identity).
  split; [|split; [exact Hid | split]].
  - rewrite <- (length_map r_id), Hid. apply length_map.
  - apply tick_map; intros; apply tickRobot_identity.
  - apply tick_map; intros; apply tickRobot_identity.
Qed.

Lemma assignRobot_consistent (reactiveEvents : list ReactiveEvent) (d : Draws)
    (robot : RobotState) :
  assignmentConsistent robot -> assignmentConsistent (assignRobot reactiveEvents d robot).
Proof.
  unfold assignmentConsistent, assignRobot. cbv zeta. intro Hrobot.
  destruct (match match r_assignedEventId robot with
                  | Some assigned => _
                  | None => None
                  end with
            | Some event => Some event
            | None => findClosestReactiveEvent robot reactiveEvents
            end) as [event|].
  - cbn [withRobot r_mode r_assignedEventId]. split; [discriminate | reflexivity].
  - destruct (r_mode robot) eqn:Emode.
    + rewrite Emode. exact Hrobot.
    + cbn [withRobot r_mode r_assignedEventId]. split; [discriminate | intro Hn; exfalso; now apply Hn].
Qed.

Lemma tickRobot_consistent (reactiveEvents : list ReactiveEvent) (holes : list (list Point))
    (expandedHoleBounds : list Bounds) (d : Draws) (robot : RobotState) :
  assignmentConsistent robot ->
  assignmentConsistent (tickRobot reactiveEvents holes expandedHoleBounds d robot).
Proof.
  intro Hrobot. apply (assignRobot_consistent reactiveEvents d) in Hrobot.
  unfold tickRobot. cbv zeta.
  set (nextRobot := assignRobot reactiveEvents d robot) in *.
  assert (Hpatrol : forall r : RobotState,
            r_mode r = patrol -> r_assignedEventId r = None -> assignmentConsistent r).
  { intros r Hm Ha. unfold assignmentConsistent. rewrite Hm, Ha.
    split; [discriminate | intro Hn; exfalso; now apply Hn]. }
  destruct (Qle_bool _ _).
  - destruct (r_mode nextRobot) eqn:Emode.
    + unfold assignmentConsistent in *. cbn [withRobot r_mode r_assignedEventId].
      now rewrite Emode in Hrobot.
    + now apply Hpatrol.
  - destruct (resolveSteerStep _ _ _ _) as [steered|].
    + destruct (_ >=? _)%Z; [now apply Hpatrol | exact Hrobot].
    + destruct (negb _); [exact Hrobot | now apply Hpatrol].
Qed.

(** X28.  A tick keeps mode and assignment together: when every robot is
    responding exactly if it holds the id of an event, the same is true of
    every robot after [tick], whatever the events and the random draws, and
    so after any number of ticks of a robot that starts on patrol with no
    event. *)
Theorem tick_keeps_assignment_consistent (events : list EventItem) (draws : nat -> Draws)
    (robots : list RobotState) :
  Forall assignmentConsistent robots ->
  Forall assignmentConsistent (tick events draws robots) /\
  (forall n reactiveEvents robot, In robot robots ->
     assignmentConsistent (runRobot n reactiveEvents draws robot)).
Proof.
  intro Hall. split.
  - unfold tick. apply Forall_forall. intros r Hr. apply in_map_iff in Hr.
    destruct Hr as ([k robot] & <- & Hin). apply in_combine_r in Hin.
    rewrite Forall_forall in Hall. apply tickRobot_consistent. now apply Hall.
  - intros n reactiveEvents robot Hin. rewrite Forall_forall in Hall.
    induction n as [|n IH]; cbn [runRobot]; [now apply Hall|].
    now apply tickRobot_consistent.
Qed.

End RobotFacts.

(** Witness of X26: the first step of a robot of the sample floor. *)
Lemma resolveSteerStep_never_blocked_witness :
  exists x y heading,
    resolveSteerStep (V := Demo.view) DemoPage.patrolRobot 0.0024
      (holePolygons (V := Demo.view)) (allHoleBounds (V := Demo.view))
    = Some (x, y, heading) /\
    ROBOT_CLEARANCE <= x <= 1 - ROBOT_CLEARANCE.
Proof.
  eexists. eexists. eexists. split; [vm_compute; reflexivity|].
  refine (proj1 (proj2 (resolveSteerStep_never_blocked (V := Demo.view) DemoPage.patrolRobot
                          0.0024 (holePolygons (V := Demo.view))
                          (allHoleBounds (V := Demo.view)) _ _ _ _))).
  vm_compute. reflexivity.
Defined.

(** Witness of X28: the stuck robot of the sample, which is responding to
    [e9]. *)
Lemma tick_keeps_assignment_consistent_witness :
  Forall assignmentConsistent
    (tick (V := Demo.view) [] (fun _ => Demo.someDraws) [Demo.stuckRobot]).
Proof.
  apply (tick_keeps_assignment_consistent (V := Demo.view) [] (fun _ => Demo.someDraws)
           [Demo.stuckRobot]).
  constructor; [|constructor]. split; [discriminate | reflexivity].
Defined.

(** ** The note of an event, written by the adapter and read by the map view *)
Import Situation.

Lemma noBar_cons (c : ascii) (r : string) :
  noBar (String c r) <-> Ascii.eqb c "|"%char = false /\ noBar r.
Proof.
  unfold noBar. cbn [includes startsWith]. rewrite (Ascii.eqb_sym "|"%char c).
  destruct (Ascii.eqb c "|"%char).
  - destruct r; cbn [startsWith]; (split; [discriminate | intros [Hf _]; discriminate Hf]).
  - tauto.
Qed.

Lemma noBar_append (a b : string) : noBar a -> noBar b -> noBar (a ++ b).
Proof.
  induction a as [|c r IH]; intros Ha Hb; [exact Hb|].
  change (String c r ++ b) with (String c (r ++ b)).
  apply noBar_cons in Ha. apply noBar_cons. split; [tauto | apply IH; tauto].
Qed.

Lemma string_append_assoc (a b c : string) : (a ++ b) ++ c = a ++ (b ++ c).
Proof.
  induction a as [|ch r IH]; [reflexivity|].
  change ((String ch r ++ b) ++ c) with (String ch ((r ++ b) ++ c)). now rewrite IH.
Qed.

Lemma splitBar_cons (c : ascii) (r : string) :
  splitBar (String c r) =
  if Ascii.eqb c "|"%char then EmptyString :: splitBar r
  else match splitBar r with
       | [] => [String c EmptyString]
       | h :: t => String c h :: t
       end.
Proof. reflexivity. Qed.

Lemma splitBar_noBar (s : string) : noBar s -> splitBar s = [s].
Proof.
  induction s as [|c r IH]; intro Hs; [reflexivity|].
  apply noBar_cons in Hs. destruct Hs as [Hc Hr].
  rewrite splitBar_cons, Hc, (IH Hr). reflexivity.
Qed.

Lemma splitBar_at_bar (u v : string) :
  noBar u -> splitBar (u ++ String "|"%char v) = u :: splitBar v.
Proof.
  induction u as [|c r IH]; intro Hu.
  - reflexivity.
  - change (String c r ++ String "|"%char v) with (String c (r ++ String "|"%char v)).
    apply noBar_cons in Hu. destruct Hu as [Hc Hr].
    rewrite splitBar_cons, Hc, (IH Hr). reflexivity.
Qed.

Lemma trimEnd_space (s : string) : trimEnd (s ++ " ") = trimEnd s.
Proof.
  induction s as [|c r IH]; [reflexivity|].
  change (String c r ++ " ") with (String c (r ++ " ")).
  now rewrite !trimEnd_cons, IH.
Qed.

Lemma trim_space_before (s : string) : trim (String " "%char s) = trim s.
Proof. reflexivity. Qed.

Lemma trim_space_after (s : string) : neat s -> trim (s ++ " ") = s.
Proof.
  intro Hs. destruct (neat_trim s Hs) as [Htrim _]. unfold trim in *.
  assert (Hstart : trimStart (s ++ " ") = s ++ " ").
  { destruct Hs as [Hc _]. destruct s as [|c r]; [contradiction|].
    change (String c r ++ " ") with (String c (r ++ " ")). cbn [trimStart].
    cbn [startsClean] in Hc. now rewrite Hc. }
  rewrite Hstart, trimEnd_space.
  assert (Hs0 : trimStart s = s).
  { destruct Hs as [Hc _]. destruct s as [|c r]; [contradiction|].
    cbn [trimStart]. cbn [startsClean] in Hc. now rewrite Hc. }
  now rewrite Hs0 in Htrim.
Qed.

(** The tokens that [parseSituationNote] makes of a note joined by
    [joinBar]: the chunks themselves. *)
Lemma tokens_of_joinBar (chunks : list string) :
  chunks <> [] -> Forall neat chunks -> Forall noBar chunks ->
  filter nonEmpty (map trim (splitBar (joinBar chunks))) = chunks /\
  filter nonEmpty (map trim (splitBar (String " "%char (joinBar chunks)))) = chunks.
Proof.
  induction chunks as [|c rest IH]; intros Hne Hneat Hbar; [contradiction|].
  inversion Hneat as [|? ? Hc Hrest]; subst. inversion Hbar as [|? ? Hcb Hrestb]; subst.
  destruct (neat_trim c Hc) as [Htrim Hnon].
  destruct rest as [|c' rest'].
  - cbn [joinBar]. split.
    + rewrite (splitBar_noBar c Hcb). cbn [map filter]. now rewrite Htrim, Hnon.
    + assert (Hsp : noBar (String " "%char c)) by (apply noBar_cons; split; [reflexivity | exact Hcb]).
      rewrite (splitBar_noBar _ Hsp). cbn [map filter].
      now rewrite trim_space_before, Htrim, Hnon.
  - destruct (IH ltac:(discriminate) Hrest Hrestb) as [_ IHsp].
    change (joinBar (c :: c' :: rest'))
      with (c ++ (" | " ++ joinBar (c' :: rest'))).
    assert (Hshape : forall w, c ++ (" | " ++ w) = (c ++ " ") ++ String "|"%char (String " "%char w)).
    { intro w. rewrite string_append_assoc. reflexivity. }
    assert (Hcs : noBar (c ++ " ")) by (apply noBar_append; [exact Hcb | reflexivity]).
    split.
    + rewrite Hshape, (splitBar_at_bar _ _ Hcs). cbn [map filter].
      rewrite (trim_space_after c Hc), Hnon. now rewrite IHsp.
    + change (String " "%char (c ++ (" | " ++ joinBar (c' :: rest'))))
        with (String " "%char (c ++ (" | " ++ joinBar (c' :: rest')))).
      rewrite Hshape.
      change (String " "%char ((c ++ " ") ++ String "|"%char (String " "%char (joinBar (c' :: rest')))))
        with ((String " "%char (c ++ " ")) ++ String "|"%char (String " "%char (joinBar (c' :: rest')))).
      assert (Hcs' : noBar (String " "%char (c ++ " ")))
        by (apply noBar_cons; split; [reflexivity | exact Hcs]).
      rewrite (splitBar_at_bar _ _ Hcs'). cbn [map filter].
      rewrite trim_space_before, (trim_space_after c Hc), Hnon. now rewrite IHsp.
Qed.

Lemma joinBar_nonEmpty (chunks : list string) :
  chunks <> [] -> Forall neat chunks -> nonEmpty (joinBar chunks) = true.
Proof.
  intros Hne Hneat. destruct chunks as [|c rest]; [contradiction|].
  inversion Hneat as [|? ? Hc _]; subst. destruct Hc as [Hc _].
  destruct c as [|ch r]; [contradiction|]. destruct rest; reflexivity.
Qed.

Lemma causeChunk_neat (c : string) : neat c -> neat ("cause:" ++ c).
Proof.
  intros Hc. split; [reflexivity|]. apply (endsClean_append "cause:" c). exact (proj2 Hc).
Qed.

Lemma actionChunk_neat (a : string) : neat a -> neat ("action:" ++ a).
Proof.
  intros Ha. split; [reflexivity|]. apply (endsClean_append "action:" a). exact (proj2 Ha).
Qed.

Lemma parse_chunks (direct cause action : option string) :
  optNeat direct -> optNeat cause -> optNeat action ->
  (forall s, direct = Some s \/ cause = Some s \/ action = Some s -> noBar s) ->
  (forall d, direct = Some d -> isCauseToken d = false /\ isActionToken d = false) ->
  let detailChunks :=
    List.app (match cause with Some c => [String.append "cause:" c] | None => [] end)
             (match action with Some a => [String.append "action:" a] | None => [] end) in
  parseSituationNote
    (match direct, detailChunks with
     | Some d, [] => Some d
     | Some d, _ => Some (joinBar (d :: detailChunks))
     | None, [] => None
     | None, _ => Some (joinBar detailChunks)
     end)
  = {| summary := direct; cause := cause; action := action |}.
Proof.
  intros Hd Hc Ha Hbar Htok. cbv zeta.
  set (chunks := List.app (match direct with Some d => [d] | None => [] end)
                   (List.app (match cause with Some c => [String.append "cause:" c] | None => [] end)
                             (match action with Some a => [String.append "action:" a] | None => [] end))).
  assert (Hneat : Forall neat chunks).
  { unfold chunks. apply Forall_app; split.
    - destruct direct as [d|]; [constructor; [now apply Hd | constructor] | constructor].
    - apply Forall_app; split.
      + destruct cause as [c|]; [|constructor].
        constructor; [apply causeChunk_neat; now apply Hc | constructor].
      + destruct action as [a|]; [|constructor].
        constructor; [apply actionChunk_neat; now apply Ha | constructor]. }
  assert (Hnobar : Forall noBar chunks).
  { unfold chunks. apply Forall_app; split.
    - destruct direct as [d|]; [constructor; [apply Hbar; now left | constructor] | constructor].
    - apply Forall_app; split.
      + destruct cause as [c|]; [|constructor].
        constructor; [|constructor]. apply noBar_append; [reflexivity | apply Hbar; tauto].
      + destruct action as [a|]; [|constructor].
        constructor; [|constructor]. apply noBar_append; [reflexivity | apply Hbar; tauto]. }
  assert (Hnote : forall (Hne : chunks <> []),
            parseSituationNote (Some (joinBar chunks)) =
            {| summary := find (fun token => negb (isCauseToken token) && negb (isActionToken token)) chunks;
               cause := option_map (fun token => trim (sliceFrom 6 token)) (find isCauseToken chunks);
               action := option_map (fun token => trim (sliceFrom 7 token)) (find isActionToken chunks) |}).
  { intro Hne. unfold parseSituationNote.
    rewrite (joinBar_nonEmpty chunks Hne Hneat). cbn [negb]. cbv zeta.
    now rewrite (proj1 (tokens_of_joinBar chunks Hne Hneat Hnobar)). }
  assert (HtrimC : forall c, cause = Some c -> trim c = c)
    by (intros c Ec; exact (proj1 (neat_trim c (Hc c Ec)))).
  assert (HtrimA : forall a, action = Some a -> trim a = a)
    by (intros a Ea; exact (proj1 (neat_trim a (Ha a Ea)))).
  assert (Hcause : forall c, isCauseToken ("cause:" ++ c) = true) by reflexivity.
  assert (Hcause' : forall c, isActionToken ("cause:" ++ c) = false) by reflexivity.
  assert (Haction : forall a, isActionToken ("action:" ++ a) = true) by reflexivity.
  assert (Haction' : forall a, isCauseToken ("action:" ++ a) = false) by reflexivity.
  assert (Hslice6 : forall c, sliceFrom 6 ("cause:" ++ c) = c) by reflexivity.
  assert (Hslice7 : forall a, sliceFrom 7 ("action:" ++ a) = a) by reflexivity.
  destruct direct as [d|]; destruct cause as [c|]; destruct action as [a|];
    try destruct (Htok d eq_refl) as [Hdc Hda];
    try pose proof (HtrimC c eq_refl) as Etc; try pose proof (HtrimA a eq_refl) as Eta;
    unfold chunks in Hnote; cbn [app] in Hnote |- *;
    try (rewrite (Hnote ltac:(discriminate)); cbn [find];
         rewrite ?Hdc, ?Hda, ?Hcause, ?Hcause', ?Haction, ?Haction'; cbn [negb andb option_map];
         rewrite ?Hslice6, ?Hslice7, ?Etc, ?Eta; reflexivity).
  - (* the text alone *)
    change (Some d) with (Some (joinBar [d])).
    rewrite (Hnote ltac:(discriminate)). cbn [find].
    rewrite Hdc, Hda. reflexivity.
  - reflexivity.
Qed.

(** X29.  [parseSituationNote] reads back what [extractNote] wrote: when
    the text, the cause and the action of a record hold no bar and the text
    does not itself begin with "cause:" or "action:" in any letter case, the
    note that the adapter builds from them parses into the same summary,
    cause and action. *)
Theorem parseSituationNote_reads_extractNote (record : JsVal) :
  let direct := parseText (pickValue record
        ["note"; "message"; "description"; "reason"; "summary"; "vlm_analysis.summary"]) in
  let cause := parseText (pickValue record ["vlm_analysis.cause"; "analysis.cause"]) in
  let action := parseText (pickValue record
        ["vlm_analysis.action"; "analysis.action"; "action"; "recommended_action"]) in
  (forall s, direct = Some s \/ cause = Some s \/ action = Some s -> noBar s) ->
  (forall d, direct = Some d -> isCauseToken d = false /\ isActionToken d = false) ->
  parseSituationNote (extractNote record)
  = {| summary := direct; Situation.cause := cause; Situation.action := action |}.
Proof.
  cbv zeta. intros Hbar Htok. unfold extractNote.
  apply parse_chunks; try assumption; apply optNeat_parseText.
Qed.

(** Witness of X29: a record with a message, a cause and an action. *)
Lemma parseSituationNote_reads_extractNote_witness :
  parseSituationNote
    (extractNote (JObj [("message", JStr " Person down ");
                        ("vlm_analysis", JObj [("cause", JStr "slip"); ("action", JStr "send staff")])]))
  = {| summary := Some "Person down"; cause := Some "slip"; action := Some "send staff" |}.
Proof.
  apply (parseSituationNote_reads_extractNote
           (JObj [("message", JStr " Person down ");
                  ("vlm_analysis", JObj [("cause", JStr "slip"); ("action", JStr "send staff")])])).
  - intros s [Hs | [Hs | Hs]]; vm_compute in Hs; injection Hs as <-; reflexivity.
  - intros d Hd. vm_compute in Hd. injection Hd as <-. split; reflexivity.
Defined.

(** ** The floor points of the 3D view *)
Section FloorFacts.
Context {H : Host}.
Variable ZONE_PLACEMENTS : list World3D.ZonePlacement.

Lemma projectInto_unit (n : nat) (x y : Q) (zone : World3D.ZonePlacement) (hp ep : Q) :
  inUnit x -> inUnit y ->
  inUnit (fst (World3D.projectInto n x y zone hp ep)) /\
  inUnit (snd (World3D.projectInto n x y zone hp ep)).
Proof.
  intros Hx Hy. revert ep. induction n as [|n IH]; intro ep; cbn [World3D.projectInto];
    destruct (World3D.inWalkableZone x y zone hp ep); cbn [fst snd]; try (split; assumption).
  - destruct (snd _); split; apply clamp01_unit.
  - destruct (snd _); [split; apply clamp01_unit|].
    destruct (Qgtb ep 0); [apply IH | split; apply clamp01_unit].
Qed.

(** X30.  The floor point of a robot ([resolveFloorPoint]) and of a marker
    ([resolveMarkerFloorPoint]) in the 3D view lies in the unit square,
    whatever the zones, the point and the event; a point that no zone polygon
    contains is kept where it is, clamped. *)
Theorem floor_points_in_unit_square (x0 y0 : Q) (event : EventItem) :
  (inUnit (fst (World3D.resolveFloorPoint ZONE_PLACEMENTS x0 y0)) /\
   inUnit (snd (World3D.resolveFloorPoint ZONE_PLACEMENTS x0 y0))) /\
  (inUnit (fst (World3D.resolveMarkerFloorPoint ZONE_PLACEMENTS event)) /\
   inUnit (snd (World3D.resolveMarkerFloorPoint ZONE_PLACEMENTS event))) /\
  ((forall zone, In zone ZONE_PLACEMENTS ->
      pointInPolygon (clamp01 x0) (clamp01 y0) (World3D.p_polygon zone) = false) ->
   World3D.resolveFloorPoint ZONE_PLACEMENTS x0 y0 = (clamp01 x0, clamp01 y0)).
Proof.
  split; [|split].
  - unfold World3D.resolveFloorPoint. cbv zeta. destruct (find _ _) as [zone|].
    + apply projectInto_unit; apply clamp01_unit.
    + split; apply clamp01_unit.
  - unfold World3D.resolveMarkerFloorPoint. cbv zeta.
    destruct (JsMap.get _ _) as [eventZone|].
    + apply projectInto_unit; apply clamp01_unit.
    + assert (Hfold : forall placements (acc : Point * option Q),
                inUnit (fst (fst acc)) /\ inUnit (snd (fst acc)) ->
                let r := fold_left
                  (fun (acc : Point * option Q) zone =>
                     let candidate :=
                       World3D.projectIntoWalkableZone (clamp01 (e_x event)) (clamp01 (e_y event))
                         zone World3D.MARKER_HOLE_PADDING_NORM
                         World3D.MARKER_ZONE_EDGE_PADDING_NORM in
                     let dx := fst candidate - clamp01 (e_x event) in
                     let dy := snd candidate - clamp01 (e_y event) in
                     let score := dx * dx + dy * dy in
                     if closer score (snd acc) then (candidate, Some score) else acc)
                  placements acc in
                inUnit (fst (fst r)) /\ inUnit (snd (fst r))).
      { induction placements as [|zone placements IH]; intros acc Hacc; simpl; [exact Hacc|].
        apply IH. destruct (closer _ _); [|exact Hacc]. cbn [fst].
        apply projectInto_unit; apply clamp01_unit. }
      apply Hfold. cbn [fst snd]. split; apply clamp01_unit.
  - intro Hout. unfold World3D.resolveFloorPoint. cbv zeta.
    now rewrite (find_none _ _ Hout).
Qed.

End FloorFacts.
